(** * Presynaptic spike-sequence generators ([SIFigure5code/func/sequences.py])

    A shallow embedding of the sequence builders, the Poisson generators and
    the sequence transforms, together with the properties stated about them.

    Conventions of the embedding.
    - A NumPy float is a rational extended with [np.inf] ([time]).  Scalars
      that the source documents as finite ([T0], [T], [del_t], rates, ...)
      are plain [Q].  The arithmetic is exact, and what is stated of it is
      what rounding leaves true: orders, counts, shapes, the positions of
      the sentinels, lower bounds of sums of non-negative terms.
      [translate], whose round trip depends on the rounding, is modelled
      with the rounding of each operation ([Rounding], [Binary64]).
    - A 1-d array is a [list], a 2-d array a list of rows.
    - The process-wide generator [np.random] is an explicit state threaded
      through a state-and-exception monad; [time.time()] is an explicit
      argument [now].
    - A Python exception is an [outcome] [Raise e]; a [while] loop takes a
      bound on its iterations and yields [Diverge] when the bound is hit.
    - [PreSyn] needs [np.exp], [np.pi] and a square root in earnest, so that
      class alone is modelled over the real numbers. *)

From Stdlib Require Import List Bool Arith ZArith QArith Qround Qabs Qpower.
From Stdlib Require Import Lia Psatz.
From Stdlib Require Import Sorting.Sorted Sorting.Permutation.
From Stdlib Require Import Reals.
Import ListNotations.

Open Scope Q_scope.

(* ================================================================== *)
(** * Python outcomes *)

Module Py.

Inductive exn : Type :=
| ValueError
| NameError
| AttributeError
| ZeroDivisionError
| TypeError.

Inductive outcome (A : Type) : Type :=
| Ok (a : A)
| Raise (e : exn)
| Diverge.

Arguments Ok {A} a.
Arguments Raise {A} e.
Arguments Diverge {A}.

End Py.
Import Py.

(** Sequencing of two computations that may raise. *)
Definition and_then {A B} (o : outcome A) (f : A -> outcome B) : outcome B :=
  match o with
  | Ok a => f a
  | Raise e => Raise e
  | Diverge => Diverge
  end.

(* ================================================================== *)
(** * Floats with the sentinel [np.inf] *)

Inductive time : Type :=
| Fin (q : Q)
| Inf.

Definition tadd (a b : time) : time :=
  match a, b with
  | Fin x, Fin y => Fin (x + y)
  | _, _ => Inf
  end.

(** [a - d] for a finite [d]. *)
Definition tsubq (a : time) (d : Q) : time :=
  match a with
  | Fin x => Fin (x - d)
  | Inf => Inf
  end.

Definition Qltb (x y : Q) : bool := negb (Qle_bool y x).

Definition tltb (a b : time) : bool :=
  match a, b with
  | Fin x, Fin y => Qltb x y
  | Fin _, Inf => true
  | Inf, _ => false
  end.

Definition tleb (a b : time) : bool :=
  match a, b with
  | Fin x, Fin y => Qle_bool x y
  | _, Inf => true
  | Inf, Fin _ => false
  end.

(** Numerical equality of two floats. *)
Definition teq (a b : time) : Prop :=
  match a, b with
  | Fin x, Fin y => x == y
  | Inf, Inf => True
  | _, _ => False
  end.

(** Rows and ensembles that agree entry by entry. *)
Definition row_eq : list time -> list time -> Prop := Forall2 teq.
Definition ensemble_eq : list (list time) -> list (list time) -> Prop :=
  Forall2 row_eq.

(** The invariant of a padded row: the real entries come first, in ascending
    order, and only sentinels follow. *)
Definition padded_row (row : list time) : Prop :=
  exists (real : list Q) (k : nat),
    row = map Fin real ++ repeat Inf k /\ StronglySorted Qle real.

(* ================================================================== *)
(** * Array helpers *)

Section Arrays.
Context {A : Type}.

(** [ndarray.sort] / [np.sort] along a row, for the order [leb]. *)
Fixpoint insert (leb : A -> A -> bool) (x : A) (l : list A) : list A :=
  match l with
  | [] => [x]
  | y :: l' => if leb x y then x :: l else y :: insert leb x l'
  end.

Definition sort (leb : A -> A -> bool) (l : list A) : list A :=
  fold_right (insert leb) [] l.

(** [np.hstack] of equally shaped blocks whose first axis indexes the
    patterns: pattern [k] of the result is the concatenation of the
    blocks' pattern [k]. *)
Definition hstack (blocks : list (list (list A))) : list (list A) :=
  map (fun k => concat (map (fun b => nth k b []) blocks))
      (seq 0 (length (hd [] blocks))).

(** [itertools.permutations]: lexicographic in the positions. *)
Fixpoint selections (l : list A) : list (A * list A) :=
  match l with
  | [] => []
  | x :: r => (x, r) :: map (fun yr => (fst yr, x :: snd yr)) (selections r)
  end.

Fixpoint perms (n : nat) (l : list A) : list (list A) :=
  match n with
  | O => [[]]
  | S n' =>
      flat_map (fun xr => map (cons (fst xr)) (perms n' (snd xr)))
               (selections l)
  end.

Definition permutations (l : list A) : list (list A) := perms (length l) l.

End Arrays.

(** Python's [sum] (a left fold from [0]) and [np.cumsum]. *)
Definition tsum (l : list time) : time := fold_left tadd l (Fin 0).

Fixpoint cumsum_from (acc : time) (l : list time) : list time :=
  match l with
  | [] => []
  | x :: r => tadd acc x :: cumsum_from (tadd acc x) r
  end.

Definition cumsum (l : list time) : list time :=
  match l with
  | [] => []
  | x :: r => x :: cumsum_from x r
  end.

(** [np.arange(start, stop, step)] for a non-zero [step]. *)
Definition arange (start stop step : Q) : list Q :=
  map (fun i => start + inject_Z (Z.of_nat i) * step)
      (seq 0 (Z.to_nat (Qceiling ((stop - start) / step)))).

(* ================================================================== *)
(** * Sequence transforms *)

(** [superimpose(S_1, S_2)].  The slice assignment [S[:, c1:] = S_2] accepts
    an [S_2] with as many rows as [S_1], broadcasts a single row, and raises
    [ValueError] otherwise. *)
Definition superimpose (S_1 S_2 : list (list time)) : outcome (list (list time)) :=
  if (length S_2 =? length S_1)%nat then
    Ok (map (fun rows => sort tleb (fst rows ++ snd rows)) (combine S_1 S_2))
  else if (length S_2 =? 1)%nat then
    Ok (map (fun row => sort tleb (row ++ hd [] S_2)) S_1)
  else Raise ValueError.

(* -------------------------------------------------------------- *)
(** ** Translation, with rounding

    [translate] adds and subtracts times and compares the results with a
    bound, and what it returns is sensitive to the rounding of binary64
    arithmetic.  Here the result of an operation is the exact result,
    rounded. *)

Class Rounding : Type := { rnd : Q -> Q }.

Definition tround `{Rounding} (x : time) : time :=
  match x with
  | Fin q => Fin (rnd q)
  | Inf => Inf
  end.

(** A rounding whose error on [[-B, B]] is at most [eps]. *)
Definition rounds_within `{Rounding} (B eps : Q) : Prop :=
  forall a, - B <= a -> a <= B -> - eps <= rnd a - a /\ rnd a - a <= eps.

(** Rounding to the nearest binary64 number, ties to even: a significand of
    53 bits.  Overflow and subnormal numbers are left out. *)
Module Binary64.

(** The integer nearest to [q], the even one of two. *)
Definition nearest_even (q : Q) : Z :=
  let f := Qfloor q in
  match Qcompare (q - inject_Z f) (1 # 2) with
  | Lt => f
  | Gt => (f + 1)%Z
  | Eq => if Z.even f then f else (f + 1)%Z
  end.

(** [floor(log2(a))] for [a > 0]. *)
Definition ilog2 (a : Q) : Z :=
  let k := (Z.log2 (Qnum a) - Z.log2 (Zpos (Qden a)))%Z in
  if Qle_bool (2 ^ k) a then k else (k - 1)%Z.

Definition round (q : Q) : Q :=
  if Qeq_bool q 0 then 0
  else
    let e := (ilog2 (Qabs q) - 52)%Z in
    Qred (inject_Z (nearest_even (q / 2 ^ e)) * 2 ^ e).

Definition rounding : Rounding := {| rnd := round |}.

End Binary64.

(** One entry of [translate]: [S_t -= del_t], then
    [S_t[S_t < T1] += (T2 - T1)]. *)
Definition translate_entry `{Rounding} (del_t T1 T2 : Q) (x : time) : time :=
  let y := tround (tsubq x del_t) in
  if tltb y (Fin T1) then tround (tadd y (Fin (rnd (T2 - T1)))) else y.

Definition translate `{Rounding} (S : list (list time)) (del_t T1 T2 : Q)
  : list (list time) :=
  map (map (translate_entry del_t T1 T2)) S.

(** An entry that is a sentinel or a real time of magnitude at most [M]. *)
Definition bounded (M : Q) (x : time) : Prop :=
  match x with
  | Fin q => - M <= q /\ q <= M
  | Inf => True
  end.

(** A real entry [a] within [err] of [b]. *)
Definition near (err a b : Q) : Prop := - err <= a - b /\ a - b <= err.

(** Two entries that agree modulo the period [T2 - T1] up to [err]: [z] is
    within [err] of [x] moved zero, one or two periods later, and a
    sentinel goes with a sentinel. *)
Definition agree_mod_period (T1 T2 err : Q) (z x : time) : Prop :=
  match z, x with
  | Fin a, Fin q =>
      exists k : Z,
        (0 <= k <= 2)%Z /\ near err a (q + inject_Z k * (T2 - T1))
  | Inf, Inf => True
  | _, _ => False
  end.

(** What a translation by [-d] followed by one by [d] does to an entry [x],
    [z] being the entry that comes back and [eps] the error of one
    rounding. *)
Definition round_trip_entry (eps d T1 T2 : Q) (z x : time) : Prop :=
  agree_mod_period T1 T2 (6 * eps) z x /\
  forall q : Q,
    x = Fin q ->
    exists a : Q,
      z = Fin a /\
      (T1 + 2 * eps <= q -> T1 + eps <= q + d -> near (2 * eps) a q) /\
      (T1 <= q -> 4 * eps <= T2 - T1 -> q + d < T1 - eps ->
       near (4 * eps) a (q + (T2 - T1))).

(* ================================================================== *)
(** * The random source and the monad of the generators *)

(** The three NumPy draws the module uses, as transitions of the generator
    state: [np.random.seed(n)], [np.random.exponential(scale)] and one
    variate of [np.random.rand]. *)
Class RandomState (G : Type) : Type := {
  np_random_seed : Z -> G;
  np_random_exponential : Q -> G -> Q * G;
  np_random_rand : G -> Q * G
}.

(** The elementary functions of NumPy, which map floats to floats. *)
Class NumPyMath : Type := {
  np_sin : Q -> Q;
  np_pi : Q;
  np_sqrt : Q -> Q
}.

(** What is known of the exponential variates: they are not negative. *)
Definition exponential_nonneg (G : Type) `{RandomState G} : Prop :=
  forall (scale : Q) (g : G),
    0 <= scale -> 0 <= fst (np_random_exponential scale g).

(** A row of real spike times in ascending order, before padding. *)
Definition real_sorted (row : list time) : Prop :=
  exists real : list Q, row = map Fin real /\ StronglySorted Qle real.

(** The list kept by the stationary loop: a first draw, then steps that are
    not negative. *)
Definition steps (l : list time) : Prop :=
  exists (q : Q) (qs : list Q), l = Fin q :: map Fin qs /\ Forall (Qle 0) qs.

Definition M (G A : Type) : Type := G -> outcome (A * G).

Definition ret {G A} (a : A) : M G A := fun g => Ok (a, g).

Definition bind {G A B} (c : M G A) (f : A -> M G B) : M G B :=
  fun g =>
    match c g with
    | Ok r => f (fst r) (snd r)
    | Raise e => Raise e
    | Diverge => Diverge
    end.

Definition raise {G A} (e : exn) : M G A := fun _ => Raise e.
Definition diverge {G A} : M G A := fun _ => Diverge.

Declare Scope gen_scope.
Delimit Scope gen_scope with gen.
Notation "x <- c ;; k" := (bind c (fun x => k))
  (at level 61, c at next level, right associativity) : gen_scope.
Notation "c ;;; k" := (bind c (fun _ => k))
  (at level 61, right associativity) : gen_scope.

(** The value of a run, without the final generator state. *)
Definition result {A G} (o : outcome (A * G)) : outcome A :=
  match o with
  | Ok r => Ok (fst r)
  | Raise e => Raise e
  | Diverge => Diverge
  end.

Section Generators.
Context {G : Type} `{RandomState G}.
Open Scope gen_scope.

(** [np.random.seed(n)] accepts the integers from [0] to [2**32 - 1] and
    raises [ValueError] for any other. *)
Definition seed (n : Z) : M G unit :=
  fun _ =>
    if ((0 <=? n) && (n <? 2 ^ 32))%Z then Ok (tt, np_random_seed n)
    else Raise ValueError.

(** [np.random.exponential] rejects a negative scale. *)
Definition exponential (scale : Q) : M G Q :=
  if Qltb scale 0 then raise ValueError
  else fun g => Ok (np_random_exponential scale g).

Definition rand1 : M G Q := fun g => Ok (np_random_rand g).

(** [np.random.exponential(1 / rate)]: the quotient of Python floats raises
    [ZeroDivisionError] for a zero [rate]. *)
Definition exponential_inv (rate : Q) : M G Q :=
  if Qeq_bool rate 0 then raise ZeroDivisionError else exponential (1 / rate).

(** [for _ in range(n)], collecting the results. *)
Fixpoint repeatM {A} (n : nat) (c : M G A) : M G (list A) :=
  match n with
  | O => ret []
  | S n' => a <- c ;; l <- repeatM n' c ;; ret (a :: l)
  end.

(** [for x in xs], collecting the results. *)
Fixpoint mapM {A B} (f : A -> M G B) (xs : list A) : M G (list B) :=
  match xs with
  | [] => ret []
  | x :: xs' => b <- f x ;; l <- mapM f xs' ;; ret (b :: l)
  end.

(** [np.random.rand(n)] and [np.random.rand(rows, n)] (row-major). *)
Definition rand_vec (n : nat) : M G (list Q) := repeatM n rand1.
Definition rand_mat (rows n : nat) : M G (list (list Q)) :=
  repeatM rows (rand_vec n).

(* -------------------------------------------------------------- *)
(** ** Stationary exponential generator *)

(** [while sum(spike_times) < T - T0:
       spike_times.append(np.random.exponential(1/rate))] *)
Fixpoint while_sum_below (fuel : nat) (rate span : Q)
         (spike_times : list time) : M G (list time) :=
  if tltb (tsum spike_times) (Fin span) then
    match fuel with
    | O => diverge
    | S fuel' =>
        x <- exponential_inv rate ;;
        while_sum_below fuel' rate span (spike_times ++ [Fin x])
    end
  else ret spike_times.

(** The body of the loop over [rates].  The test is on [rate], the draws
    use [rate1]; in [build_rate_seq] the two coincide.  (With [rate <= 0]
    the sum is [inf] and the loop is not entered, so [rate1] is never read
    there.) *)
Definition stationary_train (fuel : nat) (rate rate1 T0 T : Q) : M G (list time) :=
  first <- (if Qltb 0 rate
            then x <- exponential_inv rate1 ;; ret [Fin x]
            else ret [Inf]) ;;
  spike_times <- while_sum_below fuel rate1 (T - T0) first ;;
  ret (map (tadd (Fin T0)) (cumsum (removelast spike_times))).

(** [np.full((len(rates), np.max(num_spikes)), np.inf)] filled row by row;
    [np.max] of an empty list raises [ValueError]. *)
Definition pad (s_k : list (list time)) : M G (list (list time)) :=
  match s_k with
  | [] => raise ValueError
  | _ =>
      let width := list_max (map (@length time) s_k) in
      ret (map (fun s => s ++ repeat Inf (width - length s)) s_k)
  end.

Definition build_rate_seq (fuel : nat) (now : Z) (rates : list Q) (T0 T : Q)
  : M G (list (list time)) :=
  seed now ;;;
  s_k <- mapM (fun rate => stationary_train fuel rate rate T0 T) rates ;;
  pad s_k.

(* -------------------------------------------------------------- *)
(** ** Rate-modulated generator *)

(** The inner [while t_spike < t_squ[i + 1]] of [gen_poisson_spikes]. *)
Fixpoint window_spikes (fuel : nat) (fr t_next t_spike : Q) : M G (list Q) :=
  if Qltb t_spike t_next then
    match fuel with
    | O => diverge
    | S fuel' =>
        a <- exponential_inv fr ;;
        let t_spike' := t_spike + a in
        rest <- window_spikes fuel' fr t_next t_spike' ;;
        ret (if Qltb t_spike' t_next && Qltb 0 a
             then t_spike' :: rest else rest)
    end
  else ret [].

(** [np.arange(start, stop, step)] as called by the generators: the length
    is a quotient by [step], which raises [ZeroDivisionError] for a zero
    [step]. *)
Definition np_arange (start stop step : Q) : M G (list Q) :=
  if Qeq_bool step 0 then raise ZeroDivisionError
  else ret (arange start stop step).

(** [gen_poisson_spikes(FR, t_win, dt, tstop)].  The module never imports
    [warnings], so reaching [warnings.warn] raises [NameError]. *)
Definition gen_poisson_spikes (fuel : nat) (FR : list Q) (t_win dt tstop : Q)
  : M G (list Q) :=
  t_squ <- np_arange 0 (tstop + t_win) t_win ;;
  if (Z.of_nat (length FR) <? Z.of_nat (length t_squ) - 1)%Z then
    raise NameError
  else
    trains <- mapM (fun ifr =>
                      let i := fst ifr in
                      let fr := snd ifr in
                      if Qle_bool fr 0 then ret []
                      else window_spikes fuel fr (nth (i + 1) t_squ 0)
                                         (nth i t_squ 0))
                   (combine (seq 0 (length t_squ - 1)) FR) ;;
    ret (concat trains).

Context `{NumPyMath}.

(** The sinusoidal body: for [rate <= 0] the placeholder is the Python
    list [[np.inf]], and [spike_times < 0] on a list raises [TypeError]. *)
Definition modulated_train (fuel : nat) (rate rate1 mod_freq : Q)
           (t : list Q) (t_win dt T0 T : Q) : M G (list time) :=
  if Qltb 0 rate then
    let FR := map (fun ti =>
                     rate1 * np_sin (2 * np_pi * mod_freq * ti / 1000 + np_pi / 2)
                     + rate1) t in
    spike_times <- gen_poisson_spikes fuel FR t_win dt (T - T0) ;;
    let spike_times := filter (fun x => negb (Qltb x 0)) spike_times in
    let spike_times := sort Qle_bool spike_times in
    ret (map (fun x => Fin (T0 + x)) spike_times)
  else raise TypeError.

Definition build_rate_seq_modulated (fuel : nat) (now : Z) (rates : list Q)
           (T0 T mod_freq : Q) (mod_list : list nat) (t_win dt mod_amp : Q)
  : M G (list (list time)) :=
  t <- np_arange T0 (T + t_win) t_win ;;
  let in_mod_list i := existsb (Nat.eqb i) mod_list in
  let irates := combine (seq 0 (length rates)) rates in
  seed now ;;;
  s_k <-
    (if Qeq_bool mod_freq 0 then
       if (0 <? length mod_list)%nat then
         mapM (fun ir =>
                 if in_mod_list (fst ir)
                 then stationary_train fuel (snd ir)
                                       (snd ir * mod_amp * (6 # 10)) T0 T
                 else stationary_train fuel (snd ir) (snd ir) T0 T)
              irates
       else
         mapM (fun rate =>
                 stationary_train fuel rate (rate * mod_amp * (6 # 10)) T0 T)
              rates
     else
       if (0 <? length mod_list)%nat then
         mapM (fun ir =>
                 if in_mod_list (fst ir)
                 then modulated_train fuel (snd ir)
                                      (snd ir * mod_amp / np_sqrt 2)
                                      mod_freq t t_win dt T0 T
                 else stationary_train fuel (snd ir) (snd ir) T0 T)
              irates
       else
         mapM (fun rate =>
                 modulated_train fuel rate (rate * mod_amp)
                                 mod_freq t t_win dt T0 T)
              rates) ;;
  pad s_k.

(* -------------------------------------------------------------- *)
(** ** Pattern and rate-ensemble builders *)

(** [build_seqs(p, N_e, N_i, T0, T, n)] *)
Definition build_seqs (p N_e N_i : nat) (T0 T : Q) (n : nat)
  : M G (list (list (list Q)) * list (list (list Q))) :=
  S <- repeatM p
         (e <- rand_mat N_e n ;;
          i <- rand_mat N_i n ;;
          ret (map (map (fun u => T0 + (T - T0) * u)) e,
               map (map (fun u => T0 + (T - T0) * u)) i)) ;;
  ret (map fst S, map snd S).

(** [sparse_rates(p, N_e, N_i, mu, r_max)]; [mu/r_max] raises
    [ZeroDivisionError] for [r_max = 0]. *)
Definition sparse_rates (p N_e N_i : nat) (mu r_max : Q)
  : M G (list (list Q) * list (list Q)) :=
  if Qeq_bool r_max 0 then raise ZeroDivisionError
  else
    let p_max := mu / r_max in
    rs <- repeatM p
            (u <- rand_vec (N_e + N_i) ;;
             let r := map (fun x => (1 # 1000) * r_max *
                                    (if Qltb x p_max then 1 else 0)) u in
             ret (firstn N_e r, skipn N_e r)) ;;
    ret (map fst rs, map snd rs).

(** [assoc_rates(num, N_e, N_i, r_mean, r_max)]; [int(num**0.5)] is the
    integer square root. *)
Definition assoc_rates (num N_e N_i : nat) (r_mean r_max : Q)
  : M G (list (list Q) * list (list Q)) :=
  let p := Nat.sqrt num in
  let n_e1 := (N_e / 2)%nat in
  let n_i1 := (N_i / 2)%nat in
  let n_e2 := (N_e - n_e1)%nat in
  let n_i2 := (N_i - n_i1)%nat in
  f1 <- sparse_rates p n_e1 n_i1 r_mean r_max ;;
  f2 <- sparse_rates p n_e2 n_i2 r_mean r_max ;;
  let conj (x1 x2 : list (list Q)) :=
    flat_map (fun j => map (fun k => nth j x1 [] ++ nth k x2 []) (seq 0 p))
             (seq 0 p) in
  ret (conj (fst f1) (fst f2), conj (snd f1) (snd f2)).

(** The remainder test shared by the two time-sequence builders:
    [missing = N - len(x[0])]; [on_pad] is what the padding loop does. *)
Definition check_groups {A} (N : nat) (x0 : list A) (p : nat)
           (on_pad : M G unit) : M G unit :=
  let missing := (Z.of_nat N - Z.of_nat (length x0))%Z in
  if ((missing <=? Z.of_nat p) && (0 <? missing))%Z then on_pad
  else if (Z.of_nat p <? missing)%Z then raise ValueError
  else ret tt.

(** [assoc_rates_time_squence(p, N_e, N_i, r_mean, r_max)].  The padding
    loop calls [np.append(re[j], 0.0)] and drops the array it returns. *)
Definition assoc_rates_time_squence (p N_e N_i : nat) (r_mean r_max : Q)
  : M G (list (list Q) * list (list Q)) :=
  if (p =? 0)%nat then raise ZeroDivisionError
  else
    let n_e1 := (N_e / p)%nat in
    let n_i1 := (N_i / p)%nat in
    fs <- repeatM p (sparse_rates p n_e1 n_i1 r_mean r_max) ;;
    let re := hstack (map fst fs) in
    let ri := hstack (map snd fs) in
    check_groups N_e (nth 0 re []) p (ret tt) ;;;
    check_groups N_i (nth 0 ri []) p (ret tt) ;;;
    let label := seq 0 p in
    let num := length (permutations label) in
    ret (repeat (nth 0 re []) num, repeat (nth 0 ri []) num).

(** One pass of the loop over the permutations in
    [assoc_seqs_time_sequence].  The padding loop calls [se[j].append] on
    an [ndarray], which has no such attribute. *)
Definition time_sequence_pattern (p N_e N_i : nat) (T0 T : Q) (n : nat)
           (deltaT : Q) (order : list nat)
  : M G (list (list Q) * list (list Q)) :=
  let n_e1 := (N_e / p)%nat in
  let n_i1 := (N_i / p)%nat in
  bs <- mapM (fun i =>
                let o := inject_Z (Z.of_nat (nth i order O)) in
                build_seqs p n_e1 n_i1 (T0 + deltaT * o) (T + deltaT * o) n)
             (seq 0 p) ;;
  let se := hstack (map fst bs) in
  let si := hstack (map snd bs) in
  check_groups N_e (nth 0 se []) p (raise AttributeError) ;;;
  check_groups N_i (nth 0 si []) p (raise AttributeError) ;;;
  let gather (x : list (list (list Q))) :=
    map (fun i => concat (map (fun k => nth i (nth k x []) []) order))
        (seq 0 (length (nth 0 x []))) in
  ret (gather se, gather si).

(** [assoc_seqs_time_sequence(p, N_e, N_i, T0, T, n, deltaT)] *)
Definition assoc_seqs_time_sequence (p N_e N_i : nat) (T0 T : Q) (n : nat)
           (deltaT : Q)
  : M G (list (list (list Q)) * list (list (list Q))) :=
  if (p =? 0)%nat then raise ZeroDivisionError
  else
    let label := seq 0 p in
    let permutation_label := permutations label in
    S <- mapM (time_sequence_pattern p N_e N_i T0 T n deltaT)
              permutation_label ;;
    ret (map fst S, map snd S).

End Generators.

(* ================================================================== *)
(** * [class PreSyn]: non-homogeneous Poisson trains by rejection sampling

    Modelled over the reals.  The three draws of [spike_train]
    ([np.random.poisson], [np.random.uniform], [np.random.rand]) are its last
    arguments: the candidate times [train] (their number is [num_spikes]) and
    the uniform variates [v]. *)

Module PreSyn.
Local Open Scope R_scope.

Record t : Type := { r_0 : R; sigma : R; tau_d : option R }.

Definition Rleb (x y : R) : bool := if Rle_dec x y then true else false.
Definition Rltb (x y : R) : bool := if Rlt_dec x y then true else false.
Definition Rzerob (x : R) : bool := if Req_dec_T x 0 then true else false.

(** [rr[mask(t)] += c] *)
Definition add_where (mask : R -> bool) (c : R) (rr t : list R) : list R :=
  map (fun xt => if mask (snd xt) then fst xt + c else fst xt) (combine rr t).

(** [gauss_spike_time(t, spike_times, sigma)].  The function is compiled by
    numba, where the scalar division [1/(2*np.pi*sigma**2)**0.5] raises
    [ZeroDivisionError] for a zero divisor; it is evaluated once per kernel
    centre, so not at all for an empty [spike_times]. *)
Definition gauss_spike_time (t spike_times : list R) (sigma : R)
  : outcome (list R) :=
  fold_left
    (fun g t_k =>
       and_then g
         (fun g =>
            if Rzerob (sqrt (2 * PI * sigma ^ 2)) then Raise ZeroDivisionError
            else
              Ok (map (fun gt =>
                         fst gt + 1 / sqrt (2 * PI * sigma ^ 2)
                                  * exp (- (snd gt - t_k) ^ 2 / (2 * sigma ^ 2)))
                      (combine g t))))
    spike_times (Ok (map (fun _ => 0) t)).

(** [PreSyn.rate] *)
Definition rate (self : t) (t : list R) (t_on t_off stim_on stim_off s r : R)
           (spike_times : list R) : outcome (list R) :=
  let len := INR (length spike_times) in
  let rr := map (fun _ => 0) t in
  let rr := add_where (fun x => Rleb t_on x && Rltb x t_off)
                      (/ 1000 * r_0 self) rr t in
  let rr := add_where (fun x => Rleb stim_on x && Rltb x stim_off)
                      ((1 - s) * r) rr t in
  let rr := if Rleb t_off stim_off
            then add_where (fun x => Rleb stim_off x) (/ 1000 * r_0 self) rr t
            else rr in
  if Rltb 0 r && Rltb 0 (s * len)
  then and_then (gauss_spike_time t spike_times (sigma self))
         (fun g =>
            Ok (map (fun xg =>
                       fst xg + r * (stim_off - stim_on) / len * s * snd xg)
                    (combine rr g)))
  else Ok rr.

(** The envelope [r_max] computed at the head of [spike_train]. *)
Definition r_max (self : t) (stim_on stim_off s r : R) (spike_times : list R)
  : outcome R :=
  let len := INR (length spike_times) in
  if Rltb 0 (s * len)
  then and_then (gauss_spike_time [0] [0] (sigma self))
         (fun g =>
            Ok (/ 1000 * r_0 self
                + ((1 - s) * r
                   + r * (stim_off - stim_on) / len * s * nth 0 g 0)))
  else Ok (/ 1000 * r_0 self + r).

(** The acceptance ratios [self.rate(train, ...) / r_max], for a non-zero
    [r_max]. *)
Definition ratios (self : t) (train : list R)
           (t_on t_off stim_on stim_off s r : R) (spike_times : list R)
  : outcome (list R) :=
  and_then (r_max self stim_on stim_off s r spike_times)
    (fun r_max =>
       and_then (rate self train t_on t_off stim_on stim_off s r spike_times)
         (fun rr => Ok (map (fun x => x / r_max) rr))).

(** [PreSyn.spike_train]; [np.random.poisson] raises [ValueError] for a
    negative mean. *)
Definition spike_train (self : t) (t_on t_off stim_on stim_off s r : R)
           (spike_times : list R) (train v : list R) : outcome (list R) :=
  and_then (r_max self stim_on stim_off s r spike_times)
    (fun r_max =>
       let T := Rmax t_off (stim_off + 200) in
       if Rltb (r_max * (T - t_on)) 0 then Raise ValueError
       else
         let num_spikes := length train in
         and_then (rate self train t_on t_off stim_on stim_off s r spike_times)
           (fun rr =>
              let ratio := map (fun x => x / r_max) rr in
              let accept := filter (fun i => Rleb (nth i v 0) (nth i ratio 0))
                                   (seq 0 num_spikes) in
              Ok (sort Rleb (map (fun i => nth i train 0) accept)))).

End PreSyn.

(* ================================================================== *)
(** * A small generator for running the model

    A linear congruential generator stands in for the Mersenne Twister, and
    low-order rational approximations for the elementary functions, wherever
    the model is evaluated on concrete inputs. *)

Module Toy.

Definition lcg (x : Z) : Z := ((1103515245 * x + 12345) mod 2147483648)%Z.

Definition rng : RandomState Z := {|
  np_random_seed := fun n => lcg n;
  np_random_exponential :=
    fun scale g => (scale * (inject_Z (g mod 8 + 1) / 4), lcg g);
  np_random_rand := fun g => (inject_Z (g mod 16) / 16, lcg g)
|}.

Definition math : NumPyMath := {|
  np_sin := fun x => x - x * x * x / 6;
  np_pi := 355 # 113;
  np_sqrt := fun x => (x + 1) / 2
|}.

End Toy.

(* ================================================================== *)
(** * The remaining transforms

    As before, an ensemble is the two-dimensional array [np.array(S)] given
    by its rows, which have one common width. *)

(** An array access that may raise [IndexError]. *)
Inductive indexed (A : Type) : Type :=
| Indexed (a : A)
| RaiseIndexError.

Arguments Indexed {A} a.
Arguments RaiseIndexError {A}.

(** The mask [s < np.inf] of the real entries, and an in-place update
    [s[s < np.inf] op= c] seen from one entry. *)
Definition is_real (x : time) : bool := tltb x Inf.

Definition on_real (f : time -> time) (x : time) : time :=
  if is_real x then f x else x.

(** [a * c] for a real entry [a]. *)
Definition tmulq (a : time) (c : Q) : time :=
  match a with
  | Fin x => Fin (x * c)
  | Inf => Inf
  end.

(** An entry that is a sentinel or a real time in [[a, b)], resp.
    [[a, b]]. *)
Definition within (a b : Q) (x : time) : Prop :=
  x = Inf \/ exists q, x = Fin q /\ a <= q /\ q < b.

Definition within_closed (a b : Q) (x : time) : Prop :=
  x = Inf \/ exists q, x = Fin q /\ a <= q /\ q <= b.

(** An entry that is a sentinel or a real time not earlier than [a]. *)
Definition not_before (a : Q) (x : time) : Prop :=
  x = Inf \/ exists q, x = Fin q /\ a <= q.

(** [z] is a sentinel exactly when [x] is. *)
Definition same_kind (z x : time) : Prop :=
  match z, x with
  | Fin _, Fin _ => True
  | Inf, Inf => True
  | _, _ => False
  end.

(** [subsequence(S, t_start, t_end)] *)
Definition subsequence (S : list (list time)) (t_start t_end : Q)
  : list (list time) :=
  map (filter (fun s => tleb (Fin t_start) s && tltb s (Fin t_end))) S.

(** [rate2temp(S)]; the column [np.array([S_temp]).T] is a list of
    one-entry rows. *)
Definition rate2temp (S : list (list time)) : list (list time) * list nat :=
  let acc :=
    fold_left
      (fun acc ks =>
         let t_k := filter is_real (snd ks) in
         (fst acc ++ t_k, snd acc ++ repeat (fst ks) (length t_k)))
      (combine (seq 0 (length S)) S) ([], []) in
  (map (fun x => [x]) (fst acc), snd acc).

(** The real entries of an ensemble in row order, and the synapse index of
    each of them when the first row is synapse [k0]. *)
Definition real_entries (S : list (list time)) : list time :=
  concat (map (filter is_real) S).

Definition synapse_tags (k0 : nat) (S : list (list time)) : list nat :=
  concat (map (fun ks => repeat (fst ks) (length (filter is_real (snd ks))))
              (combine (seq k0 (length S)) S)).

(** The events that [rate2temp] attributes to synapse [k]. *)
Definition events_of (k : nat) (r : list (list time) * list nat) : list time :=
  map fst (filter (fun xi => (snd xi =? k)%nat)
                  (combine (concat (fst r)) (snd r))).

(** [compress_stim(S, compression, stim_on)] *)
Definition compress_stim (S : list (list time)) (compression stim_on : Q)
  : list (list time) :=
  map (map (fun x =>
              let x := on_real (fun y => tsubq y stim_on) x in
              let x := on_real (fun y => tmulq y compression) x in
              on_real (fun y => tadd y (Fin stim_on)) x)) S.

(** The loop of [jitter_phase] on row [k]: [s_k[0]] needs a first column and
    [jit_mag[k]] an entry [k]. *)
Definition jitter_row (jit_mag : list Q) (k : nat) (s_k : list time)
  : indexed (list time) :=
  match s_k with
  | [] => RaiseIndexError
  | first :: _ =>
      if tltb first Inf then
        match nth_error jit_mag k with
        | Some j => Indexed (map (fun x => tadd x (Fin j)) s_k)
        | None => RaiseIndexError
        end
      else Indexed s_k
  end.

Fixpoint jitter_rows (jit_mag : list Q) (k : nat) (s : list (list time))
  : indexed (list (list time)) :=
  match s with
  | [] => Indexed []
  | s_k :: s' =>
      match jitter_row jit_mag k s_k with
      | Indexed r =>
          match jitter_rows jit_mag (S k) s' with
          | Indexed rs => Indexed (r :: rs)
          | RaiseIndexError => RaiseIndexError
          end
      | RaiseIndexError => RaiseIndexError
      end
  end.

(** [s[s > stim_e] -= (stim_e - stim_s)], then
    [s[s < stim_s] += (stim_e - stim_s)], on one entry. *)
Definition wrap_entry (stim_s stim_e : Q) (x : time) : time :=
  let x := if tltb (Fin stim_e) x then tsubq x (stim_e - stim_s) else x in
  if tltb x (Fin stim_s) then tadd x (Fin (stim_e - stim_s)) else x.

(** [jitter_phase(S, stim_s, stim_e, jit_mag)] *)
Definition jitter_phase (S : list (list time)) (stim_s stim_e : Q)
           (jit_mag : list Q) : indexed (list (list time)) :=
  match jitter_rows jit_mag 0 S with
  | Indexed s => Indexed (map (map (wrap_entry stim_s stim_e)) s)
  | RaiseIndexError => RaiseIndexError
  end.




(* ================================================================== *)
(** * The remaining builders *)

(** [np.random.shuffle] and [np.random.lognormal(mu, sigma, N)] as
    transitions of the generator state. *)
Class RandomShuffle (G : Type) : Type := {
  np_random_shuffle : list nat -> G -> list nat * G
}.

Class RandomLogNormal (G : Type) : Type := {
  np_random_lognormal : Q -> Q -> nat -> G -> list Q * G
}.

(** What is known of the draws: uniform variates lie in [[0, 1)], a shuffle
    permutes, and [lognormal] returns as many variates as asked. *)
Definition rand_unit (G : Type) `{RandomState G} : Prop :=
  forall g : G,
    0 <= fst (np_random_rand g) /\ fst (np_random_rand g) < 1.

Definition shuffle_permutes (G : Type) `{RandomShuffle G} : Prop :=
  forall (l : list nat) (g : G), Permutation l (fst (np_random_shuffle l g)).

Definition lognormal_sized (G : Type) `{RandomLogNormal G} : Prop :=
  forall (mu sigma : Q) (N : nat) (g : G),
    length (fst (np_random_lognormal mu sigma N g)) = N.

(** A block of [rows] trains of [n] event times each, none earlier than
    [T0]. *)
Definition events_from (rows n : nat) (T0 : Q) (m : list (list Q)) : Prop :=
  length m = rows /\
  Forall (fun row => length row = n /\ Forall (fun x => T0 <= x) row) m.

(** The number of labels equal to [v]. *)
Definition count_label (v : Q) (L : list Q) : nat :=
  length (filter (Qeq_bool v) L).

(** [L[i] = v] for an index in range. *)
Fixpoint set_nth {A} (i : nat) (v : A) (L : list A) : list A :=
  match L, i with
  | [], _ => []
  | _ :: L', O => v :: L'
  | x :: L', S i' => x :: set_nth i' v L'
  end.

(** [L[inds] = v] for an index array. *)
Definition set_all {A} (inds : list nat) (v : A) (L : list A) : list A :=
  fold_left (fun L i => set_nth i v L) inds L.

Section Builders.
Context {G : Type} `{RandomState G}.
Open Scope gen_scope.

(** [assoc_seqs(num, N_e, N_i, T0, T, n)]; [np.vstack] stacks the rows. *)
Definition assoc_seqs (num N_e N_i : nat) (T0 T : Q) (n : nat)
  : M G (list (list (list Q)) * list (list (list Q))) :=
  let p := Nat.sqrt num in
  let n_e1 := (N_e / 2)%nat in
  let n_i1 := (N_i / 2)%nat in
  let n_e2 := (N_e - n_e1)%nat in
  let n_i2 := (N_i - n_i1)%nat in
  f1 <- build_seqs p n_e1 n_i1 T0 T n ;;
  f2 <- build_seqs p n_e2 n_i2 T0 T n ;;
  let conj (x1 x2 : list (list (list Q))) :=
    flat_map (fun j => map (fun k => nth j x1 [] ++ nth k x2 []) (seq 0 p))
             (seq 0 p) in
  ret (conj (fst f1) (fst f2), conj (snd f1) (snd f2)).

(** [assign_labels(p)]; the indices come from a shuffle of [np.arange(p)],
    so they are in range. *)
Definition assign_labels `{RandomShuffle G} (p : nat) : M G (list Q) :=
  fun g =>
    let L := repeat 1 p in
    let rand_inds := np_random_shuffle (seq 0 p) g in
    Ok (set_all (firstn (p / 2) (fst rand_inds)) (- (1)) L, snd rand_inds).

(** [np.random.lognormal(mu, sigma, N)] rejects a negative [sigma]. *)
Definition lognormal `{RandomLogNormal G} (mu sigma : Q) (N : nat)
  : M G (list Q) :=
  if Qltb sigma 0 then raise ValueError
  else fun g => Ok (np_random_lognormal mu sigma N g).

(** [lognormal_rates(p, N_e, N_i, mu, sigma)]; [clock k] is the reading
    [int(time.time())] in pass [k] of the loop. *)
Definition lognormal_rates `{RandomLogNormal G} (clock : nat -> Z)
           (p N_e N_i : nat) (mu sigma : Q)
  : M G (list (list Q) * list (list Q)) :=
  let N := (N_e + N_i)%nat in
  rs <- mapM (fun k =>
                seed (clock k) ;;;
                draw <- lognormal mu sigma N ;;
                let rates := map (Qmult (1 # 1000)) draw in
                ret (firstn N_e rates, skipn N_e rates))
             (seq 0 p) ;;
  ret (map fst rs, map snd rs).

End Builders.

Module ToyDraws.

Definition shuffle : RandomShuffle Z := {|
  np_random_shuffle :=
    fun l g => (if Z.even g then rev l else l, Toy.lcg g)
|}.

Definition lognormal : RandomLogNormal Z := {|
  np_random_lognormal :=
    fun mu sigma N g =>
      (map (fun i => inject_Z ((g + Z.of_nat i) mod 5 + 1)) (seq 0 N),
       Toy.lcg g)
|}.

End ToyDraws.

(* ================================================================== *)
(** * [PreSyn] at one time point

    The value the vectorised [gauss_spike_time] and [PreSyn.rate] give for
    one entry [x] of the time vector. *)

Module PreSynPoint.
Import PreSyn.
Local Open Scope R_scope.

Definition kernel (sigma x t_k : R) : R :=
  1 / sqrt (2 * PI * sigma ^ 2) * exp (- (x - t_k) ^ 2 / (2 * sigma ^ 2)).

Definition gauss_at (sigma : R) (spike_times : list R) (x : R) : R :=
  fold_left (fun g t_k => g + kernel sigma x t_k) spike_times 0.

Definition rate_at (self : PreSyn.t) (t_on t_off stim_on stim_off s r : R)
           (spike_times : list R) (x : R) : R :=
  let len := INR (length spike_times) in
  let v := 0 in
  let v := if Rleb t_on x && Rltb x t_off then v + / 1000 * r_0 self else v in
  let v := if Rleb stim_on x && Rltb x stim_off then v + (1 - s) * r else v in
  let v := if Rleb t_off stim_off
           then (if Rleb stim_off x then v + / 1000 * r_0 self else v)
           else v in
  if Rltb 0 r && Rltb 0 (s * len)
  then v + r * (stim_off - stim_on) / len * s
           * gauss_at (sigma self) spike_times x
  else v.

(** The value of the envelope [r_max]: with kernels in play, the rate at the
    centre of a single kernel. *)
Definition envelope (self : PreSyn.t) (stim_on stim_off s r : R)
           (spike_times : list R) : R :=
  let len := INR (length spike_times) in
  if Rltb 0 (s * len)
  then / 1000 * r_0 self
       + ((1 - s) * r
          + r * (stim_off - stim_on) / len * s * gauss_at (sigma self) [0] 0)
  else / 1000 * r_0 self + r.

(** A cell without background and with kernels of unit width. *)
Definition two_centres : PreSyn.t :=
  {| r_0 := 0; sigma := 1; tau_d := None |}.

(** The background rate alone: on [[t_on, t_off)], and again from
    [stim_off] on when the background ends before the stimulus does. *)
Definition background_at (self : PreSyn.t) (t_on t_off stim_off : R) (x : R) : R :=
  if Rleb t_on x && Rltb x t_off then / 1000 * r_0 self
  else if Rleb t_off stim_off && Rleb stim_off x then / 1000 * r_0 self
  else 0.

End PreSynPoint.

(* ================================================================== *)
(** * Order and equality of floats *)

Lemma Qltb_lt (x y : Q) : Qltb x y = true <-> x < y.
Proof.
  unfold Qltb. rewrite negb_true_iff. split; intro E.
  - apply Qnot_le_lt. intro L. apply Qle_bool_iff in L. congruence.
  - destruct (Qle_bool y x) eqn:L; [|reflexivity].
    apply Qle_bool_iff in L. lra.
Qed.

Lemma Qltb_ge (x y : Q) : Qltb x y = false <-> y <= x.
Proof.
  unfold Qltb. rewrite negb_false_iff. apply Qle_bool_iff.
Qed.

Lemma teq_refl a : teq a a.
Proof. destruct a; simpl; [reflexivity | exact I]. Qed.

Lemma teq_trans a b c : teq a b -> teq b c -> teq a c.
Proof.
  destruct a, b, c; simpl; try tauto. intros E1 E2. rewrite E1. exact E2.
Qed.

Lemma tleb_total a b : tleb a b = true \/ tleb b a = true.
Proof.
  destruct a as [x|], b as [y|]; simpl; auto.
  destruct (Qlt_le_dec x y) as [L|L].
  - left. apply Qle_bool_iff. lra.
  - right. apply Qle_bool_iff. exact L.
Qed.

Lemma tleb_trans a b c : tleb a b = true -> tleb b c = true -> tleb a c = true.
Proof.
  destruct a as [x|], b as [y|], c as [z|]; simpl; auto; try discriminate.
  rewrite !Qle_bool_iff. intros. lra.
Qed.

Lemma tleb_antisym a b : tleb a b = true -> tleb b a = true -> teq a b.
Proof.
  destruct a as [x|], b as [y|]; simpl; auto; try discriminate.
  rewrite !Qle_bool_iff. intros. lra.
Qed.

Lemma tleb_teq a a' b b' : teq a a' -> teq b b' -> tleb a b = tleb a' b'.
Proof.
  destruct a as [x|], a' as [x'|], b as [y|], b' as [y'|]; simpl;
    try tauto.
  intros E1 E2. rewrite E1, E2. reflexivity.
Qed.

(* ================================================================== *)
(** * Sorting *)

Section SortFacts.
Context {A : Type} (leb : A -> A -> bool) (eqv : A -> A -> Prop).
Hypothesis leb_total : forall a b, leb a b = true \/ leb b a = true.
Hypothesis leb_trans :
  forall a b c, leb a b = true -> leb b c = true -> leb a c = true.
Hypothesis leb_antisym :
  forall a b, leb a b = true -> leb b a = true -> eqv a b.
Hypothesis leb_eqv :
  forall a a' b b', eqv a a' -> eqv b b' -> leb a b = leb a' b'.
Hypothesis eqv_refl : forall a, eqv a a.
Hypothesis eqv_trans : forall a b c, eqv a b -> eqv b c -> eqv a c.

Let le (a b : A) : Prop := leb a b = true.

Lemma insert_perm x l : Permutation (x :: l) (insert leb x l).
Proof.
  induction l as [|y l IH]; simpl; [apply Permutation_refl|].
  destruct (leb x y); [apply Permutation_refl|].
  eapply perm_trans; [apply perm_swap|]. apply perm_skip, IH.
Qed.

Lemma sort_perm l : Permutation l (sort leb l).
Proof.
  induction l as [|x l IH]; simpl; [constructor|].
  eapply perm_trans; [apply perm_skip, IH | apply insert_perm].
Qed.

Lemma insert_sorted x l :
  StronglySorted le l -> StronglySorted le (insert leb x l).
Proof.
  induction 1 as [|y l Hs IH Hy]; simpl.
  - repeat constructor.
  - destruct (leb x y) eqn:E.
    + constructor; [constructor; assumption|].
      constructor; [exact E|].
      eapply Forall_impl; [|exact Hy]. intros z Hz.
      eapply leb_trans; eassumption.
    + constructor; [exact IH|].
      eapply Permutation_Forall; [apply insert_perm|].
      constructor; [|exact Hy].
      destruct (leb_total x y) as [L|L]; [congruence | exact L].
Qed.

Lemma sort_sorted l : StronglySorted le (sort leb l).
Proof.
  induction l as [|x l IH]; simpl; [constructor | apply insert_sorted, IH].
Qed.

Lemma Forall2_eqv_refl l : Forall2 eqv l l.
Proof. induction l; constructor; auto. Qed.

Lemma Forall2_eqv_trans l1 l2 l3 :
  Forall2 eqv l1 l2 -> Forall2 eqv l2 l3 -> Forall2 eqv l1 l3.
Proof.
  intros E. revert l3. induction E; intros l3 E3; inversion E3; subst;
    constructor; eauto.
Qed.

Lemma insert_eqv x l l' :
  Forall2 eqv l l' -> Forall2 eqv (insert leb x l) (insert leb x l').
Proof.
  induction 1 as [|y y' l l' Ey El IH]; simpl.
  - constructor; auto.
  - rewrite (leb_eqv x x y y' (eqv_refl x) Ey).
    destruct (leb x y').
    + constructor; [apply eqv_refl|]. constructor; assumption.
    + constructor; assumption.
Qed.

(** Two insertions commute, up to the order of equal keys. *)
Lemma insert_insert x y l :
  Forall2 eqv (insert leb x (insert leb y l)) (insert leb y (insert leb x l)).
Proof.
  induction l as [|z l IH]; simpl.
  - destruct (leb x y) eqn:Exy, (leb y x) eqn:Eyx; simpl;
      try apply Forall2_eqv_refl.
    + repeat constructor; auto.
    + destruct (leb_total x y); congruence.
  - destruct (leb y z) eqn:Eyz, (leb x z) eqn:Exz; simpl;
      rewrite ?Eyz, ?Exz.
    + destruct (leb x y) eqn:Exy, (leb y x) eqn:Eyx;
        try apply Forall2_eqv_refl.
      * constructor; [auto|]. constructor; [auto|]. apply Forall2_eqv_refl.
      * destruct (leb_total x y); congruence.
    + destruct (leb x y) eqn:Exy.
      * rewrite (leb_trans _ _ _ Exy Eyz) in Exz. discriminate.
      * apply Forall2_eqv_refl.
    + destruct (leb y x) eqn:Eyx.
      * rewrite (leb_trans _ _ _ Eyx Exz) in Eyz. discriminate.
      * apply Forall2_eqv_refl.
    + constructor; [apply eqv_refl | exact IH].
Qed.

(** The sorted row depends only on the entries, not on their order. *)
Lemma sort_Permutation l l' :
  Permutation l l' -> Forall2 eqv (sort leb l) (sort leb l').
Proof.
  induction 1 as [| x l l' _ IH | x y l | l1 l2 l3 _ IH1 _ IH2]; simpl.
  - constructor.
  - apply insert_eqv, IH.
  - apply insert_insert.
  - eapply Forall2_eqv_trans; eassumption.
Qed.

End SortFacts.

Lemma sorted_padded_row row :
  StronglySorted (fun a b => tleb a b = true) row -> padded_row row.
Proof.
  induction 1 as [|a row Hs IH Ha].
  - exists [], O. split; [reflexivity | constructor].
  - destruct IH as (real & k & -> & Hreal). destruct a as [x|].
    + exists (x :: real), k. split; [reflexivity|].
      constructor; [exact Hreal|].
      apply Forall_app in Ha. destruct Ha as [Ha _].
      apply Forall_forall. intros y Hy.
      rewrite Forall_forall in Ha.
      specialize (Ha (Fin y) (in_map Fin _ _ Hy)). simpl in Ha.
      apply Qle_bool_iff. exact Ha.
    + destruct real as [|y real].
      * exists [], (S k). split; [reflexivity | constructor].
      * inversion Ha as [|? ? Hbad _]. simpl in Hbad. discriminate.
Qed.

Lemma sort_padded_row row : padded_row (sort tleb row).
Proof.
  apply sorted_padded_row.
  apply sort_sorted; [exact tleb_total | exact tleb_trans].
Qed.

(* ================================================================== *)
(** * Sequence transforms *)

Lemma superimpose_rows (A B S : list (list time)) :
  superimpose A B = Ok S -> Forall (fun row => exists l, row = sort tleb l) S.
Proof.
  unfold superimpose. intro E.
  destruct (length B =? length A)%nat;
    [|destruct (length B =? 1)%nat; [|discriminate]];
    injection E as <-; apply Forall_forall; intros row Hin;
    apply in_map_iff in Hin; destruct Hin as (x & <- & _); eexists; reflexivity.
Qed.

Lemma superimpose_same_rows (A B : list (list time)) :
  length A = length B ->
  superimpose A B =
  Ok (map (fun rows => sort tleb (fst rows ++ snd rows)) (combine A B)).
Proof.
  intro E. unfold superimpose. rewrite E, Nat.eqb_refl. reflexivity.
Qed.

Lemma superimposed_rows_comm (A B : list (list time)) :
  length A = length B ->
  ensemble_eq
    (map (fun rows => sort tleb (fst rows ++ snd rows)) (combine A B))
    (map (fun rows => sort tleb (fst rows ++ snd rows)) (combine B A)).
Proof.
  revert B. induction A as [|a A IH]; intros [|b B] E; simpl in *;
    try discriminate; [constructor|].
  constructor; [|apply IH; lia].
  apply (sort_Permutation tleb teq).
  - exact tleb_total.
  - exact tleb_trans.
  - exact tleb_antisym.
  - exact tleb_teq.
  - exact teq_refl.
  - exact teq_trans.
  - apply Permutation_app_comm.
Qed.

(* ================================================================== *)
(** * Rounding to binary64 *)

Module Binary64Facts.
Import Binary64.

Lemma nearest_even_error (t : Q) :
  - (1 # 2) <= inject_Z (nearest_even t) - t /\
  inject_Z (nearest_even t) - t <= 1 # 2.
Proof.
  unfold nearest_even.
  pose proof (Qfloor_le t) as Hlo. pose proof (Qlt_floor t) as Hhi.
  rewrite inject_Z_plus in Hhi. change (inject_Z 1) with 1 in Hhi.
  destruct (Qcompare_spec (t - inject_Z (Qfloor t)) (1 # 2)) as [E|E|E].
  - destruct (Z.even (Qfloor t)).
    + split; lra.
    + rewrite inject_Z_plus. change (inject_Z 1) with 1. split; lra.
  - split; lra.
  - rewrite inject_Z_plus. change (inject_Z 1) with 1. split; lra.
Qed.

Lemma two_power_pos (k : Z) : 0 < 2 ^ k.
Proof. apply Qpower_0_lt. reflexivity. Qed.

Lemma ilog2_le (a : Q) : 0 < a -> 2 ^ ilog2 a <= a.
Proof.
  intro Ha. unfold ilog2.
  destruct (Qle_bool (2 ^ (Z.log2 (Qnum a) - Z.log2 (Z.pos (Qden a)))) a)
    eqn:E; [apply Qle_bool_iff; exact E|].
  clear E. destruct a as [n d]. cbn [Qnum Qden].
  assert (Hn : (0 < n)%Z) by (unfold Qlt in Ha; simpl in Ha; lia).
  pose proof (Z.log2_spec n Hn) as [Hn1 _].
  pose proof (Z.log2_spec (Z.pos d) eq_refl) as [_ Hd2].
  pose proof (Z.log2_nonneg n) as Hln.
  pose proof (Z.log2_nonneg (Z.pos d)) as Hld.
  replace (Z.log2 n - Z.log2 (Z.pos d) - 1)%Z
    with (Z.log2 n - Z.succ (Z.log2 (Z.pos d)))%Z by lia.
  rewrite Qpower_minus by discriminate.
  change 2 with (inject_Z 2).
  rewrite <- !Zpower_Qpower by lia.
  set (A := (2 ^ Z.log2 n)%Z) in *.
  set (B := (2 ^ Z.succ (Z.log2 (Z.pos d)))%Z) in *.
  apply Qle_shift_div_r.
  - change 0 with (inject_Z 0). rewrite <- Zlt_Qlt. lia.
  - unfold Qle, Qmult, inject_Z. cbn [Qnum Qden].
    rewrite !Z.mul_1_r. nia.
Qed.

(** The relative error of one rounding is at most [2 ^ -53]. *)
Lemma round_error (q : Q) :
  - (Qabs q * (1 # 9007199254740992)) <= round q - q /\
  round q - q <= Qabs q * (1 # 9007199254740992).
Proof.
  unfold round. destruct (Qeq_bool q 0) eqn:E0.
  - apply Qeq_bool_iff in E0. rewrite E0. split; discriminate.
  - assert (Hq : ~ q == 0).
    { intro Hq. apply Qeq_bool_iff in Hq. congruence. }
    assert (Ha : 0 < Qabs q).
    { clear -Hq. destruct q as [n d]. unfold Qeq in Hq.
      unfold Qlt, Qabs. simpl in *. lia. }
    pose proof (ilog2_le _ Ha) as Hk.
    set (k := ilog2 (Qabs q)) in *.
    rewrite Qred_correct.
    assert (Hp : 2 ^ (k - 52) * 4503599627370496 == 2 ^ k).
    { rewrite Qpower_minus by discriminate.
      change (2 ^ 52) with 4503599627370496. field. }
    pose proof (two_power_pos (k - 52)) as Hpos.
    set (p := 2 ^ (k - 52)) in *.
    pose proof (nearest_even_error (q / p)) as [Hlo Hhi].
    set (m := inject_Z (nearest_even (q / p))) in *.
    assert (Ht : q / p * p == q) by (field; lra).
    set (t := q / p) in *.
    assert (H1 : (m - t) * p <= (1 # 2) * p)
      by (apply Qmult_le_compat_r; lra).
    assert (H2 : - (1 # 2) * p <= (m - t) * p)
      by (apply Qmult_le_compat_r; lra).
    assert (H3 : m * p - q == (m - t) * p) by (rewrite <- Ht; ring).
    rewrite H3. split; lra.
Qed.

Lemma rounds_within_binary64 (B : Q) :
  @rounds_within rounding B (B * (1 # 9007199254740992)).
Proof.
  intros a Hlo Hhi. simpl.
  pose proof (round_error a) as [H1 H2].
  assert (Habs : Qabs a <= B) by (apply Qabs_Qle_condition; split; assumption).
  split; lra.
Qed.

End Binary64Facts.

(* ================================================================== *)
(** * [translate] *)

Section TranslateFacts.
Context `{Rounding}.

Lemma translate_entry_twice (B eps M d T1 T2 q : Q) :
  rounds_within B eps -> 0 <= eps -> 5 * (M + eps) <= B ->
  - M <= d -> d <= M -> - M <= T2 - T1 -> T2 - T1 <= M ->
  - M <= q -> q <= M ->
  round_trip_entry eps d T1 T2
    (translate_entry d T1 T2 (translate_entry (- d) T1 T2 (Fin q))) (Fin q).
Proof.
  intros Hr He HB Hd1 Hd2 HP1 HP2 Hq1 Hq2.
  unfold translate_entry. cbn [tsubq tround].
  destruct (Hr (q - - d)) as [a1 b1]; [lra | lra |].
  set (y1 := rnd (q - - d)) in *.
  destruct (Hr (T2 - T1)) as [aP bP]; [lra | lra |].
  set (P' := rnd (T2 - T1)) in *.
  cbn [tltb]. destruct (Qltb y1 T1) eqn:E1;
    [apply Qltb_lt in E1 | apply Qltb_ge in E1].
  - cbn [tadd tround tsubq].
    destruct (Hr (y1 + P')) as [a2 b2]; [lra | lra |].
    set (z1 := rnd (y1 + P')) in *.
    destruct (Hr (z1 - d)) as [a3 b3]; [lra | lra |].
    set (y2 := rnd (z1 - d)) in *.
    cbn [tltb]. destruct (Qltb y2 T1) eqn:E2;
      [apply Qltb_lt in E2 | apply Qltb_ge in E2].
    + cbn [tadd tround].
      destruct (Hr (y2 + P')) as [a4 b4]; [lra | lra |].
      set (z2 := rnd (y2 + P')) in *.
      split.
      * exists 2%Z. split; [lia|]. unfold near.
        change (inject_Z 2) with 2. split; lra.
      * intros q' Eq. injection Eq as <-. exists z2.
        split; [reflexivity|]. unfold near. split; intros; split; lra.
    + split.
      * exists 1%Z. split; [lia|]. unfold near.
        change (inject_Z 1) with 1. split; lra.
      * intros q' Eq. injection Eq as <-. exists y2.
        split; [reflexivity|]. unfold near. split; intros; split; lra.
  - cbn [tsubq tround].
    destruct (Hr (y1 - d)) as [a3 b3]; [lra | lra |].
    set (y2 := rnd (y1 - d)) in *.
    cbn [tltb]. destruct (Qltb y2 T1) eqn:E2;
      [apply Qltb_lt in E2 | apply Qltb_ge in E2].
    + cbn [tadd tround].
      destruct (Hr (y2 + P')) as [a4 b4]; [lra | lra |].
      set (z2 := rnd (y2 + P')) in *.
      split.
      * exists 1%Z. split; [lia|]. unfold near.
        change (inject_Z 1) with 1. split; lra.
      * intros q' Eq. injection Eq as <-. exists z2.
        split; [reflexivity|]. unfold near. split; intros; split; lra.
    + split.
      * exists 0%Z. split; [lia|]. unfold near.
        change (inject_Z 0) with 0. split; lra.
      * intros q' Eq. injection Eq as <-. exists y2.
        split; [reflexivity|]. unfold near. split; intros; split; lra.
Qed.

End TranslateFacts.

(** C7 (as stated) fails, in two ways.  With [T1 = 0], [T2 = 100] and
    [d = -20], whose magnitude is below the period, the entry [10] lies
    inside the window and comes back as [110].  And with a forward
    translation the entry comes back rounded: for [x] and [d] the binary64
    numbers nearest to [0.1] and [0.2], the entry [x] comes back as
    [x + 2 ^ -55], the double [0.10000000000000003]. *)
Lemma translate_round_trip_not_exact :
  (- (100 - 0) < - (20) /\ - (20) < 100 - 0 /\
   0 <= 10 /\ 10 < 100 /\
   translate (H := Binary64.rounding)
     (translate (H := Binary64.rounding) [[Fin 10]] (- - (20)) 0 100)
     (- (20)) 0 100
   = [[Fin 110]] /\
   ~ ensemble_eq
       (translate (H := Binary64.rounding)
          (translate (H := Binary64.rounding) [[Fin 10]] (- - (20)) 0 100)
          (- (20)) 0 100)
       [[Fin 10]]) /\
  (let x := 3602879701896397 # 36028797018963968 in
   let d := 3602879701896397 # 18014398509481984 in
   Binary64.round (1 # 10) = x /\ Binary64.round (1 # 5) = d /\
   0 <= x /\ x < 100 /\ 0 <= d /\ d < 100 - 0 /\
   translate (H := Binary64.rounding)
     (translate (H := Binary64.rounding) [[Fin x]] (- d) 0 100) d 0 100
   = [[Fin (1801439850948199 # 18014398509481984)]] /\
   ~ ensemble_eq
       (translate (H := Binary64.rounding)
          (translate (H := Binary64.rounding) [[Fin x]] (- d) 0 100) d 0 100)
       [[Fin x]]).
Proof.
  assert (Hne : forall a b : Q, ~ a == b -> ~ ensemble_eq [[Fin a]] [[Fin b]]).
  { intros a b Hab E. inversion E as [|? ? ? ? Hrow _]; subst.
    inversion Hrow as [|? ? ? ? Hq _]; subst. exact (Hab Hq). }
  split.
  - assert (E1 : translate (H := Binary64.rounding)
                   (translate (H := Binary64.rounding)
                      [[Fin 10]] (- - (20)) 0 100)
                   (- (20)) 0 100
                 = [[Fin 110]]) by (vm_compute; reflexivity).
    rewrite E1.
    split; [reflexivity|]. split; [reflexivity|].
    split; [discriminate|]. split; [reflexivity|].
    split; [reflexivity|]. apply Hne. discriminate.
  - cbv zeta.
    assert (E2 : translate (H := Binary64.rounding)
                   (translate (H := Binary64.rounding)
                      [[Fin (3602879701896397 # 36028797018963968)]]
                      (- (3602879701896397 # 18014398509481984)) 0 100)
                   (3602879701896397 # 18014398509481984) 0 100
                 = [[Fin (1801439850948199 # 18014398509481984)]])
      by (vm_compute; reflexivity).
    rewrite E2.
    split; [vm_compute; reflexivity|].
    split; [vm_compute; reflexivity|].
    split; [discriminate|]. split; [reflexivity|].
    split; [discriminate|]. split; [reflexivity|].
    split; [reflexivity|]. apply Hne. discriminate.
Qed.

(** C7 (amended): after [translate(translate(S, -d, T1, T2), d, T1, T2)]
    every entry agrees with the entry of [S] modulo the period [T2 - T1] up
    to rounding: it is within six rounding errors of the entry moved 0, 1
    or 2 periods later, and a sentinel stays a sentinel.  An entry [q] is
    restored up to two rounding errors when [q] and [q + d] are not below
    [T1] (by a margin of two, resp. one rounding error), and comes back one
    period later, up to four rounding errors, when [q + d] is below [T1].
    The rounding error [eps] is that of the arithmetic on the range
    [[-B, B]] that holds the times, [d] and the period. *)
Theorem translate_round_trip `{Rounding} (B eps M : Q)
        (S : list (list time)) (d T1 T2 : Q) :
  rounds_within B eps -> 0 <= eps -> 5 * (M + eps) <= B ->
  - M <= d /\ d <= M ->
  - M <= T2 - T1 /\ T2 - T1 <= M ->
  Forall (Forall (bounded M)) S ->
  Forall2 (Forall2 (round_trip_entry eps d T1 T2))
          (translate (translate S (- d) T1 T2) d T1 T2) S.
Proof.
  intros Hr He HB [Hd1 Hd2] [HP1 HP2] HS. unfold translate.
  induction HS as [|row S Hrow HS IH]; simpl; constructor; [|exact IH].
  clear IH HS. induction Hrow as [|x row Hx Hrow IHrow]; simpl;
    constructor; [|exact IHrow].
  destruct x as [q|].
  - destruct Hx as [Hq1 Hq2].
    eapply translate_entry_twice; eassumption.
  - split; [exact I | intros q E; discriminate].
Qed.

Lemma translate_round_trip_witness :
  Forall2 (Forall2 (round_trip_entry
                      (1024 * (1 # 9007199254740992))
                      (3602879701896397 # 18014398509481984) 0 100))
          (translate (H := Binary64.rounding)
             (translate (H := Binary64.rounding)
                [[Fin (3602879701896397 # 36028797018963968); Inf]]
                (- (3602879701896397 # 18014398509481984)) 0 100)
             (3602879701896397 # 18014398509481984) 0 100)
          [[Fin (3602879701896397 # 36028797018963968); Inf]].
Proof.
  apply (translate_round_trip (H := Binary64.rounding)
           1024 (1024 * (1 # 9007199254740992)) 200).
  - apply Binary64Facts.rounds_within_binary64.
  - discriminate.
  - vm_compute. discriminate.
  - split; discriminate.
  - split; discriminate.
  - repeat constructor; discriminate.
Defined.

(** C8: for ensembles with the same number of rows, [superimpose(A, B)] and
    [superimpose(B, A)] both succeed and agree entry by entry; and
    [superimpose([[1,2,inf]], [[0.5,inf,inf]])] is
    [[[0.5,1,2,inf,inf,inf]]]. *)
Theorem superimpose_commutative :
  (forall A B : list (list time),
      length A = length B ->
      exists SAB SBA,
        superimpose A B = Ok SAB /\ superimpose B A = Ok SBA /\
        ensemble_eq SAB SBA) /\
  superimpose [[Fin 1; Fin 2; Inf]] [[Fin (1 # 2); Inf; Inf]]
  = Ok [[Fin (1 # 2); Fin 1; Fin 2; Inf; Inf; Inf]].
Proof.
  split; [|reflexivity].
  intros A B E. do 2 eexists.
  split; [apply superimpose_same_rows, E|].
  split; [apply superimpose_same_rows; symmetry; exact E|].
  apply superimposed_rows_comm, E.
Qed.

Lemma superimpose_commutative_witness :
  exists SAB SBA,
    superimpose [[Fin 3; Inf]; [Fin 1; Fin 4]] [[Fin 2]; [Inf]] = Ok SAB /\
    superimpose [[Fin 2]; [Inf]] [[Fin 3; Inf]; [Fin 1; Fin 4]] = Ok SBA /\
    ensemble_eq SAB SBA.
Proof.
  apply (proj1 superimpose_commutative
               [[Fin 3; Inf]; [Fin 1; Fin 4]] [[Fin 2]; [Inf]]).
  reflexivity.
Defined.

(* ================================================================== *)
(** * Runs of the generator monad *)

Section MonadFacts.
Context {G : Type}.

Lemma bind_Ok {A B} (c : M G A) (f : A -> M G B) (g : G) (r : B * G) :
  bind c f g = Ok r -> exists a g1, c g = Ok (a, g1) /\ f a g1 = Ok r.
Proof.
  unfold bind. destruct (c g) as [[a g1]| |]; try discriminate.
  simpl. intro E. exists a, g1. split; [reflexivity | exact E].
Qed.

Lemma bind_Ok_run {A B} (c : M G A) (f : A -> M G B) (g g1 : G) (a : A) :
  c g = Ok (a, g1) -> bind c f g = f a g1.
Proof. unfold bind. intros ->. reflexivity. Qed.

Lemma bind_Raise {A B} (c : M G A) (f : A -> M G B) (g : G) (e : exn) :
  c g = Raise e -> bind c f g = Raise e.
Proof. unfold bind. intros ->. reflexivity. Qed.

Context `{RandomState G}.

Lemma mapM_Ok {A B} (f : A -> M G B) (P : A -> B -> Prop) :
  (forall x g b g', f x g = Ok (b, g') -> P x b) ->
  forall xs g l g', mapM f xs g = Ok (l, g') -> Forall2 P xs l.
Proof.
  intros Hf. induction xs as [|x xs IH]; simpl; intros g l g' E.
  - injection E as <- _. constructor.
  - apply bind_Ok in E. destruct E as (b & g1 & Eb & E).
    apply bind_Ok in E. destruct E as (l' & g2 & El & E).
    injection E as <- _. constructor; eauto.
Qed.

Lemma repeatM_Ok {A} (c : M G A) (P : A -> Prop) :
  (forall g a g', c g = Ok (a, g') -> P a) ->
  forall n g l g', repeatM n c g = Ok (l, g') -> length l = n /\ Forall P l.
Proof.
  intros Hc. induction n as [|n IH]; simpl; intros g l g' E.
  - injection E as <- _. split; [reflexivity | constructor].
  - apply bind_Ok in E. destruct E as (a & g1 & Ea & E).
    apply bind_Ok in E. destruct E as (l' & g2 & El & E).
    injection E as <- _. destruct (IH _ _ _ El) as [Hn Hl].
    split; [simpl; congruence | constructor; eauto].
Qed.

(** A loop whose body always returns, returns. *)
Lemma repeatM_total {A} (c : M G A) :
  (forall g, exists a g', c g = Ok (a, g')) ->
  forall n g, exists l g', repeatM n c g = Ok (l, g').
Proof.
  intros Hc. induction n as [|n IH]; simpl; intro g.
  - do 2 eexists. reflexivity.
  - destruct (Hc g) as (a & g1 & Ea). destruct (IH g1) as (l & g2 & El).
    exists (a :: l), g2.
    rewrite (bind_Ok_run _ _ _ _ _ Ea), (bind_Ok_run _ _ _ _ _ El).
    reflexivity.
Qed.

Lemma pad_Ok (s_k out : list (list time)) (g g' : G) :
  pad s_k g = Ok (out, g') ->
  out = map (fun s => s ++ repeat Inf
                        (list_max (map (@length time) s_k) - length s)) s_k.
Proof.
  destruct s_k as [|s s_k]; [discriminate|].
  unfold pad, ret. intro E. injection E as <- _. reflexivity.
Qed.

Lemma pad_padded (s_k out : list (list time)) (g g' : G) :
  Forall real_sorted s_k -> pad s_k g = Ok (out, g') -> Forall padded_row out.
Proof.
  intros Hs E. apply pad_Ok in E. subst out.
  apply Forall_map. eapply Forall_impl; [|exact Hs].
  intros s (real & -> & Hreal). eexists real, _. split; [reflexivity | exact Hreal].
Qed.

End MonadFacts.

Lemma Forall2_nth_error_left {A B} (P : A -> B -> Prop) xs ys i x :
  Forall2 P xs ys -> nth_error xs i = Some x ->
  exists y, nth_error ys i = Some y /\ P x y.
Proof.
  intro F. revert i. induction F as [|a b xs ys Hab F IH]; intros [|i] E;
    simpl in *; try discriminate.
  - injection E as <-. eauto.
  - eauto.
Qed.

Lemma Forall2_right {A B} (P : B -> Prop) (xs : list A) (ys : list B) :
  Forall2 (fun _ y => P y) xs ys -> Forall P ys.
Proof. induction 1; constructor; assumption. Qed.

(* ================================================================== *)
(** * The stationary generator *)

Lemma map_plus_sorted (c : Q) (l : list Q) :
  StronglySorted Qle l -> StronglySorted Qle (map (Qplus c) l).
Proof.
  induction 1 as [|a l Hs IH Ha]; simpl; constructor; [exact IH|].
  apply Forall_map. eapply Forall_impl; [|exact Ha].
  intros b Hb. simpl. lra.
Qed.

Lemma cumsum_from_fin (qs : list Q) :
  Forall (Qle 0) qs ->
  forall a, exists real,
    cumsum_from (Fin a) (map Fin qs) = map Fin real /\
    StronglySorted Qle real /\ Forall (Qle a) real.
Proof.
  induction 1 as [|q qs Hq Hqs IH]; intro a; simpl.
  - exists []. repeat constructor.
  - destruct (IH (a + q)) as (real & -> & Hs & Hle).
    exists ((a + q) :: real). split; [reflexivity|].
    split.
    + constructor; assumption.
    + constructor; [lra|]. eapply Forall_impl; [|exact Hle].
      intros b Hb. simpl in Hb. lra.
Qed.

Lemma Forall_removelast {A} (P : A -> Prop) (l : list A) :
  Forall P l -> Forall P (removelast l).
Proof.
  induction 1 as [|a l Ha Hl IH]; simpl; [constructor|].
  destruct l; [constructor | constructor; assumption].
Qed.

Lemma removelast_map_Fin (qs : list Q) :
  removelast (map Fin qs) = map Fin (removelast qs).
Proof.
  induction qs as [|q qs IH]; simpl; [reflexivity|].
  destruct qs as [|q' qs]; [reflexivity|].
  simpl in *. rewrite IH. reflexivity.
Qed.

Lemma steps_cumsum (T0 : Q) (l : list time) :
  steps l -> real_sorted (map (tadd (Fin T0)) (cumsum (removelast l))).
Proof.
  intros (q & qs & -> & Hqs).
  change (Fin q :: map Fin qs) with (map Fin (q :: qs)).
  rewrite removelast_map_Fin.
  assert (Hq : Forall (Qle 0) (tl (removelast (q :: qs)))).
  { simpl. destruct qs as [|q' qs]; [constructor|].
    simpl. apply (Forall_removelast _ (q' :: qs)). exact Hqs. }
  destruct (removelast (q :: qs)) as [|q0 qs0]; simpl.
  - exists []. split; [reflexivity | constructor].
  - simpl in Hq. destruct (cumsum_from_fin qs0 Hq q0) as (real & -> & Hs & Hle).
    exists (map (Qplus T0) (q0 :: real)). split.
    + simpl. rewrite !map_map. reflexivity.
    + apply map_plus_sorted. constructor; assumption.
Qed.

Section StationaryFacts.
Context {G : Type} `{RandomState G}.

Lemma exponential_Ok (scale x : Q) (g g' : G) :
  exponential_nonneg G ->
  exponential scale g = Ok (x, g') -> 0 <= x.
Proof.
  intros Hnn. unfold exponential.
  destruct (Qltb scale 0) eqn:E; [discriminate|].
  apply Qltb_ge in E. intro Ex. injection Ex as Ex.
  specialize (Hnn scale g E). rewrite Ex in Hnn. exact Hnn.
Qed.

Lemma exponential_inv_Ok (rate x : Q) (g g' : G) :
  exponential_nonneg G ->
  exponential_inv rate g = Ok (x, g') -> 0 <= x.
Proof.
  intros Hnn. unfold exponential_inv.
  destruct (Qeq_bool rate 0); [discriminate|].
  apply exponential_Ok. exact Hnn.
Qed.

Lemma while_sum_below_steps (rate span : Q) :
  exponential_nonneg G ->
  forall fuel st g st' g',
    while_sum_below fuel rate span st g = Ok (st', g') ->
    steps st -> steps st'.
Proof.
  intros Hnn. induction fuel as [|fuel IH]; intros st g st' g' E Hst;
    simpl in E; destruct (tltb (tsum st) (Fin span)).
  - discriminate.
  - injection E as <- _. exact Hst.
  - apply bind_Ok in E. destruct E as (x & g1 & Ex & E).
    apply (IH _ _ _ _ E). destruct Hst as (q & qs & -> & Hqs).
    exists q, (qs ++ [x]). split.
    + rewrite map_app. reflexivity.
    + apply Forall_app. split; [exact Hqs|].
      constructor; [|constructor]. eapply exponential_inv_Ok; eassumption.
  - injection E as <- _. exact Hst.
Qed.

Lemma while_sum_below_inf (fuel : nat) (rate span : Q) (g : G) :
  while_sum_below fuel rate span [Inf] g = Ok ([Inf], g).
Proof. destruct fuel; reflexivity. Qed.

(** A rate that is not positive yields the empty train, whatever the
    bound on the loop and the state of the generator. *)
Lemma stationary_train_silent (fuel : nat) (rate rate1 T0 T : Q) (g : G) :
  rate <= 0 -> stationary_train fuel rate rate1 T0 T g = Ok ([], g).
Proof.
  intro Hr. apply Qltb_ge in Hr. unfold stationary_train. rewrite Hr.
  unfold bind at 1. unfold ret at 1. simpl fst. simpl snd.
  unfold bind. rewrite while_sum_below_inf. reflexivity.
Qed.

Lemma stationary_train_sorted (fuel : nat) (rate rate1 T0 T : Q) g s g' :
  exponential_nonneg G ->
  stationary_train fuel rate rate1 T0 T g = Ok (s, g') -> real_sorted s.
Proof.
  intros Hnn E. destruct (Qlt_le_dec 0 rate) as [Hr|Hr].
  - unfold stationary_train in E. apply Qltb_lt in Hr. rewrite Hr in E.
    apply bind_Ok in E. destruct E as (first & g1 & E1 & E).
    apply bind_Ok in E. destruct E as (st & g2 & E2 & E).
    injection E as <- _.
    apply bind_Ok in E1. destruct E1 as (x & g0 & Ex & E1).
    injection E1 as <- <-.
    apply steps_cumsum.
    eapply while_sum_below_steps; [exact Hnn | exact E2 |].
    exists x, []. split; [reflexivity | constructor].
  - rewrite stationary_train_silent in E by exact Hr.
    injection E as <- _. exists []. split; [reflexivity | constructor].
Qed.

Lemma build_rate_seq_rows (fuel : nat) (now : Z) (rates : list Q) (T0 T : Q)
      (g : G) out g' :
  build_rate_seq fuel now rates T0 T g = Ok (out, g') ->
  exists s_k g1 g2,
    mapM (fun rate => stationary_train fuel rate rate T0 T) rates g1
    = Ok (s_k, g2) /\
    pad s_k g2 = Ok (out, g').
Proof.
  unfold build_rate_seq. intro E.
  apply bind_Ok in E. destruct E as (u & g1 & _ & E).
  apply bind_Ok in E. destruct E as (s_k & g2 & Es & E).
  eauto.
Qed.

End StationaryFacts.

(* ================================================================== *)
(** * The rate-modulated generator *)

Lemma Qle_bool_total (a b : Q) : Qle_bool a b = true \/ Qle_bool b a = true.
Proof.
  rewrite !Qle_bool_iff. destruct (Qlt_le_dec a b); [left; lra | right; lra].
Qed.

Lemma Qle_bool_trans (a b c : Q) :
  Qle_bool a b = true -> Qle_bool b c = true -> Qle_bool a c = true.
Proof. rewrite !Qle_bool_iff. intros. lra. Qed.

Lemma sort_Qle_sorted (l : list Q) : StronglySorted Qle (sort Qle_bool l).
Proof.
  pose proof (sort_sorted Qle_bool Qle_bool_total Qle_bool_trans l) as Hs.
  induction Hs as [|a l' Hs IH Ha]; constructor; [exact IH|].
  eapply Forall_impl; [|exact Ha]. intros b Hb. apply Qle_bool_iff. exact Hb.
Qed.

Section ModulatedFacts.
Context {G : Type} `{RandomState G} `{NumPyMath}.

Lemma np_arange_Ok (start stop step : Q) (g g' : G) (t : list Q) :
  np_arange start stop step g = Ok (t, g') ->
  ~ step == 0 /\ t = arange start stop step /\ g' = g.
Proof.
  unfold np_arange. destruct (Qeq_bool step 0) eqn:E; [discriminate|].
  intro E'. injection E' as <- <-. split; [|split; reflexivity].
  intro Hz. apply Qeq_bool_iff in Hz. congruence.
Qed.

Lemma np_arange_run (start stop step : Q) (g : G) :
  ~ step == 0 ->
  np_arange start stop step g = Ok (arange start stop step, g).
Proof.
  intro Hs. unfold np_arange. destruct (Qeq_bool step 0) eqn:E; [|reflexivity].
  apply Qeq_bool_iff in E. contradiction.
Qed.

Lemma arange_zero_step (start stop step : Q) :
  step == 0 -> arange start stop step = [].
Proof.
  intro Hs. unfold arange.
  assert (E : (stop - start) / step == 0)
    by (unfold Qdiv; rewrite Hs; unfold Qinv; simpl; ring).
  rewrite E. reflexivity.
Qed.

Lemma modulated_train_sorted (fuel : nat) (rate rate1 mod_freq : Q)
      (t : list Q) (t_win dt T0 T : Q) (g : G) s g' :
  modulated_train fuel rate rate1 mod_freq t t_win dt T0 T g = Ok (s, g') ->
  real_sorted s.
Proof.
  unfold modulated_train. destruct (Qltb 0 rate); [|discriminate].
  intro E. apply bind_Ok in E. destruct E as (sp & g1 & _ & E).
  injection E as <- _.
  exists (map (Qplus T0)
              (sort Qle_bool (filter (fun x => negb (Qltb x 0)) sp))).
  split; [rewrite map_map; reflexivity|].
  apply map_plus_sorted, sort_Qle_sorted.
Qed.

Lemma build_rate_seq_modulated_rows (fuel : nat) (now : Z) (rates : list Q)
      (T0 T mod_freq : Q) (mod_list : list nat) (t_win dt mod_amp : Q)
      (g : G) out g' :
  exponential_nonneg G ->
  build_rate_seq_modulated fuel now rates T0 T mod_freq mod_list
                           t_win dt mod_amp g = Ok (out, g') ->
  Forall padded_row out.
Proof.
  intros Hnn E. unfold build_rate_seq_modulated in E.
  apply bind_Ok in E. destruct E as (t & ga & _ & E).
  apply bind_Ok in E. destruct E as (u & g1 & _ & E).
  apply bind_Ok in E. destruct E as (s_k & g2 & Es & E).
  eapply pad_padded; [|exact E].
  destruct (Qeq_bool mod_freq 0), (0 <? length mod_list)%nat;
    (eapply Forall2_right, mapM_Ok; [|exact Es]);
    cbv beta; intros x g0 b g0' Eb;
    try destruct (existsb _ mod_list);
    first [ eapply stationary_train_sorted; [exact Hnn | exact Eb]
          | eapply modulated_train_sorted; exact Eb ].
Qed.

End ModulatedFacts.

Lemma toy_exponential_nonneg : @exponential_nonneg Z Toy.rng.
Proof.
  intros scale g Hs. simpl.
  apply Qmult_le_0_compat; [exact Hs|].
  apply Qle_shift_div_l; [reflexivity|].
  assert (0 <= g mod 8 + 1)%Z as Hm
      by (pose proof (Z.mod_pos_bound g 8 eq_refl); lia).
  unfold Qle. simpl. lia.
Qed.

(* ================================================================== *)
(** * Properties of the generators *)

(** C2 (as stated) fails: started from the same externally seeded generator
    state, [build_rate_seq([0.01], 0, 1000)] returns different sequences at
    the clock readings [1] and [2]. *)
Lemma build_rate_seq_depends_on_clock :
  exists out1 out2,
    result (build_rate_seq (H := Toy.rng) 50 1 [1 # 100] 0 1000
                           (@np_random_seed Z Toy.rng 42)) = Ok out1 /\
    result (build_rate_seq (H := Toy.rng) 50 2 [1 # 100] 0 1000
                           (@np_random_seed Z Toy.rng 42)) = Ok out2 /\
    ~ ensemble_eq out1 out2.
Proof.
  do 2 eexists. split; [vm_compute; reflexivity|].
  split; [vm_compute; reflexivity|].
  intro E. inversion E as [|? ? ? ? Hrow _]; subst.
  inversion Hrow as [|? ? ? ? Hq _]; subst.
  vm_compute in Hq. discriminate.
Qed.

(** C2 (amended): [build_rate_seq] reseeds the generator from the clock, so
    its outcome is a function of the clock reading [int(time.time())] and of
    its arguments alone; the generator state at the call, hence any seed set
    before it, has no influence. *)
Theorem build_rate_seq_reseeds {G : Type} `{RandomState G}
        (fuel : nat) (now : Z) (rates : list Q) (T0 T : Q) (g g' : G) :
  build_rate_seq fuel now rates T0 T g = build_rate_seq fuel now rates T0 T g'.
Proof. reflexivity. Qed.

(** C3 (the code departs from it): with fewer rates than windows,
    [gen_poisson_spikes] reaches [warnings.warn] without [warnings] being
    imported, and the call raises [NameError] instead of returning. *)
Theorem gen_poisson_spikes_short_FR {G : Type} `{RandomState G}
        (fuel : nat) (FR : list Q) (t_win dt tstop : Q) (g : G) :
  (Z.of_nat (length FR)
   < Z.of_nat (length (arange 0 (tstop + t_win) t_win)) - 1)%Z ->
  gen_poisson_spikes fuel FR t_win dt tstop g = Raise NameError.
Proof.
  intro Hlt. unfold gen_poisson_spikes.
  destruct (Qeq_dec t_win 0) as [Hz|Hz].
  - rewrite (arange_zero_step _ _ _ Hz) in Hlt. simpl in Hlt. lia.
  - rewrite (bind_Ok_run _ _ _ _ _ (np_arange_run _ _ _ g Hz)).
    apply Z.ltb_lt in Hlt. rewrite Hlt. reflexivity.
Qed.

Lemma gen_poisson_spikes_short_FR_witness :
  gen_poisson_spikes (H := Toy.rng) 50 [5] 10 (25 # 1000) 250 0%Z
  = Raise NameError.
Proof.
  apply (gen_poisson_spikes_short_FR (H := Toy.rng)). vm_compute. reflexivity.
Defined.

(** C6: for a rate equal to [0] the loop body of [build_rate_seq] returns the
    empty train, whatever the loop bound and the generator state, and in the
    table returned by [build_rate_seq] the row of that rate holds sentinels
    only. *)
Theorem build_rate_seq_zero_rate {G : Type} `{RandomState G}
        (fuel : nat) (now : Z) (rates : list Q) (T0 T : Q)
        (i : nat) (rate : Q) :
  nth_error rates i = Some rate ->
  rate == 0 ->
  (forall g0 : G, stationary_train fuel rate rate T0 T g0 = Ok ([], g0)) /\
  (forall (g g' : G) (out : list (list time)),
      build_rate_seq fuel now rates T0 T g = Ok (out, g') ->
      exists row, nth_error out i = Some row /\ Forall (fun x => x = Inf) row).
Proof.
  intros Hi Hr. split.
  - intro g0. apply stationary_train_silent. lra.
  - intros g g' out E.
    apply build_rate_seq_rows in E. destruct E as (s_k & g1 & g2 & Es & E).
    apply pad_Ok in E. subst out.
    apply (mapM_Ok _ (fun rate s => rate <= 0 -> s = [])) in Es.
    + destruct (Forall2_nth_error_left _ _ _ _ _ Es Hi) as (s & Hs & Hnil).
      rewrite Hnil in Hs by lra.
      eexists. split.
      * rewrite nth_error_map, Hs. reflexivity.
      * simpl. apply Forall_forall. intros x Hx.
        apply repeat_spec in Hx. exact Hx.
    + intros x g0 b g0' Eb Hx.
      rewrite stationary_train_silent in Eb by exact Hx.
      injection Eb as <- _. reflexivity.
Qed.

Lemma build_rate_seq_zero_rate_witness :
  exists out g',
    build_rate_seq (H := Toy.rng) 50 2 [1 # 100; 0] 0 200 0%Z = Ok (out, g') /\
    exists row, nth_error out 1 = Some row /\ Forall (fun x => x = Inf) row.
Proof.
  do 2 eexists. split; [vm_compute; reflexivity|].
  eapply (proj2 (build_rate_seq_zero_rate (H := Toy.rng) 50 2 [1 # 100; 0]
                                          0 200 1%nat 0 eq_refl eq_refl)
                0%Z).
  vm_compute. reflexivity.
Defined.

(** C9: every row of a table returned by [build_rate_seq], by
    [build_rate_seq_modulated] or by [superimpose] has its real entries
    first, in ascending order, followed by sentinels only. *)
Theorem padded_rows_sorted {G : Type} `{RandomState G} `{NumPyMath} :
  exponential_nonneg G ->
  (forall fuel now rates T0 T (g g' : G) out,
      build_rate_seq fuel now rates T0 T g = Ok (out, g') ->
      Forall padded_row out) /\
  (forall fuel now rates T0 T mod_freq mod_list t_win dt mod_amp
          (g g' : G) out,
      build_rate_seq_modulated fuel now rates T0 T mod_freq mod_list
                               t_win dt mod_amp g = Ok (out, g') ->
      Forall padded_row out) /\
  (forall A B S, superimpose A B = Ok S -> Forall padded_row S).
Proof.
  intro Hnn. split; [|split].
  - intros fuel now rates T0 T g g' out E.
    apply build_rate_seq_rows in E. destruct E as (s_k & g1 & g2 & Es & E).
    eapply pad_padded; [|exact E].
    eapply Forall2_right, mapM_Ok; [|exact Es].
    cbv beta. intros x g0 b g0' Eb.
    eapply stationary_train_sorted; [exact Hnn | exact Eb].
  - intros. eapply build_rate_seq_modulated_rows; eassumption.
  - intros A B S E. apply superimpose_rows in E.
    eapply Forall_impl; [|exact E].
    intros row (l & ->). apply sort_padded_row.
Qed.

Lemma padded_rows_sorted_witness :
  exists out g',
    build_rate_seq (H := Toy.rng) 50 2 [1 # 100; 0] 0 200 0%Z = Ok (out, g') /\
    Forall padded_row out.
Proof.
  do 2 eexists. split; [vm_compute; reflexivity|].
  eapply (proj1 (padded_rows_sorted (H := Toy.rng) (H0 := Toy.math)
                                    toy_exponential_nonneg)
                50%nat 2%Z [1 # 100; 0] 0 200 0%Z _ _).
  vm_compute. reflexivity.
Defined.

(* ================================================================== *)
(** * Shapes of the arrays the builders handle *)

Lemma length_flat_map_const {A B} (f : A -> list B) (m : nat) (l : list A) :
  (forall x, In x l -> length (f x) = m) ->
  length (flat_map f l) = (length l * m)%nat.
Proof.
  induction l as [|x l IH]; simpl; intro Hf; [reflexivity|].
  rewrite length_app, Hf, IH by auto. reflexivity.
Qed.

Lemma selections_spec {A} (l : list A) :
  length (selections l) = length l /\
  forall xr, In xr (selections l) -> S (length (snd xr)) = length l.
Proof.
  induction l as [|x l [IHn IHr]]; simpl; [split; [reflexivity | tauto]|].
  split.
  - rewrite length_map, IHn. reflexivity.
  - intros xr [<- | Hin]; [reflexivity|].
    apply in_map_iff in Hin. destruct Hin as (yr & <- & Hyr).
    simpl. rewrite (IHr _ Hyr). reflexivity.
Qed.

Lemma length_perms {A} (n : nat) :
  forall l : list A, length l = n -> length (perms n l) = fact n.
Proof.
  induction n as [|n IH]; intros l Hl; [reflexivity|].
  simpl perms. destruct (selections_spec l) as [Hn Hr].
  rewrite (length_flat_map_const _ (fact n)).
  - rewrite Hn, Hl. reflexivity.
  - intros xr Hin. rewrite length_map. apply IH.
    specialize (Hr _ Hin). lia.
Qed.

Lemma length_permutations {A} (l : list A) :
  length (permutations l) = fact (length l).
Proof. apply length_perms. reflexivity. Qed.

Lemma nth_error_grid {A} (f : nat -> nat -> A) (q : nat) :
  forall p s j k,
    (j < p)%nat -> (k < q)%nat ->
    nth_error (flat_map (fun j => map (f j) (seq 0 q)) (seq s p))
              (j * q + k)
    = Some (f (s + j)%nat k).
Proof.
  induction p as [|p IH]; intros s j k Hj Hk; [lia|].
  simpl flat_map. destruct j as [|j].
  - rewrite nth_error_app1 by (rewrite length_map, length_seq; lia).
    simpl. rewrite nth_error_map, nth_error_seq.
    destruct (Nat.ltb_spec k q); [|lia].
    rewrite Nat.add_0_r. reflexivity.
  - rewrite nth_error_app2 by (rewrite length_map, length_seq; simpl; lia).
    rewrite length_map, length_seq.
    replace (S j * q + k - q)%nat with (j * q + k)%nat by (simpl; lia).
    rewrite IH by lia. f_equal. f_equal. lia.
Qed.

Lemma length_concat_first {A} (blocks : list (list (list A))) (p n : nat) :
  (1 <= p)%nat ->
  Forall (fun b => length b = p /\ Forall (fun v => length v = n) b) blocks ->
  length (concat (map (fun b => nth 0 b []) blocks)) = (length blocks * n)%nat.
Proof.
  intros Hp. induction 1 as [|b bs [Hbl Hbv] _ IH]; [reflexivity|].
  simpl. rewrite length_app, IH. f_equal.
  destruct b as [|v b]; [simpl in Hbl; lia|]. inversion Hbv. assumption.
Qed.

Lemma hstack_first {A} (blocks : list (list (list A))) (p n : nat) :
  (1 <= p)%nat -> blocks <> [] ->
  Forall (fun b => length b = p /\ Forall (fun v => length v = n) b) blocks ->
  nth 0 (hstack blocks) [] = concat (map (fun b => nth 0 b []) blocks) /\
  length (nth 0 (hstack blocks) []) = (length blocks * n)%nat.
Proof.
  intros Hp Hne Hb.
  assert (E : nth 0 (hstack blocks) []
              = concat (map (fun b => nth 0 b []) blocks)).
  { unfold hstack. destruct blocks as [|b0 blocks]; [congruence|].
    assert (Hl : length b0 = p) by (inversion Hb as [|? ? [? _] _]; assumption).
    simpl hd. rewrite Hl. destruct p as [|p]; [lia|]. reflexivity. }
  split; [exact E|]. rewrite E. eapply length_concat_first; eassumption.
Qed.

Section BuilderFacts.
Context {G : Type} `{RandomState G}.

Lemma repeatM_spec {A} (c : M G A) (P : A -> Prop) :
  (forall g, exists a g', c g = Ok (a, g') /\ P a) ->
  forall n g, exists l g',
    repeatM n c g = Ok (l, g') /\ length l = n /\ Forall P l.
Proof.
  intros Hc n g.
  destruct (repeatM_total c (fun g0 =>
              match Hc g0 with
              | ex_intro _ a (ex_intro _ g' (conj E _)) =>
                  ex_intro _ a (ex_intro _ g' E)
              end) n g) as (l & g' & E).
  exists l, g'. split; [exact E|].
  eapply repeatM_Ok; [|exact E].
  intros g0 a g0' Ea. destruct (Hc g0) as (a' & g1 & Ea' & Pa).
  congruence.
Qed.

Lemma mapM_spec {A B} (f : A -> M G B) (P : B -> Prop) (xs : list A) :
  (forall x g, exists b g', f x g = Ok (b, g') /\ P b) ->
  forall g, exists l g',
    mapM f xs g = Ok (l, g') /\ length l = length xs /\ Forall P l.
Proof.
  intros Hf. induction xs as [|x xs IH]; simpl; intro g.
  - exists [], g. repeat split. constructor.
  - destruct (Hf x g) as (b & g1 & Eb & Pb).
    destruct (IH g1) as (l & g2 & El & Hn & Hl).
    exists (b :: l), g2.
    rewrite (bind_Ok_run _ _ _ _ _ Eb), (bind_Ok_run _ _ _ _ _ El).
    repeat split; [simpl; congruence | constructor; assumption].
Qed.

Lemma rand_vec_run (n : nat) (g : G) :
  exists v g', rand_vec n g = Ok (v, g') /\ length v = n.
Proof.
  assert (Hc : forall g0 : G,
             exists a g', rand1 g0 = Ok (a, g') /\ True).
  { intro g0. unfold rand1. destruct (np_random_rand g0) as [a g1]. eauto. }
  destruct (repeatM_spec rand1 (fun _ => True) Hc n g)
    as (v & g' & E & Hn & _).
  eauto.
Qed.

Lemma rand_mat_run (rows n : nat) (g : G) :
  exists m g', rand_mat rows n g = Ok (m, g') /\ length m = rows.
Proof.
  unfold rand_mat.
  destruct (repeatM_spec (rand_vec n) (fun v => length v = n)
                         (rand_vec_run n) rows g)
    as (m & g' & E & Hn & _).
  eauto.
Qed.

Lemma sparse_rates_run (p N_e N_i : nat) (mu r_max : Q) (g : G) :
  ~ r_max == 0 ->
  exists re ri g',
    sparse_rates p N_e N_i mu r_max g = Ok ((re, ri), g') /\
    (length re = p /\ Forall (fun v => length v = N_e) re) /\
    (length ri = p /\ Forall (fun v => length v = N_i) ri).
Proof.
  intro Hr. unfold sparse_rates.
  destruct (Qeq_bool r_max 0) eqn:E0; [apply Qeq_bool_eq in E0; tauto|].
  match goal with
  | |- context [repeatM p ?c] =>
      destruct (repeatM_spec c
                  (fun r => length (fst r) = N_e /\ length (snd r) = N_i))
        with (n := p) (g := g) as (rs & g' & E & Hn & Hrs)
  end.
  - intro g0. destruct (rand_vec_run (N_e + N_i) g0) as (u & g1 & Eu & Hu).
    do 2 eexists. split.
    + rewrite (bind_Ok_run _ _ _ _ _ Eu). reflexivity.
    + simpl. rewrite length_firstn, length_skipn, !length_map, Hu. lia.
  - exists (map fst rs), (map snd rs), g'.
    rewrite (bind_Ok_run _ _ _ _ _ E). split; [reflexivity|].
    rewrite !length_map, !Forall_map. repeat split; try assumption.
    + eapply Forall_impl; [|exact Hrs]. intros r [Hr1 _]. exact Hr1.
    + eapply Forall_impl; [|exact Hrs]. intros r [_ Hr2]. exact Hr2.
Qed.

Lemma build_seqs_run (p N_e N_i : nat) (T0 T : Q) (n : nat) (g : G) :
  exists Se Si g',
    build_seqs p N_e N_i T0 T n g = Ok ((Se, Si), g') /\
    (length Se = p /\ Forall (fun m => length m = N_e) Se) /\
    (length Si = p /\ Forall (fun m => length m = N_i) Si).
Proof.
  unfold build_seqs.
  match goal with
  | |- context [repeatM p ?c] =>
      destruct (repeatM_spec c
                  (fun r => length (fst r) = N_e /\ length (snd r) = N_i))
        with (n := p) (g := g) as (rs & g' & E & Hn & Hrs)
  end.
  - intro g0. destruct (rand_mat_run N_e n g0) as (e & g1 & Ee & He).
    destruct (rand_mat_run N_i n g1) as (i & g2 & Ei & Hi).
    do 2 eexists. split.
    + rewrite (bind_Ok_run _ _ _ _ _ Ee), (bind_Ok_run _ _ _ _ _ Ei).
      reflexivity.
    + simpl. rewrite !length_map. split; assumption.
  - exists (map fst rs), (map snd rs), g'.
    rewrite (bind_Ok_run _ _ _ _ _ E). split; [reflexivity|].
    rewrite !length_map, !Forall_map. repeat split; try assumption.
    + eapply Forall_impl; [|exact Hrs]. intros r [Hr1 _]. exact Hr1.
    + eapply Forall_impl; [|exact Hrs]. intros r [_ Hr2]. exact Hr2.
Qed.

(** With [p] groups of [N / p] synapses stacked, the number of missing
    synapses is [N mod p], which is below [p]: the [ValueError] branch is
    never taken, and the padding branch is taken exactly when [p] does
    not divide [N]. *)
Lemma check_groups_run {A} (N p : nat) (x0 : list A) (on_pad : M G unit) :
  (1 <= p)%nat -> length x0 = (p * (N / p))%nat ->
  check_groups N x0 p on_pad = if (N mod p =? 0)%nat then ret tt else on_pad.
Proof.
  intros Hp Hx. unfold check_groups. rewrite Hx.
  pose proof (Nat.div_mod_eq N p) as Hdm.
  pose proof (Nat.mod_upper_bound N p ltac:(lia)) as Hub.
  destruct (Nat.eqb_spec (N mod p) 0) as [E0|E0].
  - replace (_ <=? _)%Z with true by (symmetry; apply Z.leb_le; lia).
    replace (0 <? _)%Z with false by (symmetry; apply Z.ltb_ge; lia).
    replace (Z.of_nat p <? _)%Z with false by (symmetry; apply Z.ltb_ge; lia).
    reflexivity.
  - replace (_ <=? _)%Z with true by (symmetry; apply Z.leb_le; lia).
    replace (0 <? _)%Z with true by (symmetry; apply Z.ltb_lt; lia).
    reflexivity.
Qed.

End BuilderFacts.

(* ================================================================== *)
(** * The associative and time-sequence builders *)

Section TimeSequenceFacts.
Context {G : Type} `{RandomState G}.

Lemma assoc_rates_time_squence_run (p N_e N_i : nat) (r_mean r_max : Q) (g : G) :
  (1 <= p)%nat -> ~ r_max == 0 ->
  exists fs g',
    repeatM p (sparse_rates p (N_e / p) (N_i / p) r_mean r_max) g
    = Ok (fs, g') /\
    assoc_rates_time_squence p N_e N_i r_mean r_max g
    = Ok ((repeat (nth 0 (hstack (map fst fs)) []) (fact p),
           repeat (nth 0 (hstack (map snd fs)) []) (fact p)), g') /\
    length (nth 0 (hstack (map fst fs)) []) = (p * (N_e / p))%nat /\
    length (nth 0 (hstack (map snd fs)) []) = (p * (N_i / p))%nat.
Proof.
  intros Hp Hr.
  destruct (repeatM_spec
              (sparse_rates p (N_e / p) (N_i / p) r_mean r_max)
              (fun r =>
                 (length (fst r) = p
                  /\ Forall (fun v => length v = (N_e / p)%nat) (fst r)) /\
                 (length (snd r) = p
                  /\ Forall (fun v => length v = (N_i / p)%nat) (snd r))))
    with (n := p) (g := g) as (fs & g' & E & Hn & Hfs).
  { intro g0.
    destruct (sparse_rates_run p (N_e / p) (N_i / p) r_mean r_max g0 Hr)
      as (re & ri & g1 & E1 & He & Hi).
    exists (re, ri), g1. split; [exact E1 | split; assumption]. }
  assert (Hne : forall f : list (list Q) * list (list Q) -> list (list Q),
             map f fs <> []).
  { intros f E0. apply (f_equal (@length _)) in E0.
    rewrite length_map in E0. simpl in E0. lia. }
  destruct (hstack_first (map fst fs) p (N_e / p) Hp (Hne _)) as [_ Le].
  { apply Forall_map. eapply Forall_impl; [|exact Hfs]. intros r [Hr1 _].
    exact Hr1. }
  destruct (hstack_first (map snd fs) p (N_i / p) Hp (Hne _)) as [_ Li].
  { apply Forall_map. eapply Forall_impl; [|exact Hfs]. intros r [_ Hr2].
    exact Hr2. }
  rewrite length_map, Hn in Le, Li.
  exists fs, g'. split; [exact E|]. split; [|split; assumption].
  unfold assoc_rates_time_squence.
  destruct (Nat.eqb_spec p 0) as [E0|_]; [lia|].
  rewrite (bind_Ok_run _ _ _ _ _ E).
  rewrite !check_groups_run by assumption.
  rewrite length_permutations, length_seq.
  destruct (N_e mod p =? 0)%nat, (N_i mod p =? 0)%nat; reflexivity.
Qed.

Lemma time_sequence_pattern_raises (p N_e N_i : nat) (T0 T : Q) (n : nat)
      (deltaT : Q) (order : list nat) (g : G) :
  (1 <= p)%nat -> (N_e mod p <> 0 \/ N_i mod p <> 0)%nat ->
  time_sequence_pattern p N_e N_i T0 T n deltaT order g
  = Raise AttributeError.
Proof.
  intros Hp Hrem. unfold time_sequence_pattern.
  match goal with
  | |- context [mapM ?f (seq 0 p)] =>
      destruct (mapM_spec f
                  (fun r =>
                     (length (fst r) = p
                      /\ Forall (fun v => length v = (N_e / p)%nat) (fst r)) /\
                     (length (snd r) = p
                      /\ Forall (fun v => length v = (N_i / p)%nat) (snd r)))
                  (seq 0 p))
        with (g := g) as (bs & g' & E & Hn & Hbs)
  end.
  { intros i g0. cbv beta zeta.
    match goal with
    | |- context [build_seqs p ?a ?b ?c ?d n g0] =>
        destruct (build_seqs_run p a b c d n g0)
          as (Se & Si & g1 & E1 & He & Hi)
    end.
    exists (Se, Si), g1. split; [exact E1 | split; assumption]. }
  rewrite length_seq in Hn.
  assert (Hne : forall f : list (list (list Q)) * list (list (list Q))
                           -> list (list (list Q)),
             map f bs <> []).
  { intros f E0. apply (f_equal (@length _)) in E0.
    rewrite length_map in E0. simpl in E0. lia. }
  destruct (hstack_first (map fst bs) p (N_e / p) Hp (Hne _)) as [_ Le].
  { apply Forall_map. eapply Forall_impl; [|exact Hbs]. intros r [Hr1 _].
    exact Hr1. }
  destruct (hstack_first (map snd bs) p (N_i / p) Hp (Hne _)) as [_ Li].
  { apply Forall_map. eapply Forall_impl; [|exact Hbs]. intros r [_ Hr2].
    exact Hr2. }
  rewrite length_map, Hn in Le, Li.
  rewrite (bind_Ok_run _ _ _ _ _ E).
  rewrite !check_groups_run by assumption.
  destruct (Nat.eqb_spec (N_e mod p) 0) as [Ee|Ee];
    destruct (Nat.eqb_spec (N_i mod p) 0) as [Ei|Ei];
    try reflexivity.
  lia.
Qed.

Lemma assoc_seqs_time_sequence_raises (p N_e N_i : nat) (T0 T : Q) (n : nat)
      (deltaT : Q) (g : G) :
  (1 <= p)%nat -> (N_e mod p <> 0 \/ N_i mod p <> 0)%nat ->
  assoc_seqs_time_sequence p N_e N_i T0 T n deltaT g = Raise AttributeError.
Proof.
  intros Hp Hrem. unfold assoc_seqs_time_sequence.
  destruct (Nat.eqb_spec p 0) as [E0|_]; [lia|].
  pose proof (length_permutations (seq 0 p)) as Hlen.
  pose proof (lt_O_fact (length (seq 0 p))) as Hpos.
  destruct (permutations (seq 0 p)) as [|order rest]; [simpl in Hlen; lia|].
  apply bind_Raise. simpl mapM. apply bind_Raise.
  apply time_sequence_pattern_raises; assumption.
Qed.

Lemma assoc_rates_run (p N_e N_i : nat) (r_mean r_max : Q) (g : G) :
  ~ r_max == 0 ->
  exists re1 ri1 g1 re2 ri2 g2,
    sparse_rates p (N_e / 2) (N_i / 2) r_mean r_max g
    = Ok ((re1, ri1), g1) /\
    sparse_rates p (N_e - N_e / 2) (N_i - N_i / 2) r_mean r_max g1
    = Ok ((re2, ri2), g2) /\
    assoc_rates (p * p) N_e N_i r_mean r_max g
    = Ok ((flat_map (fun j => map (fun k => nth j re1 [] ++ nth k re2 [])
                                  (seq 0 p)) (seq 0 p),
           flat_map (fun j => map (fun k => nth j ri1 [] ++ nth k ri2 [])
                                  (seq 0 p)) (seq 0 p)), g2) /\
    (length re1 = p /\ Forall (fun v => length v = (N_e / 2)%nat) re1) /\
    (length ri1 = p /\ Forall (fun v => length v = (N_i / 2)%nat) ri1) /\
    (length re2 = p /\ Forall (fun v => length v = (N_e - N_e / 2)%nat) re2) /\
    (length ri2 = p /\ Forall (fun v => length v = (N_i - N_i / 2)%nat) ri2).
Proof.
  intro Hr.
  destruct (sparse_rates_run p (N_e / 2) (N_i / 2) r_mean r_max g Hr)
    as (re1 & ri1 & g1 & E1 & He1 & Hi1).
  destruct (sparse_rates_run p (N_e - N_e / 2) (N_i - N_i / 2)
                             r_mean r_max g1 Hr)
    as (re2 & ri2 & g2 & E2 & He2 & Hi2).
  exists re1, ri1, g1, re2, ri2, g2.
  repeat (split; [assumption|]). split; [|tauto].
  unfold assoc_rates. rewrite Nat.sqrt_square.
  rewrite (bind_Ok_run _ _ _ _ _ E1), (bind_Ok_run _ _ _ _ _ E2).
  reflexivity.
Qed.

End TimeSequenceFacts.

Lemma length_grid {A} (f : nat -> nat -> A) (p : nat) :
  length (flat_map (fun j => map (f j) (seq 0 p)) (seq 0 p)) = (p * p)%nat.
Proof.
  rewrite (length_flat_map_const _ p).
  - rewrite length_seq. reflexivity.
  - intros j _. rewrite length_map, length_seq. reflexivity.
Qed.

Lemma Forall_nth_length {A} (l : list (list A)) (n i : nat) :
  Forall (fun v => length v = n) l -> (i < length l)%nat ->
  length (nth i l []) = n.
Proof.
  intros Hl Hi. rewrite Forall_forall in Hl. apply Hl, nth_In, Hi.
Qed.

(** C4 (the code departs from it): when [p] does not divide [N_e] the
    remainder is positive and below [p], so padding is due.
    [assoc_seqs_time_sequence] then raises [AttributeError] (it calls
    [append] on an [ndarray]), and [assoc_rates_time_squence] returns rate
    vectors of [p * (N_e // p)] entries, short of [N_e] (it drops the result
    of [np.append]). *)
Theorem time_sequence_builders_remainder {G : Type} `{RandomState G}
        (p N_e N_i : nat) (T0 T : Q) (n : nat) (deltaT r_mean r_max : Q) (g : G) :
  (1 <= p)%nat -> (N_e mod p <> 0)%nat -> ~ r_max == 0 ->
  assoc_seqs_time_sequence p N_e N_i T0 T n deltaT g = Raise AttributeError /\
  exists rates_e rates_i g',
    assoc_rates_time_squence p N_e N_i r_mean r_max g
    = Ok ((rates_e, rates_i), g') /\
    Forall (fun v => length v = (p * (N_e / p))%nat /\ (length v < N_e)%nat)
           rates_e.
Proof.
  intros Hp Hrem Hr. split.
  - apply assoc_seqs_time_sequence_raises; [exact Hp | left; exact Hrem].
  - destruct (assoc_rates_time_squence_run p N_e N_i r_mean r_max g Hp Hr)
      as (fs & g' & _ & E & Le & _).
    do 3 eexists. split; [exact E|].
    apply Forall_forall. intros v Hv. apply repeat_spec in Hv. subst v.
    split; [exact Le|]. rewrite Le.
    pose proof (Nat.div_mod_eq N_e p). lia.
Qed.

Lemma time_sequence_builders_remainder_witness :
  assoc_seqs_time_sequence (H := Toy.rng) 2 3 2 0 100 1 20 0%Z
  = Raise AttributeError /\
  exists rates_e rates_i g',
    assoc_rates_time_squence (H := Toy.rng) 2 3 2 5 20 0%Z
    = Ok ((rates_e, rates_i), g') /\
    Forall (fun v => length v = (2 * (3 / 2))%nat /\ (length v < 3)%nat)
           rates_e.
Proof.
  apply (time_sequence_builders_remainder (H := Toy.rng)
           2 3 2 0 100 1 20 5 20 0%Z).
  - lia.
  - discriminate.
  - discriminate.
Defined.

(** C5: for [num = p * p] (and a non-zero [r_max]) [assoc_rates] returns
    [num] excitatory and [num] inhibitory rate vectors, and pattern
    [j * p + k] is the feature-[j] vector drawn for the first half of the
    synapses followed by the feature-[k] vector drawn for the second half;
    for [p >= 1], [assoc_rates_time_squence] returns [p!] vectors of each
    kind. *)
Theorem assoc_builders_shape {G : Type} `{RandomState G}
        (p N_e N_i : nat) (r_mean r_max : Q) (g : G) :
  ~ r_max == 0 ->
  (exists re1 ri1 g1 re2 ri2 g2 rates_e rates_i,
      sparse_rates p (N_e / 2) (N_i / 2) r_mean r_max g
      = Ok ((re1, ri1), g1) /\
      sparse_rates p (N_e - N_e / 2) (N_i - N_i / 2) r_mean r_max g1
      = Ok ((re2, ri2), g2) /\
      assoc_rates (p * p) N_e N_i r_mean r_max g
      = Ok ((rates_e, rates_i), g2) /\
      length rates_e = (p * p)%nat /\ length rates_i = (p * p)%nat /\
      forall j k, (j < p)%nat -> (k < p)%nat ->
        nth_error rates_e (j * p + k) = Some (nth j re1 [] ++ nth k re2 []) /\
        nth_error rates_i (j * p + k) = Some (nth j ri1 [] ++ nth k ri2 []) /\
        length (nth j re1 []) = (N_e / 2)%nat /\
        length (nth k re2 []) = (N_e - N_e / 2)%nat /\
        length (nth j ri1 []) = (N_i / 2)%nat /\
        length (nth k ri2 []) = (N_i - N_i / 2)%nat) /\
  ((1 <= p)%nat ->
   exists rates_e rates_i g',
     assoc_rates_time_squence p N_e N_i r_mean r_max g
     = Ok ((rates_e, rates_i), g') /\
     length rates_e = fact p /\ length rates_i = fact p).
Proof.
  intro Hr. split.
  - destruct (assoc_rates_run p N_e N_i r_mean r_max g Hr)
      as (re1 & ri1 & g1 & re2 & ri2 & g2 & E1 & E2 & E
          & [Le1 He1] & [Li1 Hi1] & [Le2 He2] & [Li2 Hi2]).
    exists re1, ri1, g1, re2, ri2, g2. do 2 eexists.
    split; [exact E1|]. split; [exact E2|]. split; [exact E|].
    split; [apply length_grid|]. split; [apply length_grid|].
    intros j k Hj Hk.
    rewrite (nth_error_grid (fun j k => nth j re1 [] ++ nth k re2 []))
      by assumption.
    rewrite (nth_error_grid (fun j k => nth j ri1 [] ++ nth k ri2 []))
      by assumption.
    repeat split; apply Forall_nth_length; (assumption || lia).
  - intro Hp.
    destruct (assoc_rates_time_squence_run p N_e N_i r_mean r_max g Hp Hr)
      as (fs & g' & _ & E & _).
    do 3 eexists. split; [exact E|]. rewrite !repeat_length. split; reflexivity.
Qed.

Lemma assoc_builders_shape_witness :
  exists rates_e rates_i g',
    assoc_rates_time_squence (H := Toy.rng) 3 7 6 5 20 0%Z
    = Ok ((rates_e, rates_i), g') /\
    length rates_e = fact 3 /\ length rates_i = fact 3.
Proof.
  apply (proj2 (assoc_builders_shape (H := Toy.rng) 3 7 6 5 20 0%Z
                                     ltac:(discriminate))).
  lia.
Defined.

(** C10: for [p >= 1] (and a non-zero [r_max]) every one of the [p!] rate
    vectors returned by [assoc_rates_time_squence] is the first row [re[0]]
    (resp. [ri[0]]) of the stacked feature ensemble. *)
Theorem assoc_rates_time_squence_identical {G : Type} `{RandomState G}
        (p N_e N_i : nat) (r_mean r_max : Q) (g : G) :
  (1 <= p)%nat -> ~ r_max == 0 ->
  exists fs g' rates_e rates_i,
    repeatM p (sparse_rates p (N_e / p) (N_i / p) r_mean r_max) g
    = Ok (fs, g') /\
    assoc_rates_time_squence p N_e N_i r_mean r_max g
    = Ok ((rates_e, rates_i), g') /\
    length rates_e = fact p /\ length rates_i = fact p /\
    Forall (eq (nth 0 (hstack (map fst fs)) [])) rates_e /\
    Forall (eq (nth 0 (hstack (map snd fs)) [])) rates_i.
Proof.
  intros Hp Hr.
  destruct (assoc_rates_time_squence_run p N_e N_i r_mean r_max g Hp Hr)
    as (fs & g' & Efs & E & _).
  exists fs, g'. do 2 eexists.
  split; [exact Efs|]. split; [exact E|].
  rewrite !repeat_length. repeat split;
    apply Forall_forall; intros v Hv; apply repeat_spec in Hv; congruence.
Qed.

Lemma assoc_rates_time_squence_identical_witness :
  exists fs g' rates_e rates_i,
    repeatM 3 (sparse_rates (H := Toy.rng) 3 (7 / 3) (6 / 3) 5 20) 0%Z
    = Ok (fs, g') /\
    assoc_rates_time_squence (H := Toy.rng) 3 7 6 5 20 0%Z
    = Ok ((rates_e, rates_i), g') /\
    length rates_e = fact 3 /\ length rates_i = fact 3 /\
    Forall (eq (nth 0 (hstack (map fst fs)) [])) rates_e /\
    Forall (eq (nth 0 (hstack (map snd fs)) [])) rates_i.
Proof.
  apply (assoc_rates_time_squence_identical (H := Toy.rng) 3 7 6 5 20 0%Z).
  - lia.
  - discriminate.
Defined.

(* ================================================================== *)
(** * [PreSyn]: the rate, the envelope and [spike_train] *)

Module PreSynFacts.
Import PreSyn PreSynPoint.
Local Open Scope R_scope.

Lemma Rleb_le (a b : R) : Rleb a b = true <-> a <= b.
Proof. unfold Rleb. destruct (Rle_dec a b); split; (congruence || tauto). Qed.

Lemma Rltb_lt (a b : R) : Rltb a b = true <-> a < b.
Proof. unfold Rltb. destruct (Rlt_dec a b); split; (congruence || tauto). Qed.

Lemma Rltb_ge (a b : R) : Rltb a b = false <-> b <= a.
Proof.
  unfold Rltb. destruct (Rlt_dec a b); split; try congruence; try lra.
Qed.

Lemma Rleb_gt (a b : R) : Rleb a b = false <-> b < a.
Proof.
  unfold Rleb. destruct (Rle_dec a b); split; try congruence; try lra.
Qed.

Lemma Rleb_total (a b : R) : Rleb a b = true \/ Rleb b a = true.
Proof. rewrite !Rleb_le. lra. Qed.

Lemma Rleb_trans (a b c : R) :
  Rleb a b = true -> Rleb b c = true -> Rleb a c = true.
Proof. rewrite !Rleb_le. lra. Qed.

Lemma sort_Rle_sorted (l : list R) : StronglySorted Rle (sort Rleb l).
Proof.
  pose proof (sort_sorted Rleb Rleb_total Rleb_trans l) as Hs.
  induction Hs as [|a l' Hs IH Ha]; constructor; [exact IH|].
  eapply Forall_impl; [|exact Ha]. intros b Hb. apply Rleb_le. exact Hb.
Qed.

(** The kernel at its centre. *)
Lemma exp_at_centre (c sigma : R) :
  exp (- (c - c) ^ 2 / (2 * sigma ^ 2)) = 1.
Proof.
  replace (- (c - c) ^ 2 / (2 * sigma ^ 2)) with 0
    by (unfold Rdiv; ring).
  apply exp_0.
Qed.

Lemma root_pos (sigma : R) : sigma <> 0 -> 0 < sqrt (2 * PI * sigma ^ 2).
Proof.
  intro Hs. apply sqrt_lt_R0. pose proof PI_RGT_0.
  assert (0 < sigma ^ 2) by nra.
  nra.
Qed.

(** The divisor of the kernel vanishes for [sigma = 0] only. *)
Lemma Rzerob_root (sigma : R) :
  Rzerob (sqrt (2 * PI * sigma ^ 2)) = true <-> sigma = 0.
Proof.
  unfold Rzerob.
  destruct (Req_dec_T (sqrt (2 * PI * sigma ^ 2)) 0) as [E|E]; split;
    try congruence.
  - intros _. destruct (Req_dec_T sigma 0) as [Hs|Hs]; [exact Hs|].
    pose proof (root_pos sigma Hs). lra.
  - intros ->. exfalso. apply E.
    replace (2 * PI * 0 ^ 2) with 0 by ring. apply sqrt_0.
Qed.

(** Settles the comparisons of numerals left by unfolding the model. *)
Ltac decide_R :=
  repeat match goal with
         | |- context [Rleb ?a ?b] =>
             first [ rewrite (proj2 (Rleb_le a b)) by lra
                   | rewrite (proj2 (Rleb_gt a b)) by lra ]
         | |- context [Rltb ?a ?b] =>
             first [ rewrite (proj2 (Rltb_lt a b)) by lra
                   | rewrite (proj2 (Rltb_ge a b)) by lra ]
         end.

Lemma combine_map_self {A B} (h : A -> B) (t : list A) :
  combine (map h t) t = map (fun x => (h x, x)) t.
Proof. induction t as [|x t IH]; simpl; [|rewrite IH]; reflexivity. Qed.

Lemma combine_map_map {A B C} (h : A -> B) (k : A -> C) (t : list A) :
  combine (map h t) (map k t) = map (fun x => (h x, k x)) t.
Proof. induction t as [|x t IH]; simpl; [|rewrite IH]; reflexivity. Qed.

Lemma add_where_map (mask : R -> bool) (c : R) (h : R -> R) (t : list R) :
  add_where mask c (map h t) t
  = map (fun x => if mask x then h x + c else h x) t.
Proof.
  unfold add_where. rewrite combine_map_self, map_map. reflexivity.
Qed.

(** With a divisor that is not zero the loop of [gauss_spike_time] runs to
    its end, and sums the kernels point by point. *)
Lemma gauss_fold_map (sigma : R) (t spike_times : list R) :
  sigma <> 0 ->
  forall h : R -> R,
    fold_left
      (fun g t_k =>
         and_then g
           (fun g =>
              if Rzerob (sqrt (2 * PI * sigma ^ 2))
              then Raise ZeroDivisionError
              else
                Ok (map (fun gt =>
                           fst gt + 1 / sqrt (2 * PI * sigma ^ 2)
                                    * exp (- (snd gt - t_k) ^ 2
                                           / (2 * sigma ^ 2)))
                        (combine g t))))
      spike_times (Ok (map h t))
    = Ok (map (fun x => fold_left (fun g t_k => g + kernel sigma x t_k)
                                  spike_times (h x)) t).
Proof.
  intro Hs.
  assert (Hz : Rzerob (sqrt (2 * PI * sigma ^ 2)) = false).
  { destruct (Rzerob _) eqn:E; [|reflexivity].
    apply Rzerob_root in E. contradiction. }
  rewrite Hz.
  induction spike_times as [|t_k spike_times IH]; intro h; [reflexivity|].
  cbn [fold_left and_then].
  rewrite combine_map_self, map_map. cbn [fst snd].
  exact (IH (fun x => h x + kernel sigma x t_k)).
Qed.

Lemma gauss_spike_time_map (t spike_times : list R) (sigma : R) :
  sigma <> 0 ->
  gauss_spike_time t spike_times sigma
  = Ok (map (gauss_at sigma spike_times) t).
Proof. intro Hs. unfold gauss_spike_time. apply gauss_fold_map, Hs. Qed.

(** With [sigma = 0] the first pass of the loop raises. *)
Lemma gauss_spike_time_zero (t spike_times : list R) :
  spike_times <> [] ->
  gauss_spike_time t spike_times 0 = Raise ZeroDivisionError.
Proof.
  destruct spike_times as [|t_k l]; [congruence|]. intros _.
  unfold gauss_spike_time. cbn [fold_left and_then].
  rewrite (proj2 (Rzerob_root 0) eq_refl).
  induction l as [|t_k' l IH]; [reflexivity|]. exact IH.
Qed.

Lemma rate_map (self : PreSyn.t) (t : list R)
      (t_on t_off stim_on stim_off s r : R) (spike_times : list R) :
  sigma self <> 0
  \/ Rltb 0 r && Rltb 0 (s * INR (length spike_times)) = false ->
  rate self t t_on t_off stim_on stim_off s r spike_times
  = Ok (map (rate_at self t_on t_off stim_on stim_off s r spike_times) t).
Proof.
  intro Hok. unfold rate, rate_at. rewrite !add_where_map.
  destruct (Rltb 0 r && Rltb 0 (s * INR (length spike_times))) eqn:Ec.
  - destruct Hok as [Hs|Hc]; [|discriminate].
    rewrite (gauss_spike_time_map _ _ _ Hs). cbn [and_then].
    destruct (Rleb t_off stim_off); rewrite ?add_where_map;
      rewrite combine_map_map, map_map; reflexivity.
  - destruct (Rleb t_off stim_off); rewrite ?add_where_map; reflexivity.
Qed.

Lemma r_max_envelope (self : PreSyn.t) (stim_on stim_off s r : R)
      (spike_times : list R) :
  sigma self <> 0 \/ s * INR (length spike_times) <= 0 ->
  r_max self stim_on stim_off s r spike_times
  = Ok (envelope self stim_on stim_off s r spike_times).
Proof.
  intro Hok. unfold r_max, envelope.
  destruct (Rltb 0 (s * INR (length spike_times))) eqn:Ec; [|reflexivity].
  destruct Hok as [Hs|Hc]; [|apply Rltb_lt in Ec; lra].
  rewrite (gauss_spike_time_map _ _ _ Hs). reflexivity.
Qed.

Lemma exp_le_one (y : R) : y <= 0 -> exp y <= 1.
Proof.
  intros [Hy| ->]; [|rewrite exp_0; lra].
  pose proof (exp_increasing _ _ Hy) as Hlt. rewrite exp_0 in Hlt. lra.
Qed.

Lemma kernel_bounds (sigma x t_k : R) :
  sigma <> 0 ->
  0 <= kernel sigma x t_k <= 1 / sqrt (2 * PI * sigma ^ 2).
Proof.
  intro Hs. unfold kernel.
  pose proof (root_pos sigma Hs) as Hroot.
  assert (HK : 0 < 1 / sqrt (2 * PI * sigma ^ 2))
    by (apply Rdiv_lt_0_compat; lra).
  assert (Hinv : 0 < / (2 * sigma ^ 2)).
  { apply Rinv_0_lt_compat.
    pose proof (Rsqr_pos_lt sigma Hs) as Hsq. rewrite Rsqr_pow2 in Hsq. lra. }
  assert (Harg : - (x - t_k) ^ 2 / (2 * sigma ^ 2) <= 0).
  { unfold Rdiv. pose proof (pow2_ge_0 (x - t_k)) as Hsq.
    set (a := (x - t_k) ^ 2) in *. set (b := / (2 * sigma ^ 2)) in *.
    clear -Hsq Hinv. nra. }
  pose proof (exp_le_one _ Harg) as Hle.
  pose proof (exp_pos (- (x - t_k) ^ 2 / (2 * sigma ^ 2))) as Hpos.
  split; nra.
Qed.

Lemma gauss_at_bounds (sigma x : R) (spike_times : list R) :
  sigma <> 0 ->
  0 <= gauss_at sigma spike_times x
  <= INR (length spike_times) * (1 / sqrt (2 * PI * sigma ^ 2)).
Proof.
  intro Hs. unfold gauss_at.
  assert (Hgen : forall acc,
             acc <= fold_left (fun g t_k => g + kernel sigma x t_k)
                              spike_times acc
             <= acc + INR (length spike_times)
                      * (1 / sqrt (2 * PI * sigma ^ 2))).
  { induction spike_times as [|t_k l IH]; intro acc.
    - simpl. lra.
    - cbn [fold_left]. specialize (IH (acc + kernel sigma x t_k)).
      pose proof (kernel_bounds sigma x t_k Hs).
      change (length (t_k :: l)) with (S (length l)). rewrite S_INR. lra. }
  specialize (Hgen 0). lra.
Qed.

(** Two coincident kernel centres at [50], [s = 1]: the envelope is half
    the peak of one kernel, the rate at [50] twice the envelope, and far
    from the centres the rate is a small fraction of it. *)
Lemma two_centres_envelope :
  envelope two_centres 0 100 1 (/ 100) [50; 50]
  = 1 / sqrt (2 * PI * 1 ^ 2) / 2.
Proof.
  pose proof (root_pos 1 ltac:(lra)) as HK.
  unfold envelope, gauss_at, kernel, two_centres.
  cbn [length INR fold_left r_0 sigma].
  rewrite exp_at_centre. decide_R. field; lra.
Qed.

Lemma two_centres_rate_at_centre :
  rate_at two_centres 0 300 0 100 1 (/ 100) [50; 50] 50
  = 1 / sqrt (2 * PI * 1 ^ 2).
Proof.
  pose proof (root_pos 1 ltac:(lra)) as HK.
  unfold rate_at, gauss_at, kernel, two_centres.
  cbn [length INR fold_left r_0 sigma].
  rewrite !exp_at_centre. decide_R. cbn [andb]. field; lra.
Qed.

Lemma two_centres_rate_far :
  0 <= rate_at two_centres 0 300 0 100 1 (/ 100) [50; 50] 250
  < 1 / sqrt (2 * PI * 1 ^ 2) / 8.
Proof.
  pose proof (root_pos 1 ltac:(lra)) as HK.
  assert (HK' : 0 < 1 / sqrt (2 * PI * 1 ^ 2))
    by (apply Rdiv_lt_0_compat; lra).
  unfold rate_at, gauss_at, kernel, two_centres.
  cbn [length INR fold_left r_0 sigma].
  decide_R. cbn [andb].
  set (e := exp (- (250 - 50) ^ 2 / (2 * 1 ^ 2))).
  assert (He : 0 < e < / 8).
  { subst e. split; [apply exp_pos|].
    replace (- (250 - 50) ^ 2 / (2 * 1 ^ 2)) with (- (20000)) by field.
    rewrite exp_Ropp. apply Rinv_lt_contravar.
    - pose proof (exp_pos 20000). lra.
    - pose proof (exp_ineq1 20000 ltac:(lra)). lra. }
  set (K := 1 / sqrt (2 * PI * 1 ^ 2)) in *.
  replace (0 + / 1000 * 0 + / 100 * (100 - 0) / (1 + 1) * 1
           * (0 + K * e + K * e)) with (K * e) by field.
  split; nra.
Qed.

End PreSynFacts.

Section SpikeTrain.
Local Open Scope R_scope.

(** C1 (as stated) fails.  With two coincident kernel centres at [50] and
    [s = 1] the rate at the candidate [50] is twice the envelope [r_max];
    [spike_train] raises nothing and returns the candidate. *)
Lemma spike_train_accepts_ratio_two :
  let cell := {| PreSyn.r_0 := 0; PreSyn.sigma := 1; PreSyn.tau_d := None |} in
  PreSyn.ratios cell [50] 0 300 0 100 1 (/ 100) [50; 50] = Ok [2] /\
  PreSyn.spike_train cell 0 300 0 100 1 (/ 100) [50; 50] [50] [/ 2]
  = Ok [50].
Proof.
  intro cell. change cell with PreSynPoint.two_centres. clear cell.
  pose proof (PreSynFacts.root_pos 1 ltac:(lra)) as HK.
  assert (HK' : 0 < 1 / sqrt (2 * PI * 1 ^ 2))
    by (apply Rdiv_lt_0_compat; lra).
  assert (Hs : PreSyn.sigma PreSynPoint.two_centres <> 0) by (simpl; lra).
  assert (H2 : 1 / sqrt (2 * PI * 1 ^ 2) / (1 / sqrt (2 * PI * 1 ^ 2) / 2) = 2)
    by (field; lra).
  split.
  - unfold PreSyn.ratios.
    rewrite PreSynFacts.r_max_envelope by (left; exact Hs).
    rewrite PreSynFacts.rate_map by (left; exact Hs).
    cbn [and_then map].
    rewrite PreSynFacts.two_centres_envelope,
      PreSynFacts.two_centres_rate_at_centre, H2. reflexivity.
  - unfold PreSyn.spike_train.
    rewrite PreSynFacts.r_max_envelope by (left; exact Hs).
    rewrite PreSynFacts.rate_map by (left; exact Hs).
    cbn [and_then map].
    rewrite PreSynFacts.two_centres_envelope,
      PreSynFacts.two_centres_rate_at_centre, H2.
    replace (Rmax 300 (100 + 200)) with 300
      by (unfold Rmax; destruct (Rle_dec 300 (100 + 200)); lra).
    rewrite (proj2 (PreSynFacts.Rltb_ge _ 0)) by lra.
    cbn [length seq filter nth].
    rewrite (proj2 (PreSynFacts.Rleb_le (/ 2) 2)) by lra.
    reflexivity.
Qed.

(** C1 (amended): [spike_train] has no failure for an acceptance ratio above
    1.  It raises [ZeroDivisionError] when [sigma = 0] and the kernels are
    in play ([s * len(spike_times) > 0]); otherwise the envelope [r_max] and
    the ratios [rate(t) / r_max] of the candidates are computed, and
    whenever [r_max] is not zero and the Poisson mean [r_max * (T - t_on)]
    is not negative, the call returns exactly the accepted candidates, those
    whose uniform variate is at most their ratio, in ascending order.  A
    candidate whose ratio exceeds 1 is always among them, its variate being
    below 1. *)
Theorem spike_train_accepts_above_envelope
        (self : PreSyn.t) (t_on t_off stim_on stim_off s r : R)
        (spike_times train v : list R) :
  (PreSyn.sigma self = 0 -> 0 < s * INR (length spike_times) ->
   PreSyn.spike_train self t_on t_off stim_on stim_off s r spike_times train v
   = Raise ZeroDivisionError) /\
  (PreSyn.sigma self <> 0 \/ s * INR (length spike_times) <= 0 ->
   exists rm ratio,
     PreSyn.r_max self stim_on stim_off s r spike_times = Ok rm /\
     PreSyn.ratios self train t_on t_off stim_on stim_off s r spike_times
     = Ok ratio /\
     length ratio = length train /\
     (rm <> 0 ->
      0 <= rm * (Rmax t_off (stim_off + 200) - t_on) ->
      exists out,
        PreSyn.spike_train self t_on t_off stim_on stim_off s r spike_times
                           train v
        = Ok out /\
        StronglySorted Rle out /\
        Permutation
          out
          (map (fun i => nth i train 0)
               (filter (fun i => PreSyn.Rleb (nth i v 0) (nth i ratio 0))
                       (seq 0 (length train)))) /\
        (forall i,
            (i < length train)%nat ->
            nth i v 0 < 1 -> 1 < nth i ratio 0 ->
            In (nth i train 0) out))).
Proof.
  split.
  - intros Hs Hlen. unfold PreSyn.spike_train, PreSyn.r_max.
    rewrite (proj2 (PreSynFacts.Rltb_lt _ _) Hlen), Hs.
    rewrite PreSynFacts.gauss_spike_time_zero by discriminate.
    reflexivity.
  - intro Hok.
    assert (Hrate :
      PreSyn.sigma self <> 0
      \/ PreSyn.Rltb 0 r && PreSyn.Rltb 0 (s * INR (length spike_times))
         = false).
    { destruct Hok as [Hs|Hlen]; [left; exact Hs|]. right.
      rewrite (proj2 (PreSynFacts.Rltb_ge 0 _) Hlen). apply andb_false_r. }
    do 2 eexists.
    split; [apply PreSynFacts.r_max_envelope, Hok|].
    unfold PreSyn.ratios, PreSyn.spike_train.
    rewrite (PreSynFacts.r_max_envelope _ _ _ _ _ _ Hok).
    rewrite (PreSynFacts.rate_map _ _ _ _ _ _ _ _ _ Hrate).
    cbn [and_then].
    split; [reflexivity|]. split; [rewrite !length_map; reflexivity|].
    intros _ Hlam.
    rewrite (proj2 (PreSynFacts.Rltb_ge _ 0)) by exact Hlam.
    eexists. split; [reflexivity|].
    split; [apply PreSynFacts.sort_Rle_sorted|]. split.
    + apply Permutation_sym, sort_perm.
    + intros i Hi Hv Hratio.
      eapply Permutation_in; [apply sort_perm|].
      apply in_map_iff. exists i. split; [reflexivity|].
      apply filter_In. split; [apply in_seq; lia|].
      apply PreSynFacts.Rleb_le. lra.
Qed.

Lemma spike_train_accepts_above_envelope_witness :
  exists out,
    PreSyn.spike_train PreSynPoint.two_centres 0 300 0 100 1 (/ 100)
                       [50; 50] [50; 250] [/ 2; / 2]
    = Ok out /\
    In 50 out /\ ~ In 250 out.
Proof.
  pose proof (PreSynFacts.root_pos 1 ltac:(lra)) as HK.
  assert (HK' : 0 < 1 / sqrt (2 * PI * 1 ^ 2))
    by (apply Rdiv_lt_0_compat; lra).
  assert (Hs : PreSyn.sigma PreSynPoint.two_centres <> 0) by (simpl; lra).
  destruct (proj2 (spike_train_accepts_above_envelope
                     PreSynPoint.two_centres 0 300 0 100 1 (/ 100)
                     [50; 50] [50; 250] [/ 2; / 2]) (or_introl Hs))
    as (rm & ratio & Erm & Eratio & _ & Hacc).
  rewrite PreSynFacts.r_max_envelope in Erm by (left; exact Hs).
  injection Erm as <-.
  unfold PreSyn.ratios in Eratio.
  rewrite PreSynFacts.r_max_envelope in Eratio by (left; exact Hs).
  rewrite PreSynFacts.rate_map in Eratio by (left; exact Hs).
  cbn [and_then map] in Eratio. injection Eratio as <-.
  rewrite PreSynFacts.two_centres_envelope in *.
  rewrite PreSynFacts.two_centres_rate_at_centre in *.
  pose proof PreSynFacts.two_centres_rate_far as Hfar.
  set (K := 1 / sqrt (2 * PI * 1 ^ 2)) in *.
  set (far := PreSynPoint.rate_at PreSynPoint.two_centres 0 300 0 100 1
                                  (/ 100) [50; 50] 250) in *.
  assert (H2 : K / (K / 2) = 2) by (field; lra).
  assert (Hlow : far / (K / 2) < / 2).
  { apply (Rmult_lt_reg_r (K / 2)); [lra|].
    replace (far / (K / 2) * (K / 2)) with far by (field; lra). lra. }
  destruct Hacc as (out & Eout & _ & Hperm & _).
  - lra.
  - replace (Rmax 300 (100 + 200)) with 300
      by (unfold Rmax; destruct (Rle_dec 300 (100 + 200)); lra).
    lra.
  - exists out. split; [exact Eout|].
    cbn [length seq filter nth] in Hperm. rewrite H2 in Hperm.
    rewrite (proj2 (PreSynFacts.Rleb_le (/ 2) 2)) in Hperm by lra.
    rewrite (proj2 (PreSynFacts.Rleb_gt (/ 2) (far / (K / 2)))) in Hperm
      by exact Hlow.
    cbn [map nth] in Hperm.
    apply Permutation_sym, Permutation_length_1_inv in Hperm. subst out.
    split; [left; reflexivity|].
    intros [E|[]]. lra.
Defined.

End SpikeTrain.

Section PreSynMore.
Local Open Scope R_scope.

(** X24: for [sigma <> 0], [gauss_spike_time] returns one value per time
    point, each between [0] and the number of kernel centres times the
    peak [1 / sqrt(2 pi sigma^2)] of one kernel. *)
Theorem gauss_spike_time_bounds (t spike_times : list R) (sigma : R) :
  sigma <> 0 ->
  exists g,
    PreSyn.gauss_spike_time t spike_times sigma = Ok g /\
    length g = length t /\
    Forall (fun v => 0 <= v
                     <= INR (length spike_times)
                        * (1 / sqrt (2 * PI * sigma ^ 2)))
           g.
Proof.
  intro Hs. eexists.
  split; [apply PreSynFacts.gauss_spike_time_map, Hs|]. split.
  - apply length_map.
  - apply Forall_map. apply Forall_forall. intros x _.
    apply PreSynFacts.gauss_at_bounds, Hs.
Qed.

Lemma gauss_spike_time_bounds_witness :
  exists g,
    PreSyn.gauss_spike_time [0; 1] [0; 5] 1 = Ok g /\
    length g = length [0; 1] /\
    Forall (fun v => 0 <= v <= INR (length [0; 5])
                               * (1 / sqrt (2 * PI * 1 ^ 2)))
           g.
Proof.
  apply gauss_spike_time_bounds. lra.
Defined.

(** X25: with [r = 0] the rate is the background alone: [r_0 / 1000] on
    [[t_on, t_off)], again [r_0 / 1000] from [stim_off] on when
    [t_off <= stim_off], and [0] elsewhere, whatever [s], [sigma] and
    [spike_times]. *)
Theorem rate_background (self : PreSyn.t) (t : list R)
        (t_on t_off stim_on stim_off s : R) (spike_times : list R) :
  PreSyn.rate self t t_on t_off stim_on stim_off s 0 spike_times
  = Ok (map (PreSynPoint.background_at self t_on t_off stim_off) t).
Proof.
  rewrite PreSynFacts.rate_map
    by (right; rewrite (proj2 (PreSynFacts.Rltb_ge 0 0)) by lra; reflexivity).
  f_equal. apply map_ext. intro x.
  unfold PreSynPoint.rate_at, PreSynPoint.background_at.
  rewrite (proj2 (PreSynFacts.Rltb_ge 0 0)) by lra. cbn [andb].
  destruct (PreSyn.Rleb t_on x && PreSyn.Rltb x t_off) eqn:Ebg;
    destruct (PreSyn.Rleb stim_on x && PreSyn.Rltb x stim_off);
    destruct (PreSyn.Rleb t_off stim_off) eqn:Eoff;
    destruct (PreSyn.Rleb stim_off x) eqn:Ex; cbn [andb]; try lra.
  all: apply andb_true_iff in Ebg; destruct Ebg as [_ Ebg];
    apply PreSynFacts.Rltb_lt in Ebg; apply PreSynFacts.Rleb_le in Eoff, Ex;
    lra.
Qed.



End PreSynMore.

(* ================================================================== *)
(** * Further properties of the sequence transforms *)

Lemma Forall2_map_left {A B} (f : A -> B) (P : B -> A -> Prop) (l : list A) :
  (forall x, In x l -> P (f x) x) -> Forall2 P (map f l) l.
Proof.
  induction l as [|x l IH]; simpl; intro Hf; constructor; auto.
Qed.

Lemma StronglySorted_filter {A} (R : A -> A -> Prop) (f : A -> bool) l :
  StronglySorted R l -> StronglySorted R (filter f l).
Proof.
  induction 1 as [|a l Hs IH Ha]; simpl; [constructor|].
  destruct (f a); [|exact IH].
  constructor; [exact IH|].
  apply Forall_forall. intros x Hx. apply filter_In in Hx.
  rewrite Forall_forall in Ha. apply Ha, Hx.
Qed.

Lemma in_window_Fin (a b : Q) (x : time) :
  tleb (Fin a) x && tltb x (Fin b) = true <->
  exists q, x = Fin q /\ a <= q /\ q < b.
Proof.
  destruct x as [q|]; simpl.
  - rewrite andb_true_iff, Qle_bool_iff, Qltb_lt. split.
    + intros [Ha Hb]. exists q. auto.
    + intros (q' & [= <-] & Ha & Hb). auto.
  - split; [discriminate | intros (q & Hq & _); discriminate].
Qed.

Lemma filter_map_comm {A B} (g : A -> B) (f : B -> bool) (l : list A) :
  filter f (map g l) = map g (filter (fun x => f (g x)) l).
Proof.
  induction l as [|x l IH]; simpl; [reflexivity|].
  destruct (f (g x)); simpl; rewrite IH; reflexivity.
Qed.

Lemma filter_repeat_false {A} (f : A -> bool) (x : A) (k : nat) :
  f x = false -> filter f (repeat x k) = [].
Proof.
  intro E. induction k as [|k IH]; simpl; [reflexivity|].
  rewrite E. exact IH.
Qed.

Lemma filter_window_padded (a b : Q) (row : list time) :
  padded_row row ->
  real_sorted (filter (fun s => tleb (Fin a) s && tltb s (Fin b)) row).
Proof.
  intros (real & k & -> & Hs).
  exists (filter (fun q => Qle_bool a q && Qltb q b) real). split.
  - rewrite filter_app, filter_repeat_false, app_nil_r by reflexivity.
    apply filter_map_comm.
  - apply StronglySorted_filter, Hs.
Qed.

(** X1: [subsequence] keeps one row per synapse; a row of the result holds
    exactly the real entries of the row of [S] that lie in
    [[t_start, t_end)], each as often as the row has it and in the order of
    the row: it is the row with all other entries struck out.  The
    sub-sequence of a padded row is an ascending train without
    sentinels. *)
Theorem subsequence_window (S : list (list time)) (t_start t_end : Q) :
  Forall2
    (fun sub row =>
       (exists keep : time -> bool,
           (forall x, keep x = true <->
                      exists q, x = Fin q /\ t_start <= q /\ q < t_end) /\
           sub = filter keep row)
       /\ (padded_row row -> real_sorted sub))
    (subsequence S t_start t_end) S.
Proof.
  unfold subsequence. apply Forall2_map_left. intros row _. split.
  - exists (fun s => tleb (Fin t_start) s && tltb s (Fin t_end)).
    split; [|reflexivity]. intro x. apply in_window_Fin.
  - apply filter_window_padded.
Qed.

Lemma filter_filter_sub {A} (f g : A -> bool) (l : list A) :
  (forall x, f x = true -> g x = true) ->
  filter f (filter g l) = filter f l.
Proof.
  intro Hfg. induction l as [|x l IH]; [reflexivity|].
  cbn [filter]. destruct (g x) eqn:Eg; cbn [filter].
  - rewrite IH. reflexivity.
  - destruct (f x) eqn:Ef; [|exact IH].
    rewrite (Hfg x Ef) in Eg. discriminate.
Qed.

(** X2: extracting a window and then a window inside it is extracting the
    inner window; in particular [subsequence] is idempotent. *)
Theorem subsequence_nested (S : list (list time)) (a b c d : Q) :
  a <= c -> d <= b ->
  subsequence (subsequence S a b) c d = subsequence S c d.
Proof.
  intros Hac Hdb. unfold subsequence. rewrite map_map. apply map_ext.
  intro row. apply filter_filter_sub. intros x Ein.
  apply in_window_Fin. apply in_window_Fin in Ein.
  destruct Ein as (q & -> & H1 & H2). exists q. repeat split; lra.
Qed.

Lemma subsequence_nested_witness :
  subsequence (subsequence [[Fin 1; Fin 5; Fin 9; Inf]] 0 10) 2 8
  = subsequence [[Fin 1; Fin 5; Fin 9; Inf]] 2 8.
Proof.
  apply subsequence_nested; discriminate.
Defined.

Lemma rate2temp_fold (S : list (list time)) :
  forall (k0 : nat) (acc : list time * list nat),
    fold_left
      (fun acc ks =>
         let t_k := filter is_real (snd ks) in
         (fst acc ++ t_k, snd acc ++ repeat (fst ks) (length t_k)))
      (combine (seq k0 (length S)) S) acc
    = (fst acc ++ real_entries S, snd acc ++ synapse_tags k0 S).
Proof.
  unfold real_entries, synapse_tags.
  induction S as [|s S IH]; intros k0 [a b]; simpl.
  - rewrite !app_nil_r. reflexivity.
  - rewrite IH. simpl. rewrite <- !app_assoc. reflexivity.
Qed.

Lemma rate2temp_eq (S : list (list time)) :
  rate2temp S = (map (fun x => [x]) (real_entries S), synapse_tags 0 S).
Proof. unfold rate2temp. rewrite rate2temp_fold. reflexivity. Qed.

Lemma synapse_tags_cons (k0 : nat) (s : list time) (rows : list (list time)) :
  synapse_tags k0 (s :: rows)
  = repeat k0 (length (filter is_real s)) ++ synapse_tags (Datatypes.S k0) rows.
Proof. reflexivity. Qed.

Lemma real_entries_cons (s : list time) (rows : list (list time)) :
  real_entries (s :: rows) = filter is_real s ++ real_entries rows.
Proof. reflexivity. Qed.

Lemma synapse_tags_spec (rows : list (list time)) :
  forall k0,
    length (synapse_tags k0 rows) = length (real_entries rows) /\
    Forall (fun k => k0 <= k < k0 + length rows)%nat (synapse_tags k0 rows) /\
    StronglySorted le (synapse_tags k0 rows).
Proof.
  induction rows as [|s rows IH]; intro k0.
  - repeat split; constructor.
  - rewrite synapse_tags_cons, real_entries_cons.
    destruct (IH (Datatypes.S k0)) as (Hlen & Hrange & Hsorted).
    split; [|split].
    + rewrite !length_app, repeat_length, Hlen. reflexivity.
    + apply Forall_app. split.
      * apply Forall_forall. intros k Hk. apply repeat_spec in Hk.
        simpl. lia.
      * eapply Forall_impl; [|exact Hrange]. simpl. intros k Hk. lia.
    + induction (length (filter is_real s)) as [|n IHn]; simpl;
        [exact Hsorted|].
      constructor; [exact IHn|].
      apply Forall_app. split.
      * apply Forall_forall. intros k Hk. apply repeat_spec in Hk. lia.
      * eapply Forall_impl; [|exact Hrange]. simpl. intros k Hk. lia.
Qed.

Lemma combine_app_same {A B} (a a' : list A) (b b' : list B) :
  length a = length b ->
  combine (a ++ a') (b ++ b') = combine a b ++ combine a' b'.
Proof.
  revert b. induction a as [|x a IH]; intros [|y b] E; simpl in *;
    try discriminate; [reflexivity|].
  rewrite IH by lia. reflexivity.
Qed.

Lemma tagged_block {A} (l : list A) (k0 k : nat) :
  map fst (filter (fun xi => (snd xi =? k)%nat)
                  (combine l (repeat k0 (length l))))
  = if (k0 =? k)%nat then l else [].
Proof.
  induction l as [|x l IH]; simpl; [destruct (k0 =? k)%nat; reflexivity|].
  destruct (k0 =? k)%nat; simpl; rewrite IH; reflexivity.
Qed.

Lemma concat_singletons {A} (l : list A) : concat (map (fun x => [x]) l) = l.
Proof. induction l as [|x l IH]; simpl; [|rewrite IH]; reflexivity. Qed.

Lemma events_of_tags (rows : list (list time)) :
  forall k0 k,
    map fst (filter (fun xi => (snd xi =? k)%nat)
                    (combine (real_entries rows) (synapse_tags k0 rows)))
    = if ((k0 <=? k) && (k <? k0 + length rows))%nat
      then filter is_real (nth (k - k0) rows [])
      else [].
Proof.
  induction rows as [|s rows IH]; intros k0 k.
  - simpl. destruct ((k0 <=? k) && (k <? k0 + 0))%nat; [|reflexivity].
    destruct (k - k0)%nat; reflexivity.
  - rewrite synapse_tags_cons, real_entries_cons.
    rewrite combine_app_same by (rewrite repeat_length; reflexivity).
    rewrite filter_app, map_app, tagged_block, IH.
    destruct (Nat.eqb_spec k0 k) as [->|Hne].
    + replace ((Datatypes.S k <=? k) && (k <? Datatypes.S k + length rows))%nat with false
        by (symmetry; apply andb_false_iff; left; apply Nat.leb_gt; lia).
      replace ((k <=? k) && (k <? k + length (s :: rows)))%nat with true
        by (symmetry; apply andb_true_iff; split;
            [apply Nat.leb_le | apply Nat.ltb_lt]; simpl; lia).
      rewrite Nat.sub_diag, app_nil_r. reflexivity.
    + cbn [app length].
      destruct ((k0 <=? k) && (k <? k0 + Datatypes.S (length rows)))%nat
        eqn:E1.
      * apply andb_true_iff in E1. destruct E1 as [E1 E2].
        apply Nat.leb_le in E1. apply Nat.ltb_lt in E2.
        replace ((Datatypes.S k0 <=? k)
                 && (k <? Datatypes.S k0 + length rows))%nat with true
          by (symmetry; apply andb_true_iff; split;
              [apply Nat.leb_le | apply Nat.ltb_lt]; lia).
        replace (k - k0)%nat with (Datatypes.S (k - Datatypes.S k0)) by lia.
        reflexivity.
      * replace ((Datatypes.S k0 <=? k)
                 && (k <? Datatypes.S k0 + length rows))%nat with false;
          [reflexivity|].
        symmetry. apply andb_false_iff. apply andb_false_iff in E1.
        destruct E1 as [E1|E1].
        -- left. apply Nat.leb_gt. apply Nat.leb_gt in E1. lia.
        -- right. apply Nat.ltb_ge. apply Nat.ltb_ge in E1. lia.
Qed.

(** X3: [rate2temp] returns one single-spike row per real entry of [S] and
    as many synapse indices; the rows hold no sentinel, and the indices are
    valid rows of [S] in ascending order. *)
Theorem rate2temp_shape (S : list (list time)) :
  length (fst (rate2temp S)) = length (snd (rate2temp S)) /\
  length (fst (rate2temp S)) = length (real_entries S) /\
  Forall (fun row => exists q, row = [Fin q]) (fst (rate2temp S)) /\
  Forall (fun k => k < length S)%nat (snd (rate2temp S)) /\
  StronglySorted le (snd (rate2temp S)).
Proof.
  rewrite rate2temp_eq. simpl fst. simpl snd.
  destruct (synapse_tags_spec S 0%nat) as (Hlen & Hrange & Hsorted).
  rewrite length_map.
  split; [symmetry; exact Hlen|]. split; [reflexivity|].
  split; [|split; [|exact Hsorted]].
  - apply Forall_map. apply Forall_forall. intros x Hx.
    unfold real_entries in Hx. apply in_concat in Hx.
    destruct Hx as (l & Hl & Hx). apply in_map_iff in Hl.
    destruct Hl as (row & <- & _). apply filter_In in Hx.
    destruct Hx as [_ Hx]. destruct x as [q|]; [eauto | discriminate].
  - eapply Forall_impl; [|exact Hrange]. simpl. intros k Hk. lia.
Qed.

(** X4: the expansion loses nothing: the events [rate2temp] attributes to
    synapse [k] are the real entries of row [k] of [S], in their order. *)
Theorem rate2temp_events (S : list (list time)) (k : nat) :
  (k < length S)%nat ->
  events_of k (rate2temp S) = filter is_real (nth k S []).
Proof.
  intro Hk. unfold events_of. rewrite rate2temp_eq. simpl fst. simpl snd.
  rewrite concat_singletons, events_of_tags.
  replace ((0 <=? k) && (k <? 0 + length S))%nat with true
    by (symmetry; apply andb_true_iff; split;
        [apply Nat.leb_le | apply Nat.ltb_lt]; lia).
  rewrite Nat.sub_0_r. reflexivity.
Qed.

Lemma rate2temp_events_witness :
  events_of 2 (rate2temp [[Fin 1; Fin 2; Inf]; [Inf; Inf; Inf];
                          [Fin 3; Inf; Inf]])
  = filter is_real (nth 2 [[Fin 1; Fin 2; Inf]; [Inf; Inf; Inf];
                           [Fin 3; Inf; Inf]] []).
Proof.
  apply rate2temp_events. simpl. lia.
Defined.


Lemma compress_entry (c on : Q) (x : time) :
  on_real (fun y => tadd y (Fin on))
          (on_real (fun y => tmulq y c) (on_real (fun y => tsubq y on) x))
  = match x with
    | Fin q => Fin ((q - on) * c + on)
    | Inf => Inf
    end.
Proof. destruct x; reflexivity. Qed.

Lemma compress_stim_rows (S : list (list time)) (c on : Q) :
  compress_stim S c on
  = map (map (fun x => match x with
                       | Fin q => Fin ((q - on) * c + on)
                       | Inf => Inf
                       end)) S.
Proof.
  unfold compress_stim. apply map_ext. intro row. apply map_ext.
  intro x. apply compress_entry.
Qed.

(** X6: a compression factor that is not negative keeps the order of the
    spikes: padded rows stay padded rows, with the same number of real
    entries and of sentinels. *)
Theorem compress_stim_padded (S : list (list time)) (compression stim_on : Q) :
  0 <= compression ->
  Forall padded_row S ->
  Forall padded_row (compress_stim S compression stim_on) /\
  Forall2 (Forall2 same_kind) (compress_stim S compression stim_on) S.
Proof.
  intros Hc HS. rewrite compress_stim_rows. split.
  - apply Forall_map. eapply Forall_impl; [|exact HS].
    intros row (real & k & -> & Hs).
    exists (map (fun q => (q - stim_on) * compression + stim_on) real), k.
    split.
    + rewrite map_app, !map_map. f_equal.
      induction k as [|k IH]; simpl; [reflexivity | rewrite IH; reflexivity].
    + clear HS. induction Hs as [|a l Hs IH Ha]; simpl; constructor;
        [exact IH|].
      apply Forall_map. eapply Forall_impl; [|exact Ha].
      intros b Hb. simpl. nra.
  - apply Forall2_map_left. intros row _.
    apply Forall2_map_left. intros [q|] _; exact I.
Qed.

Lemma compress_stim_padded_witness :
  Forall padded_row (compress_stim [[Fin 10; Fin 30; Inf]] (1 # 2) 10) /\
  Forall2 (Forall2 same_kind)
          (compress_stim [[Fin 10; Fin 30; Inf]] (1 # 2) 10)
          [[Fin 10; Fin 30; Inf]].
Proof.
  apply compress_stim_padded; [discriminate|].
  constructor; [|constructor].
  exists [10; 30], 1%nat. split; [reflexivity|].
  repeat constructor. discriminate.
Defined.

(* ------------------------------------------------------------------ *)

Lemma jitter_rows_error (jit_mag : list Q) (rows : list (list time)) :
  forall k0,
    jitter_rows jit_mag k0 rows = RaiseIndexError <->
    exists k row,
      nth_error rows k = Some row /\
      (row = [] \/
       (exists q r, row = Fin q :: r) /\ (length jit_mag <= k0 + k)%nat).
Proof.
  induction rows as [|s rows IH]; intro k0; simpl.
  - split; [discriminate|]. intros ([|k] & row & E & _); discriminate.
  - destruct (jitter_row jit_mag k0 s) as [r|] eqn:Er.
    + destruct (jitter_rows jit_mag (S k0) rows) as [rs|] eqn:Ers.
      * split; [discriminate|]. intros (k & row & E & Hrow).
        assert (Hno : jitter_rows jit_mag (S k0) rows <> RaiseIndexError)
          by congruence.
        destruct k as [|k]; simpl in E.
        -- injection E as ->. unfold jitter_row in Er.
           destruct Hrow as [->|[(q & r0 & ->) Hlen]]; [discriminate|].
           simpl in Er. apply nth_error_None in Hlen.
           rewrite Nat.add_0_r in Hlen. rewrite Hlen in Er. discriminate.
        -- exfalso. apply Hno, IH. exists k, row. split; [exact E|].
           destruct Hrow as [->|[Hq Hlen]]; [left; reflexivity|].
           right. split; [exact Hq | lia].
      * split; [intros _ | reflexivity].
        destruct (proj1 (IH (S k0)) Ers) as (k & row & E & Hrow).
        exists (S k), row. split; [exact E|].
        destruct Hrow as [->|[Hq Hlen]]; [left; reflexivity|].
        right. split; [exact Hq | lia].
    + split; [intros _ | reflexivity].
      exists 0%nat, s. split; [reflexivity|].
      unfold jitter_row in Er. destruct s as [|[q|] r]; [left; reflexivity| |].
      * right. split; [eauto|]. simpl in Er.
        destruct (nth_error jit_mag k0) eqn:En; [discriminate|].
        apply nth_error_None in En. lia.
      * simpl in Er. discriminate.
Qed.

Lemma jitter_rows_ok (jit_mag : list Q) (rows : list (list time)) :
  forall k0 rows',
    jitter_rows jit_mag k0 rows = Indexed rows' ->
    Forall2 (fun r' r =>
               r' = r \/
               exists j, In j jit_mag /\ r' = map (fun x => tadd x (Fin j)) r)
            rows' rows.
Proof.
  induction rows as [|s rows IH]; intros k0 rows' E; simpl in E.
  - injection E as <-. constructor.
  - destruct (jitter_row jit_mag k0 s) as [r|] eqn:Er; [|discriminate].
    destruct (jitter_rows jit_mag (S k0) rows) as [rs|] eqn:Ers;
      [|discriminate].
    injection E as <-. constructor; [|eapply IH; exact Ers].
    unfold jitter_row in Er. destruct s as [|first s']; [discriminate|].
    destruct (tltb first Inf).
    + destruct (nth_error jit_mag k0) as [j|] eqn:En; [|discriminate].
      injection Er as <-. right. exists j. split; [|reflexivity].
      eapply nth_error_In, En.
    + injection Er as <-. left. reflexivity.
Qed.

Lemma wrap_entry_window (stim_s stim_e : Q) (x : time) :
  within_closed stim_s stim_e x ->
  wrap_entry stim_s stim_e x = x.
Proof.
  intros [->|(q & -> & H1 & H2)]; [reflexivity|].
  unfold wrap_entry. simpl.
  replace (Qltb stim_e q) with false by (symmetry; apply Qltb_ge; lra).
  simpl. replace (Qltb q stim_s) with false by (symmetry; apply Qltb_ge; lra).
  reflexivity.
Qed.

Lemma wrap_entry_same_kind (stim_s stim_e : Q) (x : time) :
  same_kind (wrap_entry stim_s stim_e x) x.
Proof.
  destruct x as [q|]; [|exact I]. unfold wrap_entry. simpl.
  destruct (Qltb stim_e q); simpl.
  - destruct (Qltb (q - (stim_e - stim_s)) stim_s); exact I.
  - destruct (Qltb q stim_s); exact I.
Qed.

Lemma same_kind_tadd (j : Q) (x : time) : same_kind (tadd x (Fin j)) x.
Proof. destruct x; exact I. Qed.

Lemma same_kind_trans (x y z : time) :
  same_kind x y -> same_kind y z -> same_kind x z.
Proof. destruct x, y, z; simpl; tauto. Qed.

(** X7: [jitter_phase] raises [IndexError] exactly when some row has no
    column, or starts with a real spike while [jit_mag] has no entry for
    it; rows that start with a sentinel need no jitter entry. *)
Theorem jitter_phase_error (S : list (list time)) (stim_s stim_e : Q)
        (jit_mag : list Q) :
  jitter_phase S stim_s stim_e jit_mag = RaiseIndexError <->
  exists k row,
    nth_error S k = Some row /\
    (row = [] \/
     (exists q r, row = Fin q :: r) /\ (length jit_mag <= k)%nat).
Proof.
  unfold jitter_phase.
  pose proof (jitter_rows_error jit_mag S 0%nat) as Herr. simpl in Herr.
  destruct (jitter_rows jit_mag 0 S) as [s|].
  - split; [discriminate|]. intro Hex. apply Herr in Hex. discriminate.
  - split; [intros _; apply Herr; reflexivity | reflexivity].
Qed.

(** X8: [jitter_phase] keeps the shape of the pattern and its sentinels:
    in the pattern it returns an entry is a sentinel exactly where [S] has
    one.  With all offsets zero, a pattern whose real entries lie in
    [[stim_s, stim_e]] is returned unchanged. *)
Theorem jitter_phase_sentinels (S S' : list (list time)) (stim_s stim_e : Q)
        (jit_mag : list Q) :
  jitter_phase S stim_s stim_e jit_mag = Indexed S' ->
  Forall2 (Forall2 same_kind) S' S /\
  (Forall (fun j => j == 0) jit_mag ->
   Forall (Forall (within_closed stim_s stim_e)) S ->
   ensemble_eq S' S).
Proof.
  unfold jitter_phase. intro E.
  destruct (jitter_rows jit_mag 0 S) as [s|] eqn:Es; [|discriminate].
  injection E as <-. apply jitter_rows_ok in Es. split.
  - induction Es as [|r' r s S0 Hr Es IH]; simpl; constructor; [|exact IH].
    destruct Hr as [->|(j & _ & ->)].
    + apply Forall2_map_left. intros x _. apply wrap_entry_same_kind.
    + rewrite map_map. apply Forall2_map_left. intros x _.
      eapply same_kind_trans;
        [apply wrap_entry_same_kind | apply same_kind_tadd].
  - intros Hjit HS.
    induction Es as [|r' r s S0 Hr Es IH]; simpl; constructor.
    + inversion HS as [|? ? Hrow _]; subst.
      rewrite Forall_forall in Hrow.
      destruct Hr as [->|(j & Hj & ->)].
      * apply Forall2_map_left. intros x Hx.
        rewrite (wrap_entry_window _ _ _ (Hrow x Hx)). apply teq_refl.
      * rewrite map_map. apply Forall2_map_left. intros x Hx.
        rewrite Forall_forall in Hjit. specialize (Hjit j Hj).
        destruct (Hrow x Hx) as [->|(q & -> & H1 & H2)]; [exact I|].
        unfold wrap_entry. simpl.
        replace (Qltb stim_e (q + j)) with false
          by (symmetry; apply Qltb_ge; lra).
        simpl.
        replace (Qltb (q + j) stim_s) with false
          by (symmetry; apply Qltb_ge; lra).
        simpl. lra.
    + apply IH. inversion HS; assumption.
Qed.

Lemma jitter_phase_sentinels_witness :
  Forall2 (Forall2 same_kind)
          [[Fin (1 + 0); Fin (2 + 0); Inf]; [Inf; Inf; Inf]]
          [[Fin 1; Fin 2; Inf]; [Inf; Inf; Inf]] /\
  ensemble_eq [[Fin (1 + 0); Fin (2 + 0); Inf]; [Inf; Inf; Inf]]
              [[Fin 1; Fin 2; Inf]; [Inf; Inf; Inf]].
Proof.
  destruct (jitter_phase_sentinels
              [[Fin 1; Fin 2; Inf]; [Inf; Inf; Inf]]
              [[Fin (1 + 0); Fin (2 + 0); Inf]; [Inf; Inf; Inf]]
              0 10 [0; 0] eq_refl) as [Hkind Hsame].
  split; [exact Hkind|]. apply Hsame.
  - repeat constructor; reflexivity.
  - assert (Hin : forall q, 0 <= q -> q <= 10 -> within_closed 0 10 (Fin q))
      by (intros q H1 H2; right; exists q; auto).
    assert (Hinf : within_closed 0 10 Inf) by (left; reflexivity).
    constructor; [|constructor; [|constructor]].
    + constructor; [apply Hin; discriminate|].
      constructor; [apply Hin; discriminate|].
      constructor; [exact Hinf | constructor].
    + repeat (constructor; [exact Hinf|]). constructor.
Defined.

(* ------------------------------------------------------------------ *)





(* ------------------------------------------------------------------ *)

Lemma sort_time_Permutation (l l' : list time) :
  Permutation l l' -> row_eq (sort tleb l) (sort tleb l').
Proof.
  apply (sort_Permutation tleb teq).
  - exact tleb_total.
  - exact tleb_trans.
  - exact tleb_antisym.
  - exact tleb_teq.
  - exact teq_refl.
  - exact teq_trans.
Qed.

Lemma superimposed_length (A B : list (list time)) :
  length A = length B ->
  length (map (fun rows => sort tleb (fst rows ++ snd rows)) (combine A B))
  = length A.
Proof.
  intro E. rewrite length_map, length_combine. lia.
Qed.

Lemma superimposed_rows_assoc (A : list (list time)) :
  forall B C,
    length A = length B -> length B = length C ->
    ensemble_eq
      (map (fun rows => sort tleb (fst rows ++ snd rows))
           (combine (map (fun rows => sort tleb (fst rows ++ snd rows))
                         (combine A B)) C))
      (map (fun rows => sort tleb (fst rows ++ snd rows))
           (combine A (map (fun rows => sort tleb (fst rows ++ snd rows))
                           (combine B C)))).
Proof.
  induction A as [|a A IH]; intros [|b B] [|c C] E1 E2; simpl in *;
    try discriminate; [constructor|].
  constructor; [|apply IH; lia].
  apply sort_time_Permutation.
  eapply perm_trans.
  - apply Permutation_app_tail, Permutation_sym.
    apply (sort_perm tleb (a ++ b)).
  - rewrite <- app_assoc. apply Permutation_app_head.
    apply (sort_perm tleb (b ++ c)).
Qed.

(** X11: [superimpose] is associative on ensembles with the same number of
    rows: both groupings succeed and agree entry by entry. *)
Theorem superimpose_associative (A B C : list (list time)) :
  length A = length B -> length B = length C ->
  exists AB BC L R,
    superimpose A B = Ok AB /\ superimpose AB C = Ok L /\
    superimpose B C = Ok BC /\ superimpose A BC = Ok R /\
    ensemble_eq L R.
Proof.
  intros E1 E2. do 4 eexists.
  split; [apply superimpose_same_rows, E1|].
  split; [apply superimpose_same_rows;
          rewrite superimposed_length by exact E1; congruence|].
  split; [apply superimpose_same_rows, E2|].
  split; [apply superimpose_same_rows;
          rewrite superimposed_length by exact E2; exact E1|].
  apply superimposed_rows_assoc; assumption.
Qed.

Lemma superimpose_associative_witness :
  exists AB BC L R,
    superimpose [[Fin 3; Inf]] [[Fin 1]] = Ok AB /\
    superimpose AB [[Fin 2; Fin 5]] = Ok L /\
    superimpose [[Fin 1]] [[Fin 2; Fin 5]] = Ok BC /\
    superimpose [[Fin 3; Inf]] BC = Ok R /\
    ensemble_eq L R.
Proof.
  apply superimpose_associative; reflexivity.
Defined.

(** X12: superimposing loses and invents no entry: with as many rows in
    [S_2] as in [S_1], row [k] of the result is a rearrangement of row [k]
    of [S_1] followed by row [k] of [S_2]; with another number of rows,
    other than one, the call raises [ValueError]. *)
Theorem superimpose_rows_permuted (S_1 S_2 : list (list time)) :
  (length S_2 = length S_1 ->
   exists S,
     superimpose S_1 S_2 = Ok S /\
     length S = length S_1 /\
     Forall2 (fun row ab => Permutation (fst ab ++ snd ab) row /\
                            length row = (length (fst ab) + length (snd ab))%nat)
             S (combine S_1 S_2)) /\
  (length S_2 <> length S_1 -> length S_2 <> 1%nat ->
   superimpose S_1 S_2 = Raise ValueError).
Proof.
  split.
  - intro E. eexists. split; [apply superimpose_same_rows; congruence|].
    split; [apply superimposed_length; congruence|].
    apply Forall2_map_left. intros ab _.
    pose proof (sort_perm tleb (fst ab ++ snd ab)) as Hp.
    split; [exact Hp|].
    rewrite <- (Permutation_length Hp). apply length_app.
  - intros H1 H2. unfold superimpose.
    destruct (Nat.eqb_spec (length S_2) (length S_1)); [congruence|].
    destruct (Nat.eqb_spec (length S_2) 1); [congruence | reflexivity].
Qed.

(* ------------------------------------------------------------------ *)





(* ================================================================== *)
(** * Further properties of the builders *)

Lemma Forall_firstn_skipn {A} (P : A -> Prop) (n : nat) (l : list A) :
  Forall P l -> Forall P (firstn n l) /\ Forall P (skipn n l).
Proof.
  intro Hl. apply Forall_app. rewrite firstn_skipn. exact Hl.
Qed.

Section BuilderRanges.
Context {G : Type} `{RandomState G}.

Lemma rand_vec_unit (n : nat) (g : G) :
  rand_unit G ->
  exists v g',
    rand_vec n g = Ok (v, g') /\ length v = n /\
    Forall (fun u => 0 <= u /\ u < 1) v.
Proof.
  intro Hu. apply repeatM_spec. intro g0. unfold rand1.
  specialize (Hu g0). destruct (np_random_rand g0) as [a g1]. eauto.
Qed.

Lemma rand_mat_unit (rows n : nat) (g : G) :
  rand_unit G ->
  exists m g',
    rand_mat rows n g = Ok (m, g') /\ length m = rows /\
    Forall (fun v => length v = n /\ Forall (fun u => 0 <= u /\ u < 1) v) m.
Proof.
  intro Hu. apply repeatM_spec. intro g0.
  destruct (rand_vec_unit n g0 Hu) as (v & g1 & E & Hn & Hv). eauto.
Qed.

Lemma scaled_events_from (rows n : nat) (T0 T : Q) (m : list (list Q)) :
  T0 <= T -> length m = rows ->
  Forall (fun v => length v = n /\ Forall (fun u => 0 <= u /\ u < 1) v) m ->
  events_from rows n T0 (map (map (fun u => T0 + (T - T0) * u)) m).
Proof.
  intros HT Hrows Hm. split; [rewrite length_map; exact Hrows|].
  apply Forall_map. eapply Forall_impl; [|exact Hm].
  intros v [Hn Hv]. split; [rewrite length_map; exact Hn|].
  apply Forall_map. eapply Forall_impl; [|exact Hv].
  intros u [H0 H1]. simpl. nra.
Qed.

(** X14: [build_seqs] returns [p] excitatory and [p] inhibitory patterns of
    [N_e] resp. [N_i] trains with [n] events each, and for [T0 <= T] no
    event is earlier than [T0] (uniform variates being in [[0, 1)]). *)
Theorem build_seqs_not_before (p N_e N_i : nat) (T0 T : Q) (n : nat) (g : G) :
  rand_unit G -> T0 <= T ->
  exists S_e S_i g',
    build_seqs p N_e N_i T0 T n g = Ok ((S_e, S_i), g') /\
    length S_e = p /\ length S_i = p /\
    Forall (events_from N_e n T0) S_e /\
    Forall (events_from N_i n T0) S_i.
Proof.
  intros Hu HT. unfold build_seqs.
  match goal with
  | |- context [repeatM p ?c] =>
      destruct (repeatM_spec c
                  (fun r => events_from N_e n T0 (fst r)
                            /\ events_from N_i n T0 (snd r)))
        with (n := p) (g := g) as (rs & g' & E & Hn & Hrs)
  end.
  - intro g0.
    destruct (rand_mat_unit N_e n g0 Hu) as (e & g1 & Ee & He & Hev).
    destruct (rand_mat_unit N_i n g1 Hu) as (i & g2 & Ei & Hi & Hiv).
    do 2 eexists. split.
    + rewrite (bind_Ok_run _ _ _ _ _ Ee), (bind_Ok_run _ _ _ _ _ Ei).
      reflexivity.
    + split; apply (scaled_events_from _ _ T0 T); assumption.
  - exists (map fst rs), (map snd rs), g'.
    rewrite (bind_Ok_run _ _ _ _ _ E). split; [reflexivity|].
    rewrite !length_map, !Forall_map. repeat split; try assumption.
    + eapply Forall_impl; [|exact Hrs]. intros r [Hr1 _]. exact Hr1.
    + eapply Forall_impl; [|exact Hrs]. intros r [_ Hr2]. exact Hr2.
Qed.

(** X15: every rate [sparse_rates] returns is [0] or [r_max / 1000]; all of
    them are [r_max / 1000] when [mu / r_max >= 1] and all are [0] when
    [mu / r_max <= 0]. *)
Theorem sparse_rates_values (p N_e N_i : nat) (mu r_max : Q) (g : G) :
  rand_unit G -> ~ r_max == 0 ->
  exists re ri g',
    sparse_rates p N_e N_i mu r_max g = Ok ((re, ri), g') /\
    Forall (Forall (fun x => x == 0 \/ x == r_max / 1000)) (re ++ ri) /\
    (1 <= mu / r_max ->
     Forall (Forall (fun x => x == r_max / 1000)) (re ++ ri)) /\
    (mu / r_max <= 0 -> Forall (Forall (fun x => x == 0)) (re ++ ri)).
Proof.
  intros Hu Hr. unfold sparse_rates.
  destruct (Qeq_bool r_max 0) eqn:E0; [apply Qeq_bool_eq in E0; tauto|].
  set (Q3 := fun x : Q =>
               (x == 0 \/ x == r_max / 1000) /\
               (1 <= mu / r_max -> x == r_max / 1000) /\
               (mu / r_max <= 0 -> x == 0)).
  match goal with
  | |- context [repeatM p ?c] =>
      destruct (repeatM_spec c
                  (fun r => Forall Q3 (fst r) /\ Forall Q3 (snd r)))
        with (n := p) (g := g) as (rs & g' & E & Hn & Hrs)
  end.
  - intro g0.
    destruct (rand_vec_unit (N_e + N_i) g0 Hu) as (u & g1 & Eu & _ & Hv).
    do 2 eexists. split.
    + rewrite (bind_Ok_run _ _ _ _ _ Eu). reflexivity.
    + cbn [fst snd]. apply Forall_firstn_skipn.
      apply Forall_map. eapply Forall_impl; [|exact Hv].
      intros x [H0 H1]. unfold Q3.
      destruct (Qltb x (mu / r_max)) eqn:Ex;
        [apply Qltb_lt in Ex | apply Qltb_ge in Ex].
      * split; [right; field|]. split; [intros _; field | intro; lra].
      * split; [left; ring|]. split; [intro; lra | intros _; ring].
  - exists (map fst rs), (map snd rs), g'.
    rewrite (bind_Ok_run _ _ _ _ _ E). split; [reflexivity|].
    assert (Hall : Forall (Forall Q3) (map fst rs ++ map snd rs)).
    { apply Forall_app. rewrite !Forall_map. split.
      - eapply Forall_impl; [|exact Hrs]. intros r [Hr1 _]. exact Hr1.
      - eapply Forall_impl; [|exact Hrs]. intros r [_ Hr2]. exact Hr2. }
    repeat split; try intro Hp;
      (eapply Forall_impl; [|exact Hall]); intros v Hv;
      (eapply Forall_impl; [|exact Hv]); intros x (Hx1 & Hx2 & Hx3); auto.
Qed.

(** X16: for [num = p * p], [assoc_seqs] returns [num] patterns of each
    kind; pattern [j * p + k] stacks the trains of feature [j], drawn for
    the first half of the synapses, on those of feature [k], drawn for the
    second half, and so has [N_e] resp. [N_i] trains. *)
Theorem assoc_seqs_conjunctions (p N_e N_i : nat) (T0 T : Q) (n : nat) (g : G) :
  exists se1 si1 g1 se2 si2 g2 S_e S_i,
    build_seqs p (N_e / 2) (N_i / 2) T0 T n g = Ok ((se1, si1), g1) /\
    build_seqs p (N_e - N_e / 2) (N_i - N_i / 2) T0 T n g1
    = Ok ((se2, si2), g2) /\
    assoc_seqs (p * p) N_e N_i T0 T n g = Ok ((S_e, S_i), g2) /\
    length S_e = (p * p)%nat /\ length S_i = (p * p)%nat /\
    forall j k, (j < p)%nat -> (k < p)%nat ->
      nth_error S_e (j * p + k) = Some (nth j se1 [] ++ nth k se2 []) /\
      nth_error S_i (j * p + k) = Some (nth j si1 [] ++ nth k si2 []) /\
      length (nth j se1 [] ++ nth k se2 []) = N_e /\
      length (nth j si1 [] ++ nth k si2 []) = N_i.
Proof.
  destruct (build_seqs_run p (N_e / 2) (N_i / 2) T0 T n g)
    as (se1 & si1 & g1 & E1 & [Le1 He1] & [Li1 Hi1]).
  destruct (build_seqs_run p (N_e - N_e / 2) (N_i - N_i / 2) T0 T n g1)
    as (se2 & si2 & g2 & E2 & [Le2 He2] & [Li2 Hi2]).
  exists se1, si1, g1, se2, si2, g2. do 2 eexists.
  split; [exact E1|]. split; [exact E2|]. split.
  { unfold assoc_seqs. rewrite Nat.sqrt_square.
    rewrite (bind_Ok_run _ _ _ _ _ E1), (bind_Ok_run _ _ _ _ _ E2).
    reflexivity. }
  split; [apply length_grid|]. split; [apply length_grid|].
  intros j k Hj Hk.
  rewrite (nth_error_grid (fun j k => nth j se1 [] ++ nth k se2 []))
    by assumption.
  rewrite (nth_error_grid (fun j k => nth j si1 [] ++ nth k si2 []))
    by assumption.
  split; [reflexivity|]. split; [reflexivity|].
  rewrite !length_app.
  rewrite (Forall_nth_length se1 (N_e / 2) j), (Forall_nth_length se2 (N_e - N_e / 2) k),
    (Forall_nth_length si1 (N_i / 2) j), (Forall_nth_length si2 (N_i - N_i / 2) k)
    by (assumption || lia).
  pose proof (Nat.Div0.div_le_upper_bound N_e 2 N_e ltac:(lia)).
  pose proof (Nat.Div0.div_le_upper_bound N_i 2 N_i ltac:(lia)).
  split; lia.
Qed.

End BuilderRanges.

Lemma toy_rand_unit : @rand_unit Z Toy.rng.
Proof.
  intro g. simpl.
  pose proof (Z.mod_pos_bound g 16 eq_refl) as Hm.
  split.
  - apply Qle_shift_div_l; [reflexivity|]. unfold Qle. simpl. lia.
  - apply Qlt_shift_div_r; [reflexivity|]. unfold Qlt. simpl. lia.
Qed.

Lemma build_seqs_not_before_witness :
  exists S_e S_i g',
    build_seqs (H := Toy.rng) 2 3 1 0 100 2 0%Z = Ok ((S_e, S_i), g') /\
    length S_e = 2%nat /\ length S_i = 2%nat /\
    Forall (events_from 3 2 0) S_e /\
    Forall (events_from 1 2 0) S_i.
Proof.
  apply (build_seqs_not_before (H := Toy.rng) 2 3 1 0 100 2 0%Z toy_rand_unit).
  discriminate.
Defined.

Lemma sparse_rates_values_witness :
  exists re ri g',
    sparse_rates (H := Toy.rng) 2 3 1 5 20 0%Z = Ok ((re, ri), g') /\
    Forall (Forall (fun x => x == 0 \/ x == 20 / 1000)) (re ++ ri) /\
    (1 <= 5 / 20 -> Forall (Forall (fun x => x == 20 / 1000)) (re ++ ri)) /\
    (5 / 20 <= 0 -> Forall (Forall (fun x => x == 0)) (re ++ ri)).
Proof.
  apply (sparse_rates_values (H := Toy.rng) 2 3 1 5 20 0%Z toy_rand_unit).
  discriminate.
Defined.

(* ------------------------------------------------------------------ *)

Lemma length_set_nth {A} (v : A) (L : list A) :
  forall i, length (set_nth i v L) = length L.
Proof.
  induction L as [|x L IH]; intros [|i]; simpl; auto.
Qed.

Lemma nth_set_nth_other {A} (v d : A) (L : list A) :
  forall i j, i <> j -> nth j (set_nth i v L) d = nth j L d.
Proof.
  induction L as [|x L IH]; intros [|i] [|j] Hij; simpl; auto.
  congruence.
Qed.

Lemma Forall_set_nth {A} (P : A -> Prop) (v : A) (L : list A) :
  P v -> Forall P L -> forall i, Forall P (set_nth i v L).
Proof.
  intros Hv. induction 1 as [|x L Hx HL IH]; intros [|i]; simpl;
    constructor; auto.
Qed.

Lemma count_set_nth (L : list Q) :
  forall i,
    (i < length L)%nat -> nth i L 0 = 1 ->
    count_label (- (1)) (set_nth i (- (1)) L) = S (count_label (- (1)) L).
Proof.
  unfold count_label.
  induction L as [|x L IH]; intros [|i] Hi Hx; simpl in *; try lia.
  - subst x. reflexivity.
  - destruct (Qeq_bool (- (1)) x); simpl; rewrite IH by (assumption || lia);
      reflexivity.
Qed.

Lemma set_all_count (inds : list nat) :
  forall L,
    NoDup inds ->
    (forall i, In i inds -> (i < length L)%nat /\ nth i L 0 = 1) ->
    Forall (fun x => x = 1 \/ x = - (1)) L ->
    length (set_all inds (- (1)) L) = length L /\
    Forall (fun x => x = 1 \/ x = - (1)) (set_all inds (- (1)) L) /\
    count_label (- (1)) (set_all inds (- (1)) L)
    = (count_label (- (1)) L + length inds)%nat.
Proof.
  unfold set_all.
  induction inds as [|i inds IH]; intros L Hnd Hin HL; simpl.
  - repeat split; [exact HL | lia].
  - inversion Hnd as [|? ? Hni Hnd']; subst.
    destruct (Hin i (or_introl eq_refl)) as [Hi Hx].
    destruct (IH (set_nth i (- (1)) L)) as (Hlen & Hpm & Hcount).
    + exact Hnd'.
    + intros j Hj. rewrite length_set_nth.
      destruct (Hin j (or_intror Hj)) as [Hj1 Hj2].
      split; [exact Hj1|].
      rewrite nth_set_nth_other by (intros ->; contradiction). exact Hj2.
    + apply Forall_set_nth; [right; reflexivity | exact HL].
    + rewrite Hlen, length_set_nth, Hcount, count_set_nth by assumption.
      repeat split; [exact Hpm | lia].
Qed.

Lemma count_labels_total (L : list Q) :
  Forall (fun x => x = 1 \/ x = - (1)) L ->
  (count_label 1 L + count_label (- (1)) L = length L)%nat.
Proof.
  unfold count_label.
  induction 1 as [|x L [->| ->] _ IH]; simpl; lia.
Qed.

Lemma count_label_ones (p : nat) : count_label (- (1)) (repeat 1 p) = 0%nat.
Proof.
  unfold count_label. induction p as [|p IH]; simpl; [reflexivity | exact IH].
Qed.

Lemma NoDup_firstn {A} (n : nat) (l : list A) :
  NoDup l -> NoDup (firstn n l).
Proof.
  intro Hl. rewrite <- (firstn_skipn n l) in Hl.
  apply NoDup_app_remove_r in Hl. exact Hl.
Qed.

Lemma In_firstn {A} (n : nat) (l : list A) (x : A) :
  In x (firstn n l) -> In x l.
Proof.
  intro Hx. rewrite <- (firstn_skipn n l). apply in_or_app. left. exact Hx.
Qed.

(** X17: [assign_labels(p)] returns [p] labels, each [1] or [-1], of which
    exactly [p // 2] are [-1] and the other [p - p // 2] are [1] (a shuffle
    being a permutation); for an odd [p] the extra pattern is labelled
    [1]. *)
Theorem assign_labels_balanced {G : Type} `{RandomShuffle G} (p : nat) (g : G) :
  shuffle_permutes G ->
  exists L g',
    assign_labels p g = Ok (L, g') /\
    length L = p /\
    Forall (fun x => x = 1 \/ x = - (1)) L /\
    count_label (- (1)) L = (p / 2)%nat /\
    count_label 1 L = (p - p / 2)%nat.
Proof.
  intro Hperm. unfold assign_labels. do 2 eexists. split; [reflexivity|].
  specialize (Hperm (seq 0 p) g).
  set (inds := fst (np_random_shuffle (seq 0 p) g)) in *.
  assert (Hlen : length inds = p)
    by (rewrite <- (Permutation_length Hperm); apply length_seq).
  assert (Hhalf : (p / 2 <= p)%nat)
    by (apply Nat.Div0.div_le_upper_bound; lia).
  destruct (set_all_count (firstn (p / 2) inds) (repeat 1 p))
    as (HL & Hpm & Hcount).
  - apply NoDup_firstn. eapply Permutation_NoDup; [exact Hperm|].
    apply seq_NoDup.
  - intros i Hi. apply In_firstn in Hi.
    eapply Permutation_in in Hi; [|apply Permutation_sym; exact Hperm].
    apply in_seq in Hi. rewrite repeat_length. split; [lia|].
    apply nth_repeat_lt. lia.
  - apply Forall_forall. intros x Hx. apply repeat_spec in Hx. auto.
  - rewrite repeat_length in HL.
    rewrite count_label_ones, length_firstn, Hlen in Hcount.
    split; [exact HL|]. split; [exact Hpm|].
    split; [lia|].
    pose proof (count_labels_total _ Hpm). lia.
Qed.

Lemma toy_shuffle_permutes : @shuffle_permutes Z ToyDraws.shuffle.
Proof.
  intros l g. simpl. destruct (Z.even g);
    [apply Permutation_rev | apply Permutation_refl].
Qed.

Lemma assign_labels_balanced_witness :
  exists L g',
    assign_labels (H0 := ToyDraws.shuffle) 10 0%Z = Ok (L, g') /\
    length L = 10%nat /\
    Forall (fun x => x = 1 \/ x = - (1)) L /\
    count_label (- (1)) L = (10 / 2)%nat /\
    count_label 1 L = (10 - 10 / 2)%nat.
Proof.
  apply (assign_labels_balanced (H := ToyDraws.shuffle) 10 0%Z).
  exact toy_shuffle_permutes.
Defined.

(* ------------------------------------------------------------------ *)

(** X18: [lognormal_rates] reseeds from the clock in every pass of its
    loop, so when all [p] passes read the same clock second (a valid seed)
    and [sigma] is not negative, every pattern is the same draw: the [p]
    excitatory vectors are equal, and so are the [p] inhibitory ones; they
    have [N_e] and [N_i] entries. *)
Theorem lognormal_rates_same_second
        {G : Type} `{RandomState G} `{RandomLogNormal G}
        (clock : nat -> Z) (c : Z) (p N_e N_i : nat) (mu sigma : Q) (g : G) :
  (forall k, (k < p)%nat -> clock k = c) ->
  (0 <= c < 2 ^ 32)%Z ->
  0 <= sigma ->
  let rates :=
    map (Qmult (1 # 1000))
        (fst (np_random_lognormal mu sigma (N_e + N_i) (np_random_seed c))) in
  (exists g',
      lognormal_rates clock p N_e N_i mu sigma g
      = Ok ((repeat (firstn N_e rates) p, repeat (skipn N_e rates) p), g')) /\
  (lognormal_sized G ->
   length (firstn N_e rates) = N_e /\ length (skipn N_e rates) = N_i).
Proof.
  intros Hclock Hc Hsigma rates. split.
  - unfold lognormal_rates.
    assert (Hseed : ((0 <=? c) && (c <? 2 ^ 32))%Z = true).
    { apply andb_true_iff. split; [apply Z.leb_le | apply Z.ltb_lt]; lia. }
    assert (Hloop :
      forall ks g0,
        (forall k, In k ks -> clock k = c) ->
        exists g1,
          mapM (fun k =>
                  bind (seed (clock k))
                    (fun _ =>
                       bind (lognormal mu sigma (N_e + N_i))
                         (fun draw =>
                            let rates := map (Qmult (1 # 1000)) draw in
                            ret (firstn N_e rates, skipn N_e rates))))
               ks g0
          = Ok (repeat (firstn N_e rates, skipn N_e rates) (length ks), g1)).
    { induction ks as [|k ks IH]; intros g0 Hks; cbn [mapM length repeat].
      - eexists. reflexivity.
      - destruct (IH (snd (np_random_lognormal mu sigma (N_e + N_i)
                             (np_random_seed c)))
                     (fun k' Hk' => Hks k' (or_intror Hk'))) as (g1 & E1).
        exists g1.
        erewrite bind_Ok_run;
          [|unfold bind, seed, lognormal, ret; cbn [fst snd];
            rewrite (Hks k (or_introl eq_refl)), Hseed;
            rewrite (proj2 (Qltb_ge sigma 0)) by exact Hsigma;
            reflexivity].
        rewrite (bind_Ok_run _ _ _ _ _ E1). reflexivity. }
    destruct (Hloop (seq 0 p) g) as (g1 & E1).
    { intros k Hk. apply in_seq in Hk. apply Hclock. lia. }
    exists g1. rewrite length_seq in E1.
    rewrite (bind_Ok_run _ _ _ _ _ E1). unfold ret.
    f_equal. f_equal. f_equal.
    + clear. induction p; simpl; [|rewrite IHp]; reflexivity.
    + clear. induction p; simpl; [|rewrite IHp]; reflexivity.
  - intro Hsize. subst rates.
    rewrite length_firstn, length_skipn, !length_map, Hsize. lia.
Qed.

Lemma lognormal_rates_same_second_witness :
  let rates :=
    map (Qmult (1 # 1000))
        (fst (@np_random_lognormal Z ToyDraws.lognormal 1 (1 # 2) (2 + 1)
                (@np_random_seed Z Toy.rng 7))) in
  (exists g',
      lognormal_rates (H := Toy.rng) (H0 := ToyDraws.lognormal)
                      (fun _ => 7%Z) 3 2 1 1 (1 # 2) 0%Z
      = Ok ((repeat (firstn 2 rates) 3, repeat (skipn 2 rates) 3), g')) /\
  (@lognormal_sized Z ToyDraws.lognormal ->
   length (firstn 2 rates) = 2%nat /\ length (skipn 2 rates) = 1%nat).
Proof.
  apply (lognormal_rates_same_second (H := Toy.rng) (H0 := ToyDraws.lognormal)
           (fun _ => 7%Z) 7%Z 3 2 1 1 (1 # 2) 0%Z).
  - reflexivity.
  - lia.
  - unfold Qle; simpl; lia.
Defined.

(* ------------------------------------------------------------------ *)

Section TimeSequenceDivisible.
Context {G : Type} `{RandomState G}.

Lemma time_sequence_pattern_ok (p N_e N_i : nat) (T0 T : Q) (n : nat)
      (deltaT : Q) (order : list nat) (g : G) :
  (1 <= p)%nat -> (N_e mod p = 0)%nat -> (N_i mod p = 0)%nat ->
  exists r g',
    time_sequence_pattern p N_e N_i T0 T n deltaT order g = Ok (r, g') /\
    length (fst r) = N_e /\ length (snd r) = N_i.
Proof.
  intros Hp He Hi. unfold time_sequence_pattern.
  match goal with
  | |- context [mapM ?f (seq 0 p)] =>
      destruct (mapM_spec f
                  (fun r =>
                     (length (fst r) = p
                      /\ Forall (fun v => length v = (N_e / p)%nat) (fst r)) /\
                     (length (snd r) = p
                      /\ Forall (fun v => length v = (N_i / p)%nat) (snd r)))
                  (seq 0 p))
        with (g := g) as (bs & g' & E & Hn & Hbs)
  end.
  { intros i g0. cbv beta zeta.
    match goal with
    | |- context [build_seqs p ?a ?b ?c ?d n g0] =>
        destruct (build_seqs_run p a b c d n g0)
          as (Se & Si & g1 & E1 & HSe & HSi)
    end.
    exists (Se, Si), g1. split; [exact E1 | split; assumption]. }
  rewrite length_seq in Hn.
  assert (Hne : forall f : list (list (list Q)) * list (list (list Q))
                           -> list (list (list Q)),
             map f bs <> []).
  { intros f E0. apply (f_equal (@length _)) in E0.
    rewrite length_map in E0. simpl in E0. lia. }
  destruct (hstack_first (map fst bs) p (N_e / p) Hp (Hne _)) as [_ Le].
  { apply Forall_map. eapply Forall_impl; [|exact Hbs]. intros r [Hr1 _].
    exact Hr1. }
  destruct (hstack_first (map snd bs) p (N_i / p) Hp (Hne _)) as [_ Li].
  { apply Forall_map. eapply Forall_impl; [|exact Hbs]. intros r [_ Hr2].
    exact Hr2. }
  rewrite length_map, Hn in Le, Li.
  rewrite (bind_Ok_run _ _ _ _ _ E).
  rewrite !check_groups_run by assumption.
  rewrite He, Hi. cbn [Nat.eqb].
  do 2 eexists. split; [reflexivity|]. cbn [fst snd].
  rewrite !length_map, !length_seq, Le, Li.
  pose proof (Nat.div_mod_eq N_e p). pose proof (Nat.div_mod_eq N_i p).
  split; lia.
Qed.

End TimeSequenceDivisible.

(** X27: when [p >= 1] divides both [N_e] and [N_i],
    [assoc_seqs_time_sequence] returns one pattern per permutation of the
    [p] groups, [p!] of each kind, and every pattern has [N_e] resp. [N_i]
    trains. *)
Theorem assoc_seqs_time_sequence_divisible {G : Type} `{RandomState G}
        (p N_e N_i : nat) (T0 T : Q) (n : nat) (deltaT : Q) (g : G) :
  (1 <= p)%nat -> (N_e mod p = 0)%nat -> (N_i mod p = 0)%nat ->
  exists S_e S_i g',
    assoc_seqs_time_sequence p N_e N_i T0 T n deltaT g
    = Ok ((S_e, S_i), g') /\
    length S_e = fact p /\ length S_i = fact p /\
    Forall (fun s_e => length s_e = N_e) S_e /\
    Forall (fun s_i => length s_i = N_i) S_i.
Proof.
  intros Hp He Hi. unfold assoc_seqs_time_sequence.
  destruct (Nat.eqb_spec p 0) as [E0|_]; [lia|].
  destruct (mapM_spec (time_sequence_pattern p N_e N_i T0 T n deltaT)
              (fun r => length (fst r) = N_e /\ length (snd r) = N_i)
              (permutations (seq 0 p)))
    with (g := g) as (S & g' & E & Hn & HS).
  { intros order g0.
    destruct (time_sequence_pattern_ok p N_e N_i T0 T n deltaT order g0
                Hp He Hi) as (r & g1 & E1 & H1 & H2).
    eauto. }
  rewrite length_permutations, length_seq in Hn.
  exists (map fst S), (map snd S), g'.
  rewrite (bind_Ok_run _ _ _ _ _ E). split; [reflexivity|].
  rewrite !length_map, !Forall_map. repeat split; try assumption.
  - eapply Forall_impl; [|exact HS]. intros r [Hr1 _]. exact Hr1.
  - eapply Forall_impl; [|exact HS]. intros r [_ Hr2]. exact Hr2.
Qed.

Lemma assoc_seqs_time_sequence_divisible_witness :
  exists S_e S_i g',
    assoc_seqs_time_sequence (H := Toy.rng) 2 4 2 0 100 1 20 0%Z
    = Ok ((S_e, S_i), g') /\
    length S_e = fact 2 /\ length S_i = fact 2 /\
    Forall (fun s_e => length s_e = 4%nat) S_e /\
    Forall (fun s_i => length s_i = 2%nat) S_i.
Proof.
  apply (assoc_seqs_time_sequence_divisible (H := Toy.rng)
           2 4 2 0 100 1 20 0%Z); [lia | reflexivity | reflexivity].
Defined.

(* ================================================================== *)
(** * Further properties of the generators *)

Lemma tltb_teq (a a' b : time) : teq a a' -> tltb a b = tltb a' b.
Proof.
  destruct a as [x|], a' as [x'|], b as [y|]; simpl; try tauto.
  intro E. unfold Qltb. rewrite E. reflexivity.
Qed.

Lemma fold_tadd_teq (r : list time) :
  forall a a', teq a a' -> teq (fold_left tadd r a) (fold_left tadd r a').
Proof.
  induction r as [|x r IH]; intros a a' E; simpl; [exact E|].
  apply IH. destruct a, a', x; simpl in *; try tauto. rewrite E. reflexivity.
Qed.

Lemma cumsum_removelast (P : time -> Prop) (r : list time) :
  forall x,
    Forall P (cumsum (x :: r)) <->
    Forall P (cumsum (removelast (x :: r))) /\ P (fold_left tadd r x).
Proof.
  induction r as [|y r IH]; intro x.
  - simpl. split.
    + intro Hx. inversion Hx. split; [constructor | assumption].
    + intros [_ Hx]. constructor; [exact Hx | constructor].
  - specialize (IH (tadd x y)).
    change (cumsum (x :: y :: r)) with (x :: cumsum (tadd x y :: r)).
    replace (cumsum (removelast (x :: y :: r)))
      with (x :: cumsum (removelast (tadd x y :: r)))
      by (simpl; destruct r; reflexivity).
    change (fold_left tadd (y :: r) x) with (fold_left tadd r (tadd x y)).
    split.
    + intro Hx. inversion Hx as [|? ? Hx1 Hx2]; subst.
      apply IH in Hx2. destruct Hx2 as [Hx2 Hx3].
      split; [constructor; assumption | exact Hx3].
    + intros [Hx Hx3]. inversion Hx as [|? ? Hx1 Hx2]; subst.
      constructor; [exact Hx1|]. apply IH. split; assumption.
Qed.

Lemma cumsum_nonneg (qs : list Q) :
  Forall (Qle 0) qs ->
  Forall (fun c => exists q, c = Fin q /\ 0 <= q) (cumsum (map Fin qs)).
Proof.
  intros Hqs. destruct Hqs as [|q qs Hq Hqs]; simpl; [constructor|].
  constructor; [eauto|].
  destruct (cumsum_from_fin qs Hqs q) as (real & -> & _ & Hle).
  apply Forall_map. eapply Forall_impl; [|exact Hle].
  intros c Hc. simpl in Hc. exists c. split; [reflexivity | lra].
Qed.

Section StationaryRange.
Context {G : Type} `{RandomState G}.

(** What the stationary loop keeps true of [spike_times]: the draws are
    real and not negative, and every partial sum but the last is below the
    span. *)
Lemma while_sum_below_range (rate span : Q) :
  exponential_nonneg G ->
  forall fuel st g st' g',
    while_sum_below fuel rate span st g = Ok (st', g') ->
    (exists qs, st = map Fin qs /\ qs <> [] /\ Forall (Qle 0) qs) ->
    Forall (fun c => tltb c (Fin span) = true) (cumsum (removelast st)) ->
    (exists qs, st' = map Fin qs /\ Forall (Qle 0) qs) /\
    Forall (fun c => tltb c (Fin span) = true) (cumsum (removelast st')).
Proof.
  intros Hnn. induction fuel as [|fuel IH]; intros st g st' g' E Hst Hinv;
    simpl in E; destruct (tltb (tsum st) (Fin span)) eqn:Ec.
  - discriminate.
  - injection E as <- _. destruct Hst as (qs & -> & _ & Hqs). eauto.
  - apply bind_Ok in E. destruct E as (x & g1 & Ex & E).
    apply (IH _ _ _ _ E).
    + destruct Hst as (qs & -> & Hne & Hqs). exists (qs ++ [x]).
      split; [rewrite map_app; reflexivity|].
      split; [destruct qs; discriminate|].
      apply Forall_app. split; [exact Hqs|].
      constructor; [|constructor]. eapply exponential_inv_Ok; eassumption.
    + rewrite removelast_last.
      destruct Hst as (qs & -> & Hne & _).
      destruct qs as [|q qs]; [congruence|]. simpl map.
      apply cumsum_removelast. split; [exact Hinv|].
      rewrite <- Ec. symmetry. apply tltb_teq.
      unfold tsum. simpl fold_left. apply fold_tadd_teq. simpl. ring.
  - injection E as <- _. destruct Hst as (qs & -> & _ & Hqs). eauto.
Qed.

Lemma stationary_train_range (fuel : nat) (rate rate1 T0 T : Q) g s g' :
  exponential_nonneg G ->
  stationary_train fuel rate rate1 T0 T g = Ok (s, g') ->
  Forall (fun x => exists q, x = Fin q /\ T0 <= q /\ q < T) s.
Proof.
  intros Hnn E. destruct (Qlt_le_dec 0 rate) as [Hr|Hr].
  - unfold stationary_train in E. apply Qltb_lt in Hr. rewrite Hr in E.
    apply bind_Ok in E. destruct E as (first & g1 & E1 & E).
    apply bind_Ok in E. destruct E as (st & g2 & E2 & E).
    injection E as <- _.
    apply bind_Ok in E1. destruct E1 as (x & g0 & Ex & E1).
    injection E1 as <- <-.
    destruct (while_sum_below_range rate1 (T - T0) Hnn _ _ _ _ _ E2)
      as ((qs & -> & Hqs) & Hinv).
    + exists [x]. split; [reflexivity|]. split; [discriminate|].
      constructor; [|constructor]. eapply exponential_inv_Ok; eassumption.
    + constructor.
    + rewrite removelast_map_Fin in *.
      pose proof (cumsum_nonneg _ (Forall_removelast _ _ Hqs)) as Hpos.
      apply Forall_map. rewrite Forall_forall in *.
      intros c Hc. destruct (Hpos c Hc) as (q & -> & Hq).
      specialize (Hinv _ Hc). simpl in Hinv. apply Qltb_lt in Hinv.
      exists (T0 + q). split; [reflexivity|]. lra.
  - rewrite stationary_train_silent in E by exact Hr.
    injection E as <- _. constructor.
Qed.

Lemma pad_within (T0 T : Q) (s_k out : list (list time)) (g g' : G) :
  Forall (Forall (fun x => exists q, x = Fin q /\ T0 <= q /\ q < T)) s_k ->
  pad s_k g = Ok (out, g') ->
  Forall (Forall (within T0 T)) out.
Proof.
  intros Hs E. apply pad_Ok in E. subst out.
  apply Forall_map. eapply Forall_impl; [|exact Hs].
  intros s Hrow. apply Forall_app. split.
  - eapply Forall_impl; [|exact Hrow]. intros x Hx. right. exact Hx.
  - apply Forall_forall. intros x Hx. apply repeat_spec in Hx. left. exact Hx.
Qed.

Lemma pad_rectangular (s_k out : list (list time)) (g g' : G) :
  pad s_k g = Ok (out, g') ->
  length out = length s_k /\
  Forall (fun row => length row = list_max (map (@length time) s_k)) out.
Proof.
  intro E. apply pad_Ok in E. subst out. split; [apply length_map|].
  apply Forall_map. apply Forall_forall. intros s Hs.
  rewrite length_app, repeat_length.
  assert (length s <= list_max (map (@length time) s_k))%nat; [|lia].
  pose proof (proj1 (list_max_le (map (@length time) s_k) _) (le_n _)) as Hle.
  rewrite Forall_forall in Hle. apply Hle, in_map, Hs.
Qed.

End StationaryRange.

(** X19: [build_rate_seq] raises [ValueError] on an empty list of rates;
    when it returns, the table has one row per rate and all rows have the
    same width. *)
Theorem build_rate_seq_shape {G : Type} `{RandomState G}
        (fuel : nat) (now : Z) (rates : list Q) (T0 T : Q) (g : G) :
  (rates = [] -> build_rate_seq fuel now rates T0 T g = Raise ValueError) /\
  (forall out g',
      build_rate_seq fuel now rates T0 T g = Ok (out, g') ->
      rates <> [] /\ length out = length rates /\
      exists width, Forall (fun row => length row = width) out).
Proof.
  split.
  - intros ->. unfold build_rate_seq, bind, seed.
    destruct ((0 <=? now) && (now <? 2 ^ 32))%Z; reflexivity.
  - intros out g' E. split.
    { intros ->. unfold build_rate_seq, bind, seed in E.
      destruct ((0 <=? now) && (now <? 2 ^ 32))%Z; discriminate. }
    apply build_rate_seq_rows in E. destruct E as (s_k & g1 & g2 & Es & E).
    apply pad_rectangular in E. destruct E as [Hlen Hrect].
    apply (mapM_Ok _ (fun _ _ => True)) in Es; [|auto].
    apply Forall2_length in Es. split; [congruence | eauto].
Qed.

(** X20: no spike precedes [T0]: every real spike time [build_rate_seq]
    returns is at least [T0] (exponential variates being non-negative),
    and so is every one that [build_rate_seq_modulated] returns for
    [mod_freq = 0]. *)
Theorem build_rate_seq_not_before {G : Type} `{RandomState G} `{NumPyMath}
        (fuel : nat) (now : Z) (rates : list Q) (T0 T : Q) :
  exponential_nonneg G ->
  (forall (g g' : G) out,
      build_rate_seq fuel now rates T0 T g = Ok (out, g') ->
      Forall (Forall (not_before T0)) out) /\
  (forall mod_freq mod_list t_win dt mod_amp (g g' : G) out,
      mod_freq == 0 ->
      build_rate_seq_modulated fuel now rates T0 T mod_freq mod_list
                               t_win dt mod_amp g = Ok (out, g') ->
      Forall (Forall (not_before T0)) out).
Proof.
  intro Hnn.
  assert (Hweak : forall out : list (list time),
             Forall (Forall (within T0 T)) out ->
             Forall (Forall (not_before T0)) out).
  { intros out Hout. eapply Forall_impl; [|exact Hout].
    intros row Hrow. eapply Forall_impl; [|exact Hrow].
    intros x [->|(q & -> & Hq & _)]; [left; reflexivity|].
    right. exists q. split; [reflexivity | exact Hq]. }
  split.
  - intros g g' out E. apply Hweak.
    apply build_rate_seq_rows in E. destruct E as (s_k & g1 & g2 & Es & E).
    eapply pad_within; [|exact E].
    eapply Forall2_right, mapM_Ok; [|exact Es].
    cbv beta. intros x g0 b g0' Eb.
    eapply stationary_train_range; [exact Hnn | exact Eb].
  - intros mod_freq mod_list t_win dt mod_amp g g' out Hf E. apply Hweak.
    unfold build_rate_seq_modulated in E.
    apply bind_Ok in E. destruct E as (t & ga & _ & E).
    apply bind_Ok in E. destruct E as (u & g1 & _ & E).
    apply bind_Ok in E. destruct E as (s_k & g2 & Es & E).
    eapply pad_within; [|exact E].
    rewrite (Qeq_eq_bool _ _ Hf) in Es.
    destruct (0 <? length mod_list)%nat;
      (eapply Forall2_right, mapM_Ok; [|exact Es]);
      cbv beta; intros x g0 b g0' Eb;
      try destruct (existsb _ mod_list);
      eapply stationary_train_range; solve [exact Hnn | exact Eb].
Qed.

Lemma build_rate_seq_not_before_witness :
  exists out g',
    build_rate_seq (H := Toy.rng) 50 2 [1 # 100; 0] 0 200 0%Z = Ok (out, g') /\
    Forall (Forall (not_before 0)) out.
Proof.
  do 2 eexists. split; [vm_compute; reflexivity|].
  eapply (proj1 (build_rate_seq_not_before (H := Toy.rng) (H0 := Toy.math)
                                           50 2 [1 # 100; 0] 0 200
                                           toy_exponential_nonneg) 0%Z).
  vm_compute. reflexivity.
Defined.

(* ------------------------------------------------------------------ *)

Lemma nth_arange (start stop step : Q) (i : nat) :
  (i < length (arange start stop step))%nat ->
  nth i (arange start stop step) 0 = start + inject_Z (Z.of_nat i) * step.
Proof.
  unfold arange. rewrite length_map, length_seq. intro Hi.
  rewrite (nth_indep _ 0 (start + inject_Z (Z.of_nat 0) * step))
    by (rewrite length_map, length_seq; exact Hi).
  rewrite (map_nth (fun i => start + inject_Z (Z.of_nat i) * step)).
  rewrite seq_nth by exact Hi. reflexivity.
Qed.

Lemma StronglySorted_app_lt (l1 l2 : list Q) (m : Q) :
  StronglySorted Qlt l1 -> StronglySorted Qlt l2 ->
  Forall (fun x => x < m) l1 -> Forall (fun x => m <= x) l2 ->
  StronglySorted Qlt (l1 ++ l2).
Proof.
  intros H1 H2 Hl1 Hl2. induction H1 as [|a l1 Hs IH Ha]; simpl; [exact H2|].
  inversion Hl1; subst. constructor; [apply IH; assumption|].
  apply Forall_app. split; [exact Ha|].
  eapply Forall_impl; [|exact Hl2]. intros x Hx. simpl in Hx. lra.
Qed.

Lemma StronglySorted_lt_le (l : list Q) :
  StronglySorted Qlt l -> StronglySorted Qle l.
Proof.
  induction 1 as [|a l Hs IH Ha]; constructor; [exact IH|].
  eapply Forall_impl; [|exact Ha]. intros x Hx. apply Qlt_le_weak. exact Hx.
Qed.

Section PoissonWindows.
Context {G : Type} `{RandomState G}.

Lemma window_spikes_spec (fr t_next : Q) :
  exponential_nonneg G ->
  forall fuel t_spike g out g',
    window_spikes fuel fr t_next t_spike g = Ok (out, g') ->
    StronglySorted Qlt out /\
    Forall (fun x => t_spike < x /\ x < t_next) out.
Proof.
  intro Hnn. induction fuel as [|fuel IH]; intros t_spike g out g' E;
    simpl in E; destruct (Qltb t_spike t_next) eqn:Ec; try discriminate;
    try (injection E as <- _; split; constructor).
  apply bind_Ok in E. destruct E as (a & g1 & Ea & E).
  apply bind_Ok in E. destruct E as (rest & g2 & Er & E).
  injection E as <- _.
  pose proof (exponential_inv_Ok _ _ _ _ Hnn Ea) as Ha.
  destruct (IH _ _ _ _ Er) as [Hs Hb].
  assert (Hb' : Forall (fun x => t_spike < x /\ x < t_next) rest).
  { eapply Forall_impl; [|exact Hb]. intros x Hx. simpl in Hx. lra. }
  destruct (Qltb (t_spike + a) t_next && Qltb 0 a) eqn:Ek;
    [|split; assumption].
  apply andb_true_iff in Ek. destruct Ek as [E1 E2].
  apply Qltb_lt in E1, E2. split.
  - constructor; [exact Hs|].
    eapply Forall_impl; [|exact Hb]. intros x Hx. simpl in Hx. lra.
  - constructor; [lra | exact Hb'].
Qed.

(** The trains of consecutive windows, glued together. *)
Lemma windows_concat_sorted (t_win : Q) (t_squ : list Q) :
  0 < t_win ->
  (forall i, (i < length t_squ)%nat ->
             nth i t_squ 0 = 0 + inject_Z (Z.of_nat i) * t_win) ->
  forall (m k0 : nat) (FR : list Q) (trains : list (list Q)),
    (k0 + m < length t_squ)%nat ->
    Forall2 (fun ifr train =>
               StronglySorted Qlt train /\
               Forall (fun x => nth (fst ifr) t_squ 0 < x /\
                                x < nth (fst ifr + 1) t_squ 0) train)
            (combine (seq k0 m) FR) trains ->
    StronglySorted Qlt (concat trains) /\
    Forall (fun x => inject_Z (Z.of_nat k0) * t_win < x /\
                     x < inject_Z (Z.of_nat (k0 + m)) * t_win)
           (concat trains).
Proof.
  intros Hw Hnth. induction m as [|m IH]; intros k0 FR trains Hk F.
  - simpl in F. inversion F; subst. split; constructor.
  - destruct FR as [|fr FR]; simpl in F;
      [inversion F; subst; split; constructor|].
    inversion F as [|? train ? trains' [Hs Hb] F']; subst. cbn [fst] in Hb.
    destruct (IH (S k0) FR trains' ltac:(lia) F') as [Hs' Hb'].
    rewrite (Hnth k0), (Hnth (k0 + 1)%nat) in Hb by lia.
    assert (Hk1 : inject_Z (Z.of_nat (k0 + 1)) == inject_Z (Z.of_nat k0) + 1).
    { rewrite Nat2Z.inj_add, inject_Z_plus. reflexivity. }
    assert (HkS : inject_Z (Z.of_nat (S k0)) == inject_Z (Z.of_nat k0) + 1).
    { rewrite Nat2Z.inj_succ. unfold Z.succ. rewrite inject_Z_plus.
      reflexivity. }
    assert (Hkm : inject_Z (Z.of_nat (S k0)) <= inject_Z (Z.of_nat (k0 + S m))).
    { rewrite <- Zle_Qle. lia. }
    assert (Hkm' : inject_Z (Z.of_nat (S k0 + m))
                   == inject_Z (Z.of_nat (k0 + S m))).
    { replace (S k0 + m)%nat with (k0 + S m)%nat by lia. reflexivity. }
    simpl concat. split.
    + apply (StronglySorted_app_lt _ _ (inject_Z (Z.of_nat (S k0)) * t_win));
        try assumption.
      * eapply Forall_impl; [|exact Hb]. intros x Hx. cbv beta in Hx.
        rewrite Hk1 in Hx. rewrite HkS. lra.
      * eapply Forall_impl; [|exact Hb']. intros x Hx. cbv beta in Hx. lra.
    + apply Forall_app. split.
      * eapply Forall_impl; [|exact Hb]. intros x Hx. cbv beta in Hx.
        rewrite Hk1 in Hx. rewrite HkS in Hkm. split; [lra | nra].
      * eapply Forall_impl; [|exact Hb']. intros x Hx. cbv beta in Hx.
        rewrite Hkm', HkS in Hx. split; [nra | lra].
Qed.

End PoissonWindows.

(** X21: for [t_win > 0] (and non-negative exponential variates) the train
    [gen_poisson_spikes] returns is in ascending order and every spike time
    is positive. *)
Theorem gen_poisson_spikes_ordered {G : Type} `{RandomState G}
        (fuel : nat) (FR : list Q) (t_win dt tstop : Q) (g g' : G)
        (out : list Q) :
  exponential_nonneg G -> 0 < t_win ->
  gen_poisson_spikes fuel FR t_win dt tstop g = Ok (out, g') ->
  StronglySorted Qle out /\ Forall (fun x => 0 < x) out.
Proof.
  intros Hnn Hw E. unfold gen_poisson_spikes in E.
  apply bind_Ok in E. destruct E as (t_squ & ga & Ea & E).
  apply np_arange_Ok in Ea. destruct Ea as (_ & Esq & ->).
  destruct (Z.of_nat (length FR) <? Z.of_nat (length t_squ) - 1)%Z;
    [discriminate|].
  apply bind_Ok in E. destruct E as (trains & g1 & Et & E).
  injection E as <- _.
  apply (mapM_Ok _ (fun ifr train =>
                      StronglySorted Qlt train /\
                      Forall (fun x => nth (fst ifr) t_squ 0 < x /\
                                       x < nth (fst ifr + 1) t_squ 0) train))
    in Et.
  - destruct (length t_squ) as [|n] eqn:En.
    { simpl in Et. inversion Et; subst. split; constructor. }
    destruct (windows_concat_sorted t_win t_squ Hw) with
      (m := n) (k0 := 0%nat) (FR := FR) (trains := trains) as [Hs Hb].
    + intros i Hi. rewrite Esq. apply nth_arange. rewrite <- Esq. exact Hi.
    + lia.
    + replace (S n - 1)%nat with n in Et by lia. exact Et.
    + split.
      * apply StronglySorted_lt_le. exact Hs.
      * eapply Forall_impl; [|exact Hb]. intros x Hx. simpl in Hx.
        change (inject_Z 0) with 0 in Hx. lra.
  - intros [i fr] g0 train g0' Et0. cbn [fst snd] in *.
    destruct (Qle_bool fr 0).
    + injection Et0 as <- _. split; constructor.
    + eapply window_spikes_spec; eassumption.
Qed.

Lemma gen_poisson_spikes_ordered_witness :
  exists out g',
    gen_poisson_spikes (H := Toy.rng) 50 [1 # 2; 0; 1; 1 # 4] 10 (1 # 10) 30 0%Z
    = Ok (out, g') /\
    StronglySorted Qle out /\ Forall (fun x => 0 < x) out.
Proof.
  do 2 eexists. split; [vm_compute; reflexivity|].
  eapply (gen_poisson_spikes_ordered (H := Toy.rng) 50 [1 # 2; 0; 1; 1 # 4]
            10 (1 # 10) 30 0%Z).
  - exact toy_exponential_nonneg.
  - reflexivity.
  - vm_compute. reflexivity.
Defined.

(** X22: when no rate of [FR] is positive, a call of [gen_poisson_spikes]
    that returns has produced no spike and drawn no variate: the train is
    empty and the generator is in the state it was in. *)
Theorem gen_poisson_spikes_silent {G : Type} `{RandomState G}
        (fuel : nat) (FR : list Q) (t_win dt tstop : Q) (g g' : G)
        (out : list Q) :
  Forall (fun fr => fr <= 0) FR ->
  gen_poisson_spikes fuel FR t_win dt tstop g = Ok (out, g') ->
  out = [] /\ g' = g.
Proof.
  intros Hfr E. unfold gen_poisson_spikes in E.
  apply bind_Ok in E. destruct E as (t_squ & ga & Ea & E).
  apply np_arange_Ok in Ea. destruct Ea as (_ & _ & ->).
  destruct (Z.of_nat (length FR) <? Z.of_nat (length t_squ) - 1)%Z;
    [discriminate|].
  revert E. generalize (length t_squ - 1)%nat. intros m E.
  assert (Hloop :
    forall ifrs,
      Forall (fun ifr : nat * Q => snd ifr <= 0) ifrs ->
      mapM (fun ifr : nat * Q =>
              if Qle_bool (snd ifr) 0 then ret []
              else window_spikes fuel (snd ifr)
                     (nth (fst ifr + 1) t_squ 0) (nth (fst ifr) t_squ 0))
           ifrs g
      = Ok (repeat [] (length ifrs), g)).
  { induction 1 as [|ifr ifrs Hi _ IH]; [reflexivity|].
    cbn [mapM length repeat]. apply Qle_bool_iff in Hi.
    erewrite bind_Ok_run; [|rewrite Hi; reflexivity].
    rewrite (bind_Ok_run _ _ _ _ _ IH). reflexivity. }
  erewrite bind_Ok_run in E.
  2:{ apply Hloop.
      apply Forall_forall. intros [i fr] Hin. apply in_combine_r in Hin.
      rewrite Forall_forall in Hfr. apply Hfr, Hin. }
  injection E as <- <-. split; [|reflexivity].
  generalize (length (combine (seq 0 m) FR)). intro n.
  induction n as [|n IH]; simpl; [reflexivity | exact IH].
Qed.

Lemma gen_poisson_spikes_silent_witness :
  exists out g',
    gen_poisson_spikes (H := Toy.rng) 0 [0; 0; - (5); 0] 10 (1 # 10) 30 7%Z
    = Ok (out, g') /\
    out = [] /\ g' = 7%Z.
Proof.
  do 2 eexists. split; [vm_compute; reflexivity|].
  apply (gen_poisson_spikes_silent (H := Toy.rng) 0 [0; 0; - (5); 0]
           10 (1 # 10) 30 7%Z).
  - repeat constructor; discriminate.
  - vm_compute. reflexivity.
Defined.

(* ------------------------------------------------------------------ *)

Lemma nth_error_enumerate {A} (l : list A) :
  forall k0 i x,
    nth_error l i = Some x ->
    nth_error (combine (seq k0 (length l)) l) i = Some ((k0 + i)%nat, x).
Proof.
  induction l as [|y l IH]; intros k0 [|i] x E; simpl in *; try discriminate.
  - injection E as ->. rewrite Nat.add_0_r. reflexivity.
  - rewrite (IH (S k0) i x E). f_equal. f_equal. lia.
Qed.

(** X23: with a modulation frequency other than [0],
    [build_rate_seq_modulated] returns only if every modulated rate is
    positive: a rate [<= 0] of a modulated synapse (any synapse when
    [mod_list] is empty) makes the call fail. *)
Theorem build_rate_seq_modulated_positive
        {G : Type} `{RandomState G} `{NumPyMath}
        (fuel : nat) (now : Z) (rates : list Q) (T0 T mod_freq : Q)
        (mod_list : list nat) (t_win dt mod_amp : Q) (g g' : G)
        (out : list (list time)) :
  ~ mod_freq == 0 ->
  build_rate_seq_modulated fuel now rates T0 T mod_freq mod_list
                           t_win dt mod_amp g = Ok (out, g') ->
  forall i rate,
    nth_error rates i = Some rate ->
    mod_list = [] \/ In i mod_list ->
    0 < rate.
Proof.
  intros Hf E i rate Hi Hmod. unfold build_rate_seq_modulated in E.
  apply bind_Ok in E. destruct E as (t & ga & _ & E).
  apply bind_Ok in E. destruct E as (u & g1 & _ & E).
  apply bind_Ok in E. destruct E as (s_k & g2 & Es & _).
  destruct (Qeq_bool mod_freq 0) eqn:E0; [apply Qeq_bool_eq in E0; tauto|].
  destruct (0 <? length mod_list)%nat eqn:El.
  - destruct Hmod as [->|Hin]; [discriminate|].
    apply (mapM_Ok _ (fun ir _ =>
                        existsb (Nat.eqb (fst ir)) mod_list = true ->
                        0 < snd ir)) in Es.
    + apply (nth_error_enumerate rates 0%nat) in Hi.
      destruct (Forall2_nth_error_left _ _ _ _ _ Es Hi) as (s & _ & Hs).
      apply Hs. apply existsb_exists. exists i.
      split; [exact Hin | apply Nat.eqb_refl].
    + intros [k r] g0 b g0' Eb Hk. cbn [fst snd] in *. rewrite Hk in Eb.
      unfold modulated_train in Eb.
      destruct (Qltb 0 r) eqn:Er; [|discriminate].
      apply Qltb_lt. exact Er.
  - apply (mapM_Ok _ (fun r _ => 0 < r)) in Es.
    + destruct (Forall2_nth_error_left _ _ _ _ _ Es Hi) as (s & _ & Hs).
      exact Hs.
    + intros r g0 b g0' Eb. unfold modulated_train in Eb.
      destruct (Qltb 0 r) eqn:Er; [|discriminate].
      apply Qltb_lt. exact Er.
Qed.

Lemma build_rate_seq_modulated_positive_witness :
  exists out g',
    build_rate_seq_modulated (H := Toy.rng) (H0 := Toy.math)
      200 2 [1 # 100; 2 # 100] 0 100 5 [] 10 (1 # 10) (25 # 10) 0%Z
    = Ok (out, g') /\
    0 < 1 # 100.
Proof.
  do 2 eexists. split; [vm_compute; reflexivity|].
  eapply (build_rate_seq_modulated_positive
            (H := Toy.rng) (H0 := Toy.math)
            200 2 [1 # 100; 2 # 100] 0 100 5 [] 10 (1 # 10) (25 # 10)
            0%Z _ _ ltac:(discriminate) ltac:(vm_compute; reflexivity)
            0%nat (1 # 100) eq_refl (or_introl eq_refl)).
Defined.

